(** * code_kg: the knowledge graph, the heuristic extractor and the scanner

    A shallow embedding of [code_kg/graph.py], [code_kg/extractors/heuristic.py]
    and [code_kg/scanner.py], followed by the properties of the graph store,
    of extraction and of scanning.

    Conventions of the embedding.
    - A Python [str] is a [string]; its characters are the code points
      U+0000 to U+00FF, classified as Python classifies them
      ([str.isspace], [str.isalnum], [str.lower], the line boundaries of
      [str.splitlines]).
    - A method that mutates the graph is a function from the graph before the
      call to the graph after it and the outcome of the call: a value, or the
      exception raised.  The graph after a raising call is the graph as the
      call left it.
    - A [dict] or [set] keyed by strings is a [gmap] or a [gset]. *)

From Stdlib Require Import Ascii String NArith DecimalString DecimalNat.
From stdpp Require Import base option list strings gmap sets fin_maps.
From stdpp Require Import sorting.

Local Open Scope N_scope.

(** ** Python characters and strings *)

Module Py.

Definition ord (c : ascii) : N := N_of_ascii c.

Definition between (lo hi n : N) : bool := (lo <=? n) && (n <=? hi).

(** [str.isspace] of one character. *)
Definition isspace (c : ascii) : bool :=
  let n := ord c in
  between 9 13 n || between 28 32 n || (n =? 133) || (n =? 160).

Definition ascii_upper (c : ascii) : bool := between 65 90 (ord c).
Definition ascii_lower (c : ascii) : bool := between 97 122 (ord c).
Definition ascii_digit (c : ascii) : bool := between 48 57 (ord c).
(** The class [[A-Za-z_]]. *)
Definition ident_start (c : ascii) : bool :=
  ascii_upper c || ascii_lower c || (ord c =? 95).

(** [str.isalnum] of one character. *)
Definition isalnum (c : ascii) : bool :=
  let n := ord c in
  ascii_upper c || ascii_lower c || ascii_digit c
  || (n =? 170) || (n =? 178) || (n =? 179) || (n =? 181) || (n =? 185)
  || (n =? 186) || between 188 190 n
  || between 192 214 n || between 216 246 n || between 248 255 n.

(** The class [\w] of a [str] pattern. *)
Definition isword (c : ascii) : bool := isalnum c || (ord c =? 95).

(** [str.lower] of one character. *)
Definition lower_char (c : ascii) : ascii :=
  let n := ord c in
  if between 65 90 n || between 192 214 n || between 216 222 n
  then ascii_of_N (n + 32) else c.

Fixpoint lower (s : string) : string :=
  match s with
  | EmptyString => EmptyString
  | String c s' => String (lower_char c) (lower s')
  end.

(** The characters at which [str.splitlines] ends a line. *)
Definition islinebreak (c : ascii) : bool :=
  let n := ord c in between 10 13 n || between 28 30 n || (n =? 133).

(** [s.splitlines()]: a carriage return followed by a line feed is one
    boundary, and a boundary at the very end opens no further line.  [cur]
    is the current line, reversed. *)
Fixpoint splitlines_go (cur : string) (s : string) : list string :=
  match s with
  | EmptyString =>
      match cur with EmptyString => [] | _ => [String.rev cur] end
  | String c s' =>
      if islinebreak c then
        String.rev cur ::
          match s' with
          | String d s'' =>
              if (ord c =? 13) && (ord d =? 10)
              then splitlines_go EmptyString s''
              else splitlines_go EmptyString s'
          | EmptyString => []
          end
      else splitlines_go (String c cur) s'
  end.
Definition splitlines (s : string) : list string :=
  splitlines_go EmptyString s.

Fixpoint lstrip_by (p : ascii → bool) (s : string) : string :=
  match s with
  | EmptyString => EmptyString
  | String c s' => if p c then lstrip_by p s' else s
  end.
Definition rstrip_by (p : ascii → bool) (s : string) : string :=
  String.rev (lstrip_by p (String.rev s)).
Definition strip_by (p : ascii → bool) (s : string) : string :=
  rstrip_by p (lstrip_by p s).

(** [s.strip()]. *)
Definition strip (s : string) : string := strip_by isspace s.

Fixpoint char_in (chars : string) (c : ascii) : bool :=
  match chars with
  | EmptyString => false
  | String d chars' => (ord c =? ord d) || char_in chars' c
  end.

(** [s.strip(chars)]. *)
Definition strip_chars (chars : string) (s : string) : string :=
  strip_by (char_in chars) s.

(** [s.split()]: the maximal runs of characters that are not whitespace. *)
Fixpoint split_go (cur : string) (s : string) : list string :=
  match s with
  | EmptyString =>
      match cur with EmptyString => [] | _ => [String.rev cur] end
  | String c s' =>
      if isspace c then
        match cur with
        | EmptyString => split_go EmptyString s'
        | _ => String.rev cur :: split_go EmptyString s'
        end
      else split_go (String c cur) s'
  end.
Definition split (s : string) : list string := split_go EmptyString s.

(** [s.split(sep)] for a separator of one character.  The result is never
    empty: it is given as its first element, the text before the first
    separator, and the list of the others. *)
Fixpoint split_on_go (sep : ascii) (cur : string) (s : string)
    : string * list string :=
  match s with
  | EmptyString => (String.rev cur, [])
  | String c s' =>
      if ord c =? ord sep
      then (String.rev cur,
            let r := split_on_go sep EmptyString s' in r.1 :: r.2)
      else split_on_go sep (String c cur) s'
  end.
Definition split_on (sep : ascii) (s : string) : string * list string :=
  split_on_go sep EmptyString s.

(** [str(n)] for an integer that is not negative. *)
Definition str (n : nat) : string := NilZero.string_of_uint (Nat.to_uint n).

(** [s.startswith(c)] for one character. *)
Definition startswith (c : ascii) (s : string) : bool :=
  match s with
  | String d _ => ord d =? ord c
  | EmptyString => false
  end.

(** [s[i:]]. *)
Fixpoint drop (i : nat) (s : string) : string :=
  match i, s with
  | O, _ => s
  | S i', String _ s' => drop i' s'
  | S _, EmptyString => EmptyString
  end.
(** [s[:i]]. *)
Fixpoint take (i : nat) (s : string) : string :=
  match i, s with
  | O, _ => EmptyString
  | S i', String c s' => String c (take i' s')
  | S _, EmptyString => EmptyString
  end.
(** [s[i:j]]. *)
Definition slice (i j : nat) (s : string) : string :=
  take (j - i) (drop i s).

(** [s.rfind(c)] for one character, as the index after the last occurrence:
    [0] when there is none (Python gives [-1] there, and every use adds 1 or
    compares). *)
Fixpoint rfind_succ_go (c : ascii) (s : string) (i : nat) (last : nat) : nat :=
  match s with
  | EmptyString => last
  | String d s' =>
      rfind_succ_go c s' (S i) (if ord d =? ord c then S i else last)
  end.
Definition rfind_succ (c : ascii) (s : string) : nat := rfind_succ_go c s 0 0.

End Py.

(** ** The regular expressions of Python's [re] that the extractor uses *)

Module Re.

(** Patterns.  Every pattern of the extractor has one capturing group. *)
Inductive regex : Type :=
| Eps                              (* the empty pattern *)
| Chr (p : ascii → bool)           (* one character of a class *)
| Cat (r1 r2 : regex)              (* r1 r2 *)
| Alt (r1 r2 : regex)              (* r1|r2, r1 tried first *)
| Star (r : regex)                 (* r*, greedy *)
| Group (r : regex)                (* (r), group 1 *)
| Bol                              (* ^ *)
| Eol                              (* $ *)
| WordB.                           (* \b *)

Definition Plus (r : regex) : regex := Cat r (Star r).   (* r+ *)
Definition Opt (r : regex) : regex := Alt r Eps.          (* r? *)

Definition lit_char (c : ascii) : regex := Chr (fun d => Py.ord d =? Py.ord c).
(** A literal character under [re.IGNORECASE]. *)
Definition lit_char_i (c : ascii) : regex :=
  Chr (fun d => Py.ord (Py.lower_char d) =? Py.ord (Py.lower_char c)).

Fixpoint lit (s : string) : regex :=
  match s with
  | EmptyString => Eps
  | String c s' => Cat (lit_char c) (lit s')
  end.
Fixpoint lit_i (s : string) : regex :=
  match s with
  | EmptyString => Eps
  | String c s' => Cat (lit_char_i c) (lit_i s')
  end.

Fixpoint alts (rs : list regex) : regex :=
  match rs with
  | [] => Chr (fun _ => false)
  | [r] => r
  | r :: rs' => Alt r (alts rs')
  end.
Fixpoint cats (rs : list regex) : regex :=
  match rs with
  | [] => Eps
  | r :: rs' => Cat r (cats rs')
  end.

Definition space : regex := Chr Py.isspace.                    (* \s *)
Definition word : regex := Chr Py.isword.                      (* \w *)
Definition dot : regex := Chr (fun c => negb (Py.ord c =? 10)). (* . *)
Definition ident : regex :=                        (* [A-Za-z_][\w]* *)
  Cat (Chr Py.ident_start) (Star word).

(** A match object: the span of the match and the span of group 1. *)
Record rmatch : Type := mk_rmatch {
  m_start : nat;
  m_end : nat;
  m_group1 : option (nat * nat)
}.

#[global] Instance rmatch_eq_dec : EqDecision rmatch.
Proof. solve_decision. Defined.

Section matcher.
Variable s : string.

Definition char_at (i : nat) : option ascii := String.get i s.

Definition word_at (i : nat) : bool := from_option Py.isword false (char_at i).

(** [\b] holds at [i] when exactly one of the characters before and after
    position [i] is a word character; outside the subject there is none. *)
Definition boundary (i : nat) : bool :=
  xorb (match i with O => false | S j => word_at j end) (word_at i).

(** [$] without [re.MULTILINE]: the end of the subject, or just before a
    line feed that ends it. *)
Definition at_end (i : nat) : bool :=
  (i =? String.length s)%nat
  || ((S i =? String.length s)%nat
      && from_option (fun c => Py.ord c =? 10) false (char_at i)).

(** Backtracking matcher: [run r i g k] matches [r] from position [i] with
    group 1 at [g] and hands the end position and the group to [k]; when [k]
    refuses, the next way of matching [r] is tried, in the order of [re]
    (left alternative first, longest repetition first). *)
Fixpoint run {R : Type} (r : regex) (i : nat) (g : option (nat * nat))
    (k : nat → option (nat * nat) → option R) {struct r} : option R :=
  match r with
  | Eps => k i g
  | Chr p =>
      match char_at i with
      | Some c => if p c then k (S i) g else None
      | None => None
      end
  | Cat r1 r2 => run r1 i g (fun j g' => run r2 j g' k)
  | Alt r1 r2 =>
      match run r1 i g k with
      | Some x => Some x
      | None => run r2 i g k
      end
  | Star r1 =>
      (fix loop (fuel : nat) (i : nat) (g : option (nat * nat)) : option R :=
         match fuel with
         | O => k i g
         | S fuel' =>
             match run r1 i g
                     (fun j g' => if (i <? j)%nat then loop fuel' j g' else None)
             with
             | Some x => Some x
             | None => k i g
             end
         end) (S (String.length s - i)) i g
  | Group r1 => run r1 i g (fun j _ => k j (Some (i, j)))
  | Bol => if (i =? 0)%nat then k i g else None
  | Eol => if at_end i then k i g else None
  | WordB => if boundary i then k i g else None
  end.

(** The match of [r] that starts at position [i], if any. *)
Definition match_at (r : regex) (i : nat) : option rmatch :=
  run r i None (fun j g => Some (mk_rmatch i j g)).

(** The first position from [i] on, among [fuel] positions, at which [r]
    matches. *)
Fixpoint search_from (r : regex) (fuel : nat) (i : nat) : option rmatch :=
  match fuel with
  | O => None
  | S fuel' =>
      match match_at r i with
      | Some m => Some m
      | None => search_from r fuel' (S i)
      end
  end.

(** The successive matches from [i] on that do not overlap.  (A match of
    one of the two patterns the extractor iterates is never empty; after an
    empty match the model moves one character on.) *)
Fixpoint finditer_from (r : regex) (fuel : nat) (i : nat) : list rmatch :=
  match fuel with
  | O => []
  | S fuel' =>
      match search_from r (S (String.length s - i)) i with
      | None => []
      | Some m =>
          m :: finditer_from r fuel'
                 (if (m_start m <? m_end m)%nat then m_end m else S (m_end m))
      end
  end.
End matcher.

(** [pat.match(s)]. *)
Definition match_ (pat : regex) (s : string) : option rmatch := match_at s pat 0.
(** [pat.search(s)]. *)
Definition search (pat : regex) (s : string) : option rmatch :=
  search_from s pat (S (String.length s)) 0.
(** [pat.finditer(s)]. *)
Definition finditer (pat : regex) (s : string) : list rmatch :=
  finditer_from s pat (S (String.length s)) 0.

(** [m.group(1)] on the subject [s].  (Python gives [None] for a group that
    took no part in the match; group 1 is on every path of every pattern
    below.) *)
Definition group1 (s : string) (m : rmatch) : string :=
  match m_group1 m with
  | Some (a, b) => Py.slice a b s
  | None => EmptyString
  end.

End Re.

(** ** The functions of [os.path] that the extractor and the scanner call
    (POSIX: [os.sep] is ["/"]) *)

Module os_path.

(** [os.path.basename(p)]: the text after the last ["/"]. *)
Definition basename (p : string) : string :=
  Py.drop (Py.rfind_succ "/" p) p.

(** [os.path.splitext(p)]: the extension starts at the last ["."] of the
    last path component, unless only dots come before it there. *)
Definition splitext (p : string) : string * string :=
  let sep_succ := Py.rfind_succ "/" p in
  let dot_succ := Py.rfind_succ "." p in
  if (sep_succ <? dot_succ)%nat
     && negb (forallb (fun c => Py.ord c =? Py.ord ".")
                (list_ascii_of_string (Py.slice sep_succ (dot_succ - 1) p)))
  then (Py.take (dot_succ - 1) p, Py.drop (dot_succ - 1) p)
  else (p, EmptyString).

(** [os.path.join(a, b)]. *)
Definition join (a b : string) : string :=
  if Py.startswith "/" b then b
  else match a with
       | EmptyString => b
       | _ => if Py.startswith "/" (String.rev a) then a +:+ b
              else a +:+ "/" +:+ b
       end.

End os_path.

(** ** Exceptions and mutation *)

(** The exceptions of the program.  [KeyError], [IndexError], [OSError] and
    the classes that [OtherError] names are subclasses of [Exception];
    [BaseException] names a class that derives from [BaseException] and not
    from [Exception]: [SystemExit], [KeyboardInterrupt], [GeneratorExit]. *)
Inductive exn : Type :=
| KeyError (arg : string)
| IndexError (arg : string)
| OSError (arg : string)
| OtherError (cls arg : string)
| BaseException (cls arg : string).

(** [isinstance(e, Exception)]. *)
Definition is_Exception (e : exn) : bool :=
  match e with
  | BaseException _ _ => false
  | _ => true
  end.

Inductive outcome (A : Type) : Type :=
| Returns (a : A)
| Raises (e : exn).
Arguments Returns {A} a.
Arguments Raises {A} e.

#[global] Instance exn_eq_dec : EqDecision exn.
Proof. solve_decision. Defined.
#[global] Instance outcome_eq_dec {A : Type} `{EqDecision A} : EqDecision (outcome A).
Proof. solve_decision. Defined.

(** A call that may mutate an object of type [S] and returns an [A] or raises. *)
Definition M (S A : Type) : Type := S → S * outcome A.

Definition ret {S A : Type} (a : A) : M S A := fun s => (s, Returns a).
Definition raise {S A : Type} (e : exn) : M S A := fun s => (s, Raises e).
Definition bind {S A B : Type} (m : M S A) (f : A → M S B) : M S B :=
  fun s =>
    match m s with
    | (s', Returns a) => f a s'
    | (s', Raises e) => (s', Raises e)
    end.

Notation "x <- m ;; k" := (bind m (fun x => k))
  (at level 100, m at next level, right associativity).
Notation "m ;;; k" := (bind m (fun _ => k))
  (at level 100, right associativity).

(** [try: m  except Exception: h]: an exception that is not an instance of
    [Exception] goes through. *)
Definition try_except {S A : Type} (m : M S A) (h : M S A) : M S A :=
  fun s =>
    match m s with
    | (s', Returns a) => (s', Returns a)
    | (s', Raises e) => if is_Exception e then h s' else (s', Raises e)
    end.

(** [for x in xs: body(x)]. *)
Fixpoint for_ {S X : Type} (xs : list X) (body : X → M S unit) : M S unit :=
  match xs with
  | [] => ret tt
  | x :: xs' => body x ;;; for_ xs' body
  end.

(** [enumerate(xs, start)]. *)
Fixpoint enumerate {X : Type} (start : nat) (xs : list X) : list (nat * X) :=
  match xs with
  | [] => []
  | x :: xs' => (start, x) :: enumerate (S start) xs'
  end.

(** ** The data model ([graph.py]) *)

Inductive NodeKind : Type :=
| MODULE | TYPE | CLASS | INTERFACE | FUNCTION | METHOD | VARIABLE | CONSTANT
| ENUM | PACKAGE | FILE | NAMESPACE | RESOURCE | ENDPOINT | UNKNOWN.

Inductive EdgeKind : Type :=
| CONTAINS | DEFINES | CALLS | IMPORTS | EXTENDS | IMPLEMENTS | REFERENCES
| RETURNS | PARAM | THROWS | READS | WRITES | DECORATES | OVERRIDES.

Definition NodeKind_value (k : NodeKind) : string :=
  match k with
  | MODULE => "module" | TYPE => "type" | CLASS => "class"
  | INTERFACE => "interface" | FUNCTION => "function" | METHOD => "method"
  | VARIABLE => "variable" | CONSTANT => "constant" | ENUM => "enum"
  | PACKAGE => "package" | FILE => "file" | NAMESPACE => "namespace"
  | RESOURCE => "resource" | ENDPOINT => "endpoint" | UNKNOWN => "unknown"
  end.

Definition EdgeKind_value (k : EdgeKind) : string :=
  match k with
  | CONTAINS => "contains" | DEFINES => "defines" | CALLS => "calls"
  | IMPORTS => "imports" | EXTENDS => "extends" | IMPLEMENTS => "implements"
  | REFERENCES => "references" | RETURNS => "returns" | PARAM => "param"
  | THROWS => "throws" | READS => "reads" | WRITES => "writes"
  | DECORATES => "decorates" | OVERRIDES => "overrides"
  end.

Definition EdgeKind_index (k : EdgeKind) : nat :=
  match k with
  | CONTAINS => 0 | DEFINES => 1 | CALLS => 2 | IMPORTS => 3 | EXTENDS => 4
  | IMPLEMENTS => 5 | REFERENCES => 6 | RETURNS => 7 | PARAM => 8
  | THROWS => 9 | READS => 10 | WRITES => 11 | DECORATES => 12
  | OVERRIDES => 13
  end%nat.

Definition EdgeKind_of_index (n : nat) : option EdgeKind :=
  [CONTAINS; DEFINES; CALLS; IMPORTS; EXTENDS; IMPLEMENTS; REFERENCES;
   RETURNS; PARAM; THROWS; READS; WRITES; DECORATES; OVERRIDES] !! n.

#[global] Instance NodeKind_eq_dec : EqDecision NodeKind.
Proof. solve_decision. Defined.
#[global] Instance EdgeKind_eq_dec : EqDecision EdgeKind.
Proof. solve_decision. Defined.
#[global] Instance EdgeKind_countable : Countable EdgeKind.
Proof.
  apply (inj_countable EdgeKind_index EdgeKind_of_index).
  intros []; reflexivity.
Defined.

(** A [Dict[str, str]] literal: its items in insertion order, keys distinct. *)
Definition Dict : Type := list (string * string).

(** The order of Python on pairs of strings. *)
Definition item_leb (a b : string * string) : bool :=
  match String.compare a.1 b.1 with
  | Lt => true
  | Eq => String.leb a.2 b.2
  | Gt => false
  end.

Fixpoint insert_sorted (x : string * string) (l : list (string * string))
    : list (string * string) :=
  match l with
  | [] => [x]
  | y :: l' => if item_leb x y then x :: l else y :: insert_sorted x l'
  end.

(** [tuple(sorted(items))]. *)
Fixpoint sorted (l : list (string * string)) : list (string * string) :=
  match l with
  | [] => []
  | x :: l' => insert_sorted x (sorted l')
  end.

(** [meta or {}]. *)
Definition meta_or_empty (meta : option Dict) : Dict := default [] meta.

(** [d[k] = v] on the items of a dict. *)
Fixpoint dict_set (k v : string) (d : Dict) : Dict :=
  match d with
  | [] => [(k, v)]
  | (k', v') :: d' =>
      if decide (k' = k) then (k, v) :: d' else (k', v') :: dict_set k v d'
  end.

(** [dict(items)]. *)
Definition dict_of (items : list (string * string)) : Dict :=
  fold_left (fun d kv => dict_set kv.1 kv.2 d) items [].

Module Node.
Record t : Type := mk {
  id : string;
  name : string;
  kind : NodeKind;
  meta : list (string * string)
}.

Definition from_meta (id name : string) (kind : NodeKind) (meta : option Dict) : t :=
  mk id name kind (sorted (meta_or_empty meta)).

Definition meta_dict (n : t) : Dict := dict_of (meta n).

#[global] Instance node_eq_dec : EqDecision t.
Proof. solve_decision. Defined.
End Node.

Module Edge.
Record t : Type := mk {
  source : string;
  target : string;
  kind : EdgeKind;
  meta : list (string * string)
}.

Definition from_meta (source target : string) (kind : EdgeKind) (meta : option Dict) : t :=
  mk source target kind (sorted (meta_or_empty meta)).

Definition meta_dict (e : t) : Dict := dict_of (meta e).

#[global] Instance edge_eq_dec : EqDecision t.
Proof. solve_decision. Defined.

#[global] Instance edge_countable : Countable t.
Proof.
  apply (inj_countable'
           (fun e => (source e, target e, kind e, meta e))
           (fun p => mk p.1.1.1 p.1.1.2 p.1.2 p.2)).
  intros []; reflexivity.
Defined.
End Edge.

Module Graph.

Record t : Type := mk {
  _nodes : gmap string Node.t;
  _out_edges : gmap string (gset Edge.t);
  _in_edges : gmap string (gset Edge.t)
}.

(** [Graph()]. *)
Definition new : t := mk ∅ ∅ ∅.

(** [d.setdefault(k, v)], for its effect on [d]. *)
Definition setdefault {V : Type} (k : string) (v : V) (d : gmap string V)
    : gmap string V :=
  match d !! k with
  | Some _ => d
  | None => <[k := v]> d
  end.

(** [d[k].add(x)]: [d[k]] raises [KeyError] on a key that is missing. *)
Definition add_at (k : string) (x : Edge.t) (d : gmap string (gset Edge.t))
    : option (gmap string (gset Edge.t)) :=
  match d !! k with
  | Some xs => Some (<[k := {[x]} ∪ xs]> d)
  | None => None
  end.

Definition upsert_node (node : Node.t) : M t Node.t := fun self =>
  (mk (<[Node.id node := node]> (_nodes self))
      (setdefault (Node.id node) ∅ (_out_edges self))
      (setdefault (Node.id node) ∅ (_in_edges self)),
   Returns node).

Definition get_node (node_id : string) : M t (option Node.t) := fun self =>
  (self, Returns (_nodes self !! node_id)).

Definition ensure_node (node_id name : string) (kind : NodeKind)
    (meta : option Dict) : M t Node.t := fun self =>
  match _nodes self !! node_id with
  | Some node => (self, Returns node)
  | None => upsert_node (Node.from_meta node_id name kind meta) self
  end.

Definition missing_endpoint : exn :=
  KeyError "Both source and target nodes must exist before adding an edge".

Definition add_edge (edge : Edge.t) : M t Edge.t := fun self =>
  match _nodes self !! Edge.source edge, _nodes self !! Edge.target edge with
  | Some _, Some _ =>
      match add_at (Edge.source edge) edge (_out_edges self) with
      | None => (self, Raises (KeyError (Edge.source edge)))
      | Some out =>
          let self1 := mk (_nodes self) out (_in_edges self) in
          match add_at (Edge.target edge) edge (_in_edges self1) with
          | None => (self1, Raises (KeyError (Edge.target edge)))
          | Some inc => (mk (_nodes self1) (_out_edges self1) inc, Returns edge)
          end
      end
  | _, _ => (self, Raises missing_endpoint)
  end.

Definition connect (source_id target_id : string) (kind : EdgeKind)
    (meta : option Dict) : M t Edge.t :=
  add_edge (Edge.from_meta source_id target_id kind meta).

(** [nodes()] and [edges()]: the stored values, in an order that is no part
    of the contract. *)
Definition nodes (self : t) : list Node.t := (map_to_list (_nodes self)).*2.

Definition edges (self : t) : list Edge.t :=
  concat (elements <$> (map_to_list (_out_edges self)).*2).

Definition to_dict (self : t)
    : list (string * string * string * Dict)
      * list (string * string * string * Dict) :=
  ((fun n => (Node.id n, Node.name n, NodeKind_value (Node.kind n),
              dict_of (Node.meta n))) <$> nodes self,
   (fun e => (Edge.source e, Edge.target e, EdgeKind_value (Edge.kind e),
              dict_of (Edge.meta e))) <$> edges self).

Definition node_id_for_file (path : string) : string := "file:" +:+ path.

Definition node_id_for_symbol (file_path symbol_name : string) : string :=
  "symbol:" +:+ file_path +:+ ":" +:+ symbol_name.

(** [kind is None or e.kind == kind]. *)
Definition kind_matches (kind : option EdgeKind) (e : Edge.t) : bool :=
  match kind with
  | None => true
  | Some k => bool_decide (Edge.kind e = k)
  end.

(** [successors(node_id, kind)]: the nodes that the generator yields, in the
    order in which the set of outgoing edges is iterated. *)
Definition successors (node_id : string) (kind : option EdgeKind) (self : t)
    : list Node.t :=
  e ← elements (default ∅ (_out_edges self !! node_id));
  if kind_matches kind e then
    match _nodes self !! Edge.target e with
    | Some n => [n]
    | None => []
    end
  else [].

(** [predecessors(node_id, kind)]. *)
Definition predecessors (node_id : string) (kind : option EdgeKind) (self : t)
    : list Node.t :=
  e ← elements (default ∅ (_in_edges self !! node_id));
  if kind_matches kind e then
    match _nodes self !! Edge.source e with
    | Some n => [n]
    | None => []
    end
  else [].

(** The body of the first loop of [subgraph], on the new graph [sub]. *)
Definition subgraph_node (self : t) (node_id : string) : M t unit :=
  match _nodes self !! node_id with
  | Some node => upsert_node node ;;; ret tt
  | None => ret tt
  end.

(** The body of the second loop of [subgraph], on the new graph [sub]. *)
Definition subgraph_edge (node_ids : gset string) (e : Edge.t) : M t unit :=
  if bool_decide (Edge.source e ∈ node_ids)
     && bool_decide (Edge.target e ∈ node_ids)
  then add_edge e ;;; ret tt
  else ret tt.

(** [subgraph(node_ids)]: the new graph, or the exception that [add_edge]
    raised on it; [self] is not changed. *)
Definition subgraph (node_ids : gset string) (self : t) : outcome t :=
  let sub := new in
  match (for_ (elements node_ids) (subgraph_node self) ;;;
         for_ (edges self) (subgraph_edge node_ids)) sub with
  | (sub', Returns _) => Returns sub'
  | (_, Raises e) => Raises e
  end.

End Graph.


(** ** The extractor interface ([extractors/base.py]) *)

Module Extractor.
(** An implementation of the abstract class: [supports] answers or raises,
    [extract] mutates the graph it is given or raises. *)
Record t : Type := mk {
  supports : string → string → outcome bool;
  extract : string → string → M Graph.t unit;
  language_hint : string → option string
}.
End Extractor.

(** ** The heuristic extractor ([extractors/heuristic.py]) *)

Module HeuristicExtractor.
Import Re.

(** The patterns, each under the source's text of it (there a star is
    followed by a space where a closing parenthesis comes next). *)

Definition keywords (ws : list string) : regex := alts (lit <$> ws).
Definition keywords_i (ws : list string) : regex := alts (lit_i <$> ws).

(** [^\s*(?:import|from|using|use|include|require)\b(.+)$], ignoring case. *)
Definition IMPORT_PATTERNS : list regex :=
  [ cats [Bol; Star space;
          keywords_i ["import"; "from"; "using"; "use"; "include"; "require"];
          WordB; Group (Plus dot); Eol] ].

(** [^\s*(?:def|function|fn|proc|sub|lambda|async\s+function)\s+([A-Za-z_][\w]* )\b]
    and [^\s*([A-Za-z_][\w]* )\s*\([^)]* \)\s*\{?\s*$]. *)
Definition FUNCTION_DEF_PATTERNS : list regex :=
  [ cats [Bol; Star space;
          alts [lit "def"; lit "function"; lit "fn"; lit "proc"; lit "sub";
                lit "lambda"; cats [lit "async"; Plus space; lit "function"]];
          Plus space; Group ident; WordB];
    cats [Bol; Star space; Group ident; Star space; lit_char "(";
          Star (Chr (fun c => negb (Py.ord c =? Py.ord ")")));
          lit_char ")"; Star space; Opt (lit_char "{"); Star space; Eol] ].

(** [^\s*(?:class|struct|interface|trait)\s+([A-Za-z_][\w]* )]. *)
Definition CLASS_DEF_PATTERNS : list regex :=
  [ cats [Bol; Star space; keywords ["class"; "struct"; "interface"; "trait"];
          Plus space; Group ident] ].

(** [\b(?:extends|implements|:|with)\s+([A-Za-z_][\w]* )]. *)
Definition EXTENDS_PATTERN : regex :=
  cats [WordB; keywords ["extends"; "implements"; ":"; "with"];
        Plus space; Group ident].

(** [^\s*(?:const|constexpr|final|immutable)\s+([A-Za-z_][\w]* )\b]. *)
Definition CONST_PATTERNS : list regex :=
  [ cats [Bol; Star space;
          keywords ["const"; "constexpr"; "final"; "immutable"];
          Plus space; Group ident; WordB] ].

(** [^\s*(?:var|let|mut|auto|int|float|str|bool|char|double|long|short)\s+([A-Za-z_][\w]* )\b]. *)
Definition VAR_PATTERNS : list regex :=
  [ cats [Bol; Star space;
          keywords ["var"; "let"; "mut"; "auto"; "int"; "float"; "str"; "bool";
                    "char"; "double"; "long"; "short"];
          Plus space; Group ident; WordB] ].

(** [\b([A-Za-z_][\w]* )\s*\(]. *)
Definition CALL_PATTERN : regex :=
  cats [WordB; Group ident; Star space; lit_char "("].

(** The class of characters that are neither whitespace, nor a quote (single,
    code 39, or double, code 34), nor a closing parenthesis. *)
Definition resource_char (c : ascii) : bool :=
  negb (Py.isspace c || (Py.ord c =? 39) || (Py.ord c =? 34)
        || (Py.ord c =? Py.ord ")")).

(** [\b(https?://R+|/R+)\b], where [R] is the class above. *)
Definition RESOURCE_PATTERN : regex :=
  cats [WordB;
        Group (Alt (cats [lit "http"; Opt (lit_char "s"); lit "://";
                          Plus (Chr resource_char)])
                   (cats [lit_char "/"; Plus (Chr resource_char)]));
        WordB].

Definition WRITE_VERBS : gset string :=
  {[ "write"; "save"; "put"; "append"; "update"; "post" ]}.
Definition READ_VERBS : gset string :=
  {[ "read"; "get"; "open"; "fetch"; "load"; "download" ]}.

Definition supports (file_path text : string) : bool := true.

(** [x = None; for pat in pats: x = pat.match(line); if x: break]. *)
Fixpoint first_match (pats : list regex) (line : string) : option rmatch :=
  match pats with
  | [] => None
  | pat :: pats' =>
      match match_ pat line with
      | Some m => Some m
      | None => first_match pats' line
      end
  end.

(** [for pat in pats: m = pat.match(line); if m: body(m); break]. *)
Fixpoint for_match (pats : list regex) (line : string)
    (body : rmatch → M Graph.t unit) : M Graph.t unit :=
  match pats with
  | [] => ret tt
  | pat :: pats' =>
      match match_ pat line with
      | Some m => body m
      | None => for_match pats' line body
      end
  end.

(** [line.strip().split("(")[0].split()[:1]], then
    [verb[0].lower()] if [verb] is not empty, else the empty string. *)
Definition verb_of (line : string) : string :=
  match Py.split (Py.split_on "(" (Py.strip line)).1 with
  | v :: _ => Py.lower v
  | [] => EmptyString
  end.

(** The body of the loop over the import patterns, at a match. *)
Definition import_at (file_id line : string) (m : rmatch) : M Graph.t unit :=
  let target_raw := Py.strip_chars ";{}()" (Py.strip (group1 line m)) in
  match Py.split target_raw with
  | [] => raise (IndexError "list index out of range")
  | target :: _ =>
      let imported_id := "import:" +:+ target in
      Graph.ensure_node imported_id target MODULE None ;;;
      Graph.connect file_id imported_id IMPORTS (Some [("text", Py.strip line)]) ;;;
      ret tt
  end.

(** The body of the loop over class and function definitions. *)
Definition definition_at (file_path file_id : string) (idx : nat) (line : string)
    : M Graph.t unit :=
  match first_match CLASS_DEF_PATTERNS line with
  | Some class_match =>
      let class_name := group1 line class_match in
      let class_id := Graph.node_id_for_symbol file_path class_name in
      Graph.ensure_node class_id class_name CLASS
        (Some [("line", Py.str idx); ("file", file_path)]) ;;;
      match search EXTENDS_PATTERN line with
      | Some ext =>
          let base := group1 line ext in
          let base_id := "type:" +:+ base in
          Graph.ensure_node base_id base TYPE None ;;;
          Graph.connect class_id base_id EXTENDS (Some [("line", Py.str idx)]) ;;;
          ret tt
      | None => ret tt
      end
  | None =>
      match first_match FUNCTION_DEF_PATTERNS line with
      | Some func_match =>
          let func_name := group1 line func_match in
          let func_id := Graph.node_id_for_symbol file_path func_name in
          Graph.ensure_node func_id func_name FUNCTION
            (Some [("line", Py.str idx); ("file", file_path)]) ;;;
          Graph.connect file_id func_id CONTAINS None ;;;
          ret tt
      | None => ret tt
      end
  end.

(** The body of the loop over variables and constants. *)
Definition declaration_at (file_path file_id : string) (idx : nat) (line : string)
    : M Graph.t unit :=
  for_match CONST_PATTERNS line (fun m =>
    let const_name := group1 line m in
    let const_id := Graph.node_id_for_symbol file_path const_name in
    Graph.ensure_node const_id const_name CONSTANT
      (Some [("line", Py.str idx); ("file", file_path)]) ;;;
    Graph.connect file_id const_id CONTAINS None ;;;
    ret tt) ;;;
  for_match VAR_PATTERNS line (fun m =>
    let var_name := group1 line m in
    let var_id := Graph.node_id_for_symbol file_path var_name in
    Graph.ensure_node var_id var_name VARIABLE
      (Some [("line", Py.str idx); ("file", file_path)]) ;;;
    Graph.connect file_id var_id CONTAINS None ;;;
    ret tt).

(** The body of the loop over the calls of a line. *)
Definition call_at (file_id : string) (idx : nat) (line : string) (m : rmatch)
    : M Graph.t unit :=
  let callee := group1 line m in
  let callee_id := "symbol:any:" +:+ callee in
  Graph.ensure_node callee_id callee FUNCTION None ;;;
  Graph.connect file_id callee_id CALLS (Some [("line", Py.str idx)]) ;;;
  ret tt.

(** The body of the loop over the resources of a line. *)
Definition resource_at (file_id : string) (idx : nat) (line : string) (res : rmatch)
    : M Graph.t unit :=
  let resource := group1 line res in
  let resource_id := "resource:" +:+ resource in
  Graph.ensure_node resource_id resource RESOURCE None ;;;
  let verb := verb_of line in
  if decide (verb ∈ WRITE_VERBS) then
    Graph.connect file_id resource_id WRITES (Some [("line", Py.str idx)]) ;;;
    ret tt
  else if decide (verb ∈ READ_VERBS) then
    Graph.connect file_id resource_id READS (Some [("line", Py.str idx)]) ;;;
    ret tt
  else ret tt.

Definition extract (file_path text : string) : M Graph.t unit :=
  let file_id := Graph.node_id_for_file file_path in
  Graph.ensure_node file_id (os_path.basename file_path) FILE
    (Some [("path", file_path)]) ;;;
  let lines := Py.splitlines text in
  (* Imports *)
  for_ lines (fun line =>
    for_match IMPORT_PATTERNS line (import_at file_id line)) ;;;
  (* Class and function definitions *)
  for_ (enumerate 1 lines) (fun il =>
    definition_at file_path file_id il.1 il.2) ;;;
  (* Variables and constants *)
  for_ (enumerate 1 lines) (fun il =>
    declaration_at file_path file_id il.1 il.2) ;;;
  (* Calls and resources *)
  for_ (enumerate 1 lines) (fun il =>
    for_ (finditer CALL_PATTERN il.2) (call_at file_id il.1 il.2) ;;;
    for_ (finditer RESOURCE_PATTERN il.2) (resource_at file_id il.1 il.2)).

(** [HeuristicExtractor()], as an [Extractor]; [language_hint] is inherited. *)
Definition new : Extractor.t :=
  Extractor.mk (fun file_path text => Returns (supports file_path text))
               extract
               (fun _ => None).

End HeuristicExtractor.

Local Close Scope N_scope.

(** ** The scanner ([scanner.py]) *)

(** What the scanner asks of the file system.
    - [isfile] is [os.path.isfile].
    - [walk keep root] is the sequence of [(dirpath, filenames)] that
      [os.walk(root)] yields when the consumer keeps, in each [dirnames] it is
      handed, the names that satisfy [keep]: the directories pruned so are not
      visited.
    - [read_text path] is [open(path, 'r', encoding='utf-8', errors='replace')]
      followed by [f.read()]: the text, or the exception raised, which is an
      instance of [Exception] ([OSError], [ValueError], ...). *)
Record FileSystem : Type := {
  isfile : string → bool;
  walk : (string → bool) → string → list (string * list string);
  read_text : string → outcome string;
  read_text_raises :
    ∀ path, match read_text path with
            | Returns _ => True
            | Raises e => is_Exception e = true
            end
}.

Module Scanner.

Definition DEFAULT_IGNORES : gset string :=
  {[ ".git"; "node_modules"; ".venv"; "__pycache__"; ".idea"; ".vscode";
     "dist"; "build" ]}.
Definition DEFAULT_EXTENSIONS : option (list string) := None.

Record t : Type := mk {
  extractors : list Extractor.t;
  extensions : option (gset string);
  ignores : gset string
}.

(** [Scanner(extractors, extensions, ignores)]: an absent or empty
    [extractors] gives the heuristic extractor alone, an absent or empty
    [ignores] the default set; [extensions] is stored as the set of the strings
    given. *)
Definition init (extractors : option (list Extractor.t))
    (extensions : option (list string)) (ignores : option (list string)) : t :=
  mk (match extractors with
      | Some (e :: es) => e :: es
      | _ => [HeuristicExtractor.new]
      end)
     (match extensions with
      | Some exts => Some (list_to_set exts)
      | None => None
      end)
     (match ignores with
      | Some (i :: rest) => list_to_set (i :: rest)
      | _ => DEFAULT_IGNORES
      end).

Section with_fs.
Variable fs : FileSystem.

Definition should_include_file (self : t) (path : string) : bool :=
  let base := os_path.basename path in
  if Py.startswith "." base then false
  else if existsb (fun part => bool_decide (part ∈ ignores self))
            (let parts := Py.split_on "/" path in parts.1 :: parts.2)
  then false
  else match extensions self with
       | Some exts =>
           let ext := (os_path.splitext base).2 in
           bool_decide (Py.lower ext ∈ exts)
       | None => isfile fs path
       end.

Definition walk_paths (self : t) (paths : list string) : list string :=
  root_path ← paths;
  if isfile fs root_path then
    if should_include_file self root_path then [root_path] else []
  else
    entry ← walk fs (fun d => negb (bool_decide (d ∈ ignores self))
                              && negb (Py.startswith "." d)) root_path;
    filename ← entry.2;
    let full_path := os_path.join entry.1 filename in
    if should_include_file self full_path then [full_path] else [].

(** The loop over the extractors, for one file that was read. *)
Definition scan_text (self : t) (file_path text : string) : M Graph.t unit :=
  for_ (extractors self) (fun extractor =>
    try_except
      (b <- (fun graph => (graph, Extractor.supports extractor file_path text)) ;;
       if b then Extractor.extract extractor file_path text else ret tt)
      (ret tt)).

(** The body of the loop over the files. *)
Definition scan_file (self : t) (file_path : string) : M Graph.t unit :=
  read <- try_except
            (text <- (fun graph => (graph, read_text fs file_path)) ;;
             ret (Some text))
            (ret None) ;;
  match read with
  | None => ret tt
  | Some text => scan_text self file_path text
  end.

Definition scan (self : t) (paths : list string) : outcome Graph.t :=
  let graph := Graph.new in
  match for_ (walk_paths self paths) (scan_file self) graph with
  | (graph', Returns _) => Returns graph'
  | (_, Raises e) => Raises e
  end.

End with_fs.
End Scanner.


(** ** Predicates on graphs and on calls *)

Module GraphFacts.

(** The edge [e] is stored: it is in the outgoing set of its source. *)
Definition has_edge (g : Graph.t) (e : Edge.t) : Prop :=
  ∃ xs, Graph._out_edges g !! Edge.source e = Some xs ∧ e ∈ xs.

(** The edge [e] is indexed at its target. *)
Definition has_in_edge (g : Graph.t) (e : Edge.t) : Prop :=
  ∃ xs, Graph._in_edges g !! Edge.target e = Some xs ∧ e ∈ xs.

(** One adjacency index holds at least what another holds. *)
Definition index_le (d d' : gmap string (gset Edge.t)) : Prop :=
  ∀ k xs, d !! k = Some xs → ∃ xs', d' !! k = Some xs' ∧ xs ⊆ xs'.

(** [g'] holds every node of [g], unchanged, and every edge of [g]. *)
Definition le (g g' : Graph.t) : Prop :=
  Graph._nodes g ⊆ Graph._nodes g'
  ∧ index_le (Graph._out_edges g) (Graph._out_edges g')
  ∧ index_le (Graph._in_edges g) (Graph._in_edges g').

(** Every node has its two adjacency entries: what [upsert_node] maintains. *)
Definition wf (g : Graph.t) : Prop :=
  ∀ k, is_Some (Graph._nodes g !! k) →
       is_Some (Graph._out_edges g !! k) ∧ is_Some (Graph._in_edges g !! k).

(** A call settles: it only adds to the graph, and made again on the graph
    it left (when it returned: on any graph that holds at least as much) it
    changes nothing and ends as it did. *)
Definition settles {A : Type} (m : M Graph.t A) : Prop :=
  ∀ g, le g (m g).1
       ∧ match (m g).2 with
         | Returns a => ∀ g', le (m g).1 g' → m g' = (g', Returns a)
         | Raises e => m (m g).1 = ((m g).1, Raises e)
         end.

(** A call keeps a property of the graph, however it ends. *)
Definition preserves {A : Type} (I : Graph.t → Prop) (m : M Graph.t A) : Prop :=
  ∀ g, I g → I (m g).1.

(** A call only adds to the graph. *)
Definition grows {A : Type} (m : M Graph.t A) : Prop := ∀ g, le g (m g).1.

(** On any graph, the call raises nothing but what [allowed] admits. *)
Definition raises_only {A : Type} (allowed : exn → Prop) (m : M Graph.t A)
    : Prop :=
  ∀ g e, (m g).2 = Raises e → allowed e.

(** On a graph that has its adjacency entries and the nodes [known], the call
    keeps the adjacency entries and raises nothing but what [allowed] admits. *)
Definition guarded {A : Type} (allowed : exn → Prop) (known : list string)
    (m : M Graph.t A) : Prop :=
  ∀ g, wf g → (∀ k, k ∈ known → is_Some (Graph._nodes g !! k)) →
       wf (m g).1 ∧ ∀ e, (m g).2 = Raises e → allowed e.

(** The node stored under [k], if any, is of kind [kind]. *)
Definition kind_at (k : string) (kind : NodeKind) (g : Graph.t) : Prop :=
  ∀ n, Graph._nodes g !! k = Some n → Node.kind n = kind.

#[global] Instance has_edge_dec g e : Decision (has_edge g e).
Proof.
  unfold has_edge.
  destruct (Graph._out_edges g !! Edge.source e) as [xs|].
  - destruct (decide (e ∈ xs)) as [He | He].
    + left. eauto.
    + right. intros (xs' & [= <-] & He'). done.
  - right. intros (xs' & [=] & _).
Defined.

(** Every node stored under a resource id is the resource node of that id. *)
Definition resource_nodes_ok (g : Graph.t) : Prop :=
  ∀ r n, Graph._nodes g !! ("resource:" +:+ r) = Some n →
         n = Node.mk ("resource:" +:+ r) r RESOURCE [].

(** The verbs that give an edge of a kind. *)
Definition verbs_of (kind : EdgeKind) : gset string :=
  match kind with
  | WRITES => HeuristicExtractor.WRITE_VERBS
  | READS => HeuristicExtractor.READ_VERBS
  | _ => ∅
  end.

(** Every WRITES or READS edge stored comes from a resource of a line of
    [text] whose verb is in the set of that kind. *)
Definition verb_edges_ok (file_path text : string) (g : Graph.t) : Prop :=
  ∀ e, has_edge g e → Edge.kind e = WRITES ∨ Edge.kind e = READS →
    ∃ idx line res,
      (idx, line) ∈ enumerate 1 (Py.splitlines text)
      ∧ res ∈ Re.finditer HeuristicExtractor.RESOURCE_PATTERN line
      ∧ e = Edge.mk (Graph.node_id_for_file file_path)
              ("resource:" +:+ Re.group1 line res) (Edge.kind e)
              [("line", Py.str idx)]
      ∧ HeuristicExtractor.verb_of line ∈ verbs_of (Edge.kind e).

End GraphFacts.

(** ** What one extractor leaves of one file, and two small fixtures *)

Module ScanFacts.

(** The graph that the call of [extractor] on a file leaves, whether the call
    returned or raised an exception that [scan] catches: nothing is done when
    [supports] raises or answers no, and what [extract] did before it raised
    stays done. *)
Definition attempt (extractor : Extractor.t) (file_path text : string)
    (g : Graph.t) : Graph.t :=
  match Extractor.supports extractor file_path text with
  | Returns true => (Extractor.extract extractor file_path text g).1
  | _ => g
  end.

(** The graph that the extractors, each in its turn, leave of one file; a
    file that cannot be read leaves the graph as it is. *)
Definition attempt_file (fs : FileSystem) (self : Scanner.t) (g : Graph.t)
    (file_path : string) : Graph.t :=
  match read_text fs file_path with
  | Returns text =>
      fold_left (fun g extractor => attempt extractor file_path text g)
        (Scanner.extractors self) g
  | Raises _ => g
  end.

(** What [supports] and [extract] of the extractor raise, on any file and any
    graph, are instances of [Exception]. *)
Definition raises_Exceptions (extractor : Extractor.t) : Prop :=
  ∀ file_path text,
    (∀ e, Extractor.supports extractor file_path text = Raises e →
          is_Exception e = true)
    ∧ GraphFacts.raises_only (fun e => is_Exception e = true)
        (Extractor.extract extractor file_path text).


(** An extractor with a bug: it connects two nodes it never created. *)
Definition dangling_extractor : Extractor.t :=
  Extractor.mk (fun _ _ => Returns true)
               (fun _ _ => Graph.connect "a" "b" CALLS None ;;; ret tt)
               (fun _ => None).

(** A file system that holds the one readable file [a.py]. *)
Definition one_file : FileSystem :=
  {| isfile := fun p => bool_decide (p = "a.py");
     walk := fun _ _ => [];
     read_text := fun _ => Returns "x = 1";
     read_text_raises := fun _ => I |}.

End ScanFacts.

(** ** Graphs built through the methods, and what they keep *)

Module GraphInvariants.
Import GraphFacts.

(** The graphs that the methods of [Graph] build from [Graph()]. *)
Inductive built : Graph.t → Prop :=
| built_new : built Graph.new
| built_upsert_node g node :
    built g → built (Graph.upsert_node node g).1
| built_ensure_node g node_id name kind meta :
    built g → built (Graph.ensure_node node_id name kind meta g).1
| built_add_edge g edge :
    built g → built (Graph.add_edge edge g).1.

(** The node store and the two adjacency indexes agree: the three have the
    same keys; a node is stored under its own id; an edge in the outgoing set
    of [k] has source [k], a stored target, and is in the incoming set of its
    target; and the same the other way round. *)
Definition consistent (g : Graph.t) : Prop :=
  (∀ k, is_Some (Graph._nodes g !! k) ↔ is_Some (Graph._out_edges g !! k))
  ∧ (∀ k, is_Some (Graph._nodes g !! k) ↔ is_Some (Graph._in_edges g !! k))
  ∧ (∀ k n, Graph._nodes g !! k = Some n → Node.id n = k)
  ∧ (∀ k xs e, Graph._out_edges g !! k = Some xs → e ∈ xs →
       Edge.source e = k ∧ is_Some (Graph._nodes g !! Edge.target e)
       ∧ has_in_edge g e)
  ∧ (∀ k xs e, Graph._in_edges g !! k = Some xs → e ∈ xs →
       Edge.target e = k ∧ is_Some (Graph._nodes g !! Edge.source e)
       ∧ has_edge g e).

End GraphInvariants.

(** ** The DOT exporter ([exporters/dot_exporter.py]) *)

Module dot_exporter.

(** [s.replace(Q, BQ)], where [Q] is the double quote (code 34) and [BQ] a
    backslash (code 92) followed by it. *)
Fixpoint escape (s : string) : string :=
  match s with
  | EmptyString => EmptyString
  | String c s' =>
      if Ascii.eqb c "034" then String "092" (String "034" (escape s'))
      else String c (escape s')
  end.

End dot_exporter.

(** ** The texts of the scenarios, and the leading token *)

Module Scenarios.

(** The line [download(Q https://x/y Q)], without the spaces, where [Q] is the
    double quote (code 34). *)
Definition download_line : string :=
  "download(" +:+ String "034" ("https://x/y" +:+ String "034" ")").

(** The leading token of a line as the specification words it: the text
    before the first opening parenthesis of the line, lower-cased. *)
Definition leading_token_as_specified (line : string) : string :=
  Py.lower (Py.split_on "(" line).1.

End Scenarios.

(** ** What an extraction leaves: the shapes of its nodes and edges *)

Module ExtractionFacts.

(** The line is an import line whose target, once stripped, is empty: the
    line on which [extract] raises. *)
Definition import_without_target (line : string) : Prop :=
  ∃ m, HeuristicExtractor.first_match HeuristicExtractor.IMPORT_PATTERNS line
       = Some m
       ∧ Py.split (Py.strip_chars ";{}()" (Py.strip (Re.group1 line m))) = [].

(** The file node that [extract] creates for a path. *)
Definition file_node (path : string) : Node.t :=
  Node.mk (Graph.node_id_for_file path) (os_path.basename path) FILE
    [("path", path)].

(** The node [n] under the id [k] is one that the extraction of [file_path]
    creates: the id has one of six forms, and the form fixes the kind and the
    name. *)
Definition node_shape (file_path : string) (k : string) (n : Node.t) : Prop :=
  Node.id n = k
  ∧ (n = file_node file_path
     ∨ (∃ target, k = "import:" +:+ target
                  ∧ n = Node.mk k target MODULE [])
     ∨ (∃ base, k = "type:" +:+ base ∧ n = Node.mk k base TYPE [])
     ∨ (∃ callee, k = "symbol:any:" +:+ callee
                  ∧ n = Node.mk k callee FUNCTION [])
     ∨ (∃ resource, k = "resource:" +:+ resource
                    ∧ n = Node.mk k resource RESOURCE [])
     ∨ (∃ symbol idx,
          k = Graph.node_id_for_symbol file_path symbol
          ∧ Node.name n = symbol
          ∧ Node.kind n ∈ [CLASS; FUNCTION; CONSTANT; VARIABLE]
          ∧ Node.meta n = [("file", file_path); ("line", Py.str idx)])).

(** The edge [e] is one that the extraction of [file_path] creates: but for
    an EXTENDS edge, which goes from a class of the file to a type, it goes
    from the file node, to a node whose id has the form that its kind fixes. *)
Definition edge_shape (file_path : string) (e : Edge.t) : Prop :=
  match Edge.kind e with
  | IMPORTS =>
      Edge.source e = Graph.node_id_for_file file_path
      ∧ ∃ target, Edge.target e = "import:" +:+ target
  | CONTAINS =>
      Edge.source e = Graph.node_id_for_file file_path
      ∧ ∃ symbol, Edge.target e = Graph.node_id_for_symbol file_path symbol
  | CALLS =>
      Edge.source e = Graph.node_id_for_file file_path
      ∧ ∃ callee, Edge.target e = "symbol:any:" +:+ callee
  | WRITES | READS =>
      Edge.source e = Graph.node_id_for_file file_path
      ∧ ∃ resource, Edge.target e = "resource:" +:+ resource
  | EXTENDS =>
      (∃ class, Edge.source e = Graph.node_id_for_symbol file_path class)
      ∧ ∃ base, Edge.target e = "type:" +:+ base
  | _ => False
  end.

(** For four of the six forms, the id [k] fixes the node [n] stored under it:
    the file node under the id of the file, and under [import:], [type:] and
    [resource:] the node of that kind named after the rest of the id.  The
    two forms under [symbol:] are left out: they overlap. *)
Definition node_fixed_by_id (file_path k : string) (n : Node.t) : Prop :=
  (∀ path, k = Graph.node_id_for_file path →
           path = file_path ∧ n = file_node file_path)
  ∧ (∀ target, k = "import:" +:+ target → n = Node.mk k target MODULE [])
  ∧ (∀ base, k = "type:" +:+ base → n = Node.mk k base TYPE [])
  ∧ (∀ resource, k = "resource:" +:+ resource →
                 n = Node.mk k resource RESOURCE []).

(** Every stored node, with the id it is stored under, satisfies [P]. *)
Definition nodes_all (P : string → Node.t → Prop) (g : Graph.t) : Prop :=
  ∀ k n, Graph._nodes g !! k = Some n → P k n.

(** Every stored edge satisfies [P]. *)
Definition edges_all (P : Edge.t → Prop) (g : Graph.t) : Prop :=
  ∀ e, GraphFacts.has_edge g e → P e.

(** A node under the id of a file is the file node of a path that was
    [processed]. *)
Definition file_shape (processed : string → Prop) (k : string) (n : Node.t)
    : Prop :=
  ∀ p, k = Graph.node_id_for_file p → processed p ∧ n = file_node p.

End ExtractionFacts.

(** ** The order of the metadata, and fixtures for the graph and the scanner *)

(** [a] comes before [b], or is [b], in the order in which [sorted] puts the
    items. *)
Definition item_le (a b : string * string) : Prop := item_leb a b = true.

#[global] Instance item_le_dec a b : Decision (item_le a b).
Proof. unfold item_le. apply _. Defined.

Module Fixtures.

(** The graph of a file node [a], a type node [b] and a CALLS edge from the
    first to the second, built through the methods. *)
Definition small_graph : Graph.t :=
  (Graph.connect "a" "b" CALLS None
     (Graph.ensure_node "b" "b" TYPE None
        (Graph.ensure_node "a" "a" FILE None Graph.new).1).1).1.

(** A file system that holds the one file [a.py], which cannot be read. *)
Definition unreadable_file : FileSystem :=
  {| isfile := fun p => bool_decide (p = "a.py");
     walk := fun _ _ => [];
     read_text := fun _ => Raises (OSError "Permission denied");
     read_text_raises := fun _ => eq_refl |}.

End Fixtures.

(** ** Properties of the graph store *)

Section graph_store.
Import GraphFacts.

Lemma index_le_refl d : index_le d d.
Proof. intros k xs H. exists xs. split; [done | set_solver]. Qed.

Lemma index_le_trans d1 d2 d3 : index_le d1 d2 → index_le d2 d3 → index_le d1 d3.
Proof.
  intros H12 H23 k xs H1.
  destruct (H12 k xs H1) as (xs2 & H2 & Hs12).
  destruct (H23 k xs2 H2) as (xs3 & H3 & Hs23).
  exists xs3. split; [done | set_solver].
Qed.

Lemma le_refl g : le g g.
Proof. repeat split; auto using index_le_refl. Qed.

Lemma le_trans g1 g2 g3 : le g1 g2 → le g2 g3 → le g1 g3.
Proof.
  intros (Hn12 & Ho12 & Hi12) (Hn23 & Ho23 & Hi23).
  repeat split; eauto using index_le_trans. by etrans.
Qed.

Lemma le_lookup g g' k n :
  le g g' → Graph._nodes g !! k = Some n → Graph._nodes g' !! k = Some n.
Proof. intros (Hn & _) Hk. by eapply lookup_weaken. Qed.

Lemma le_has_edge g g' e : le g g' → has_edge g e → has_edge g' e.
Proof.
  intros (_ & Ho & _) (xs & Hk & He).
  destruct (Ho _ _ Hk) as (xs' & Hk' & Hs). exists xs'. split; [done | set_solver].
Qed.

Lemma le_has_in_edge g g' e : le g g' → has_in_edge g e → has_in_edge g' e.
Proof.
  intros (_ & _ & Hi) (xs & Hk & He).
  destruct (Hi _ _ Hk) as (xs' & Hk' & Hs). exists xs'. split; [done | set_solver].
Qed.

Lemma setdefault_le k d : index_le d (Graph.setdefault k ∅ d).
Proof.
  unfold Graph.setdefault. destruct (d !! k) eqn:Hk; [apply index_le_refl |].
  intros k' xs Hk'. exists xs. split; [| set_solver].
  rewrite lookup_insert_ne; [done | congruence].
Qed.

Lemma setdefault_is_Some k (v : gset Edge.t) d :
  is_Some (Graph.setdefault k v d !! k).
Proof.
  unfold Graph.setdefault. destruct (d !! k) eqn:Hk; [by rewrite Hk |].
  rewrite lookup_insert_eq. eauto.
Qed.

Lemma setdefault_is_Some_mono k k' (v : gset Edge.t) d :
  is_Some (d !! k') → is_Some (Graph.setdefault k v d !! k').
Proof.
  unfold Graph.setdefault. destruct (d !! k) eqn:Hk; [done |].
  intros Hs. rewrite lookup_insert_ne; [done |]. intros ->. rewrite Hk in Hs.
  by destruct Hs.
Qed.

Lemma add_at_le k e d d' : Graph.add_at k e d = Some d' → index_le d d'.
Proof.
  unfold Graph.add_at. destruct (d !! k) as [xs|] eqn:Hk; [| done].
  intros [= <-] k' xs' Hk'. destruct (decide (k = k')) as [<- | Hne].
  - rewrite lookup_insert_eq. exists ({[e]} ∪ xs). split; [done |].
    rewrite Hk in Hk'. set_solver.
  - rewrite lookup_insert_ne; [| done]. exists xs'. split; [done | set_solver].
Qed.

Lemma add_at_elem k e d d' :
  Graph.add_at k e d = Some d' → ∃ xs, d' !! k = Some xs ∧ e ∈ xs.
Proof.
  unfold Graph.add_at. destruct (d !! k) as [xs|] eqn:Hk; [| done].
  intros [= <-]. exists ({[e]} ∪ xs). rewrite lookup_insert_eq. split; [done | set_solver].
Qed.

Lemma add_at_other k e d d' k' :
  Graph.add_at k e d = Some d' → k ≠ k' → d' !! k' = d !! k'.
Proof.
  unfold Graph.add_at. destruct (d !! k) as [xs|] eqn:Hk; [| done].
  intros [= <-] Hne. by rewrite lookup_insert_ne.
Qed.

Lemma add_at_inv k e d d' k' xs' e' :
  Graph.add_at k e d = Some d' → d' !! k' = Some xs' → e' ∈ xs' →
  (k' = k ∧ e' = e) ∨ (∃ xs, d !! k' = Some xs ∧ e' ∈ xs).
Proof.
  unfold Graph.add_at. destruct (d !! k) as [xs|] eqn:Hk; [| done].
  intros [= <-]. destruct (decide (k = k')) as [<- | Hne].
  - rewrite lookup_insert_eq. intros [= <-] [->%elem_of_singleton | He]%elem_of_union.
    + by left.
    + right. eauto.
  - rewrite lookup_insert_ne; [| done]. intros Hk' He. right. eauto.
Qed.

(** Adding an element that is there changes nothing. *)
Lemma add_at_id k e d xs : d !! k = Some xs → e ∈ xs → Graph.add_at k e d = Some d.
Proof.
  intros Hk He. unfold Graph.add_at. rewrite Hk. f_equal.
  apply insert_id. rewrite Hk. f_equal.
  symmetry. by apply subseteq_union_1_L, singleton_subseteq_l.
Qed.

Lemma add_at_None k e d : d !! k = None → Graph.add_at k e d = None.
Proof. intros Hk. unfold Graph.add_at. by rewrite Hk. Qed.

Lemma add_at_is_Some k e d :
  is_Some (d !! k) → is_Some (Graph.add_at k e d).
Proof. intros [xs Hk]. unfold Graph.add_at. rewrite Hk. eauto. Qed.

End graph_store.

Section graph_calls.
Import GraphFacts.

Lemma upsert_node_le node g :
  Graph._nodes g !! Node.id node = None → le g (Graph.upsert_node node g).1.
Proof.
  intros Hk. repeat split; simpl; auto using setdefault_le.
  by apply insert_subseteq.
Qed.

Lemma ensure_node_returns node_id name kind meta g :
  ∃ n, (Graph.ensure_node node_id name kind meta g).2 = Returns n
       ∧ Graph._nodes (Graph.ensure_node node_id name kind meta g).1 !! node_id
         = Some n.
Proof.
  unfold Graph.ensure_node. destruct (Graph._nodes g !! node_id) as [n|] eqn:Hk.
  - exists n. by split.
  - eexists. split; [done |]. simpl. by rewrite lookup_insert_eq.
Qed.

Lemma ensure_node_present node_id name kind meta g n :
  Graph._nodes g !! node_id = Some n →
  Graph.ensure_node node_id name kind meta g = (g, Returns n).
Proof. intros Hk. unfold Graph.ensure_node. by rewrite Hk. Qed.

Lemma ensure_node_absent node_id name kind meta g :
  Graph._nodes g !! node_id = None →
  Graph.ensure_node node_id name kind meta g
  = Graph.upsert_node (Node.from_meta node_id name kind meta) g.
Proof. intros Hk. unfold Graph.ensure_node. by rewrite Hk. Qed.

Lemma ensure_node_le node_id name kind meta g :
  le g (Graph.ensure_node node_id name kind meta g).1.
Proof.
  destruct (Graph._nodes g !! node_id) as [n|] eqn:Hk.
  - rewrite (ensure_node_present _ _ _ _ _ _ Hk). apply le_refl.
  - rewrite (ensure_node_absent _ _ _ _ _ Hk). by apply upsert_node_le.
Qed.

Lemma ensure_node_other node_id name kind meta g k :
  k ≠ node_id →
  Graph._nodes (Graph.ensure_node node_id name kind meta g).1 !! k
  = Graph._nodes g !! k.
Proof.
  intros Hne. unfold Graph.ensure_node.
  destruct (Graph._nodes g !! node_id); [done |]. simpl.
  by rewrite lookup_insert_ne.
Qed.

Lemma ensure_node_wf node_id name kind meta g :
  wf g → wf (Graph.ensure_node node_id name kind meta g).1.
Proof.
  intros Hwf. unfold Graph.ensure_node.
  destruct (Graph._nodes g !! node_id) eqn:Hk; [done |]. simpl.
  intros k. destruct (decide (k = node_id)) as [-> | Hne]; simpl.
  - intros _. split; apply setdefault_is_Some.
  - rewrite lookup_insert_ne; [| done]. intros Hs%Hwf.
    split; apply setdefault_is_Some_mono; tauto.
Qed.

Lemma ensure_node_edges node_id name kind meta g e :
  has_edge (Graph.ensure_node node_id name kind meta g).1 e → has_edge g e.
Proof.
  unfold Graph.ensure_node, has_edge.
  destruct (Graph._nodes g !! node_id); [done |]. simpl.
  unfold Graph.setdefault.
  destruct (Graph._out_edges g !! node_id) eqn:Hk; [done |].
  intros (xs & Hxs & He).
  destruct (decide (node_id = Edge.source e)) as [-> | Hne].
  - rewrite lookup_insert_eq in Hxs. set_solver.
  - rewrite lookup_insert_ne in Hxs; eauto.
Qed.

Lemma add_edge_le edge g : le g (Graph.add_edge edge g).1.
Proof.
  unfold Graph.add_edge.
  destruct (Graph._nodes g !! Edge.source edge); [| apply le_refl].
  destruct (Graph._nodes g !! Edge.target edge); [| apply le_refl].
  destruct (Graph.add_at _ _ (Graph._out_edges g)) as [out|] eqn:Hout;
    [| apply le_refl]. simpl.
  destruct (Graph.add_at _ _ (Graph._in_edges g)) as [inc|] eqn:Hinc; simpl.
  - repeat split; simpl; eauto using add_at_le.
  - repeat split; simpl; eauto using add_at_le, index_le_refl.
Qed.

Lemma add_edge_nodes edge g :
  Graph._nodes (Graph.add_edge edge g).1 = Graph._nodes g.
Proof.
  unfold Graph.add_edge.
  destruct (Graph._nodes g !! Edge.source edge); [| done].
  destruct (Graph._nodes g !! Edge.target edge); [| done].
  destruct (Graph.add_at _ _ (Graph._out_edges g)); [| done]. simpl.
  by destruct (Graph.add_at _ _ (Graph._in_edges g)).
Qed.

Lemma add_edge_wf edge g : wf g → wf (Graph.add_edge edge g).1.
Proof.
  intros Hwf k Hk. rewrite add_edge_nodes in Hk. apply Hwf in Hk as [Ho Hi].
  destruct (add_edge_le edge g) as (_ & Hout & Hinc).
  destruct Ho as [xs Ho], Hi as [ys Hi].
  destruct (Hout _ _ Ho) as (? & -> & _). destruct (Hinc _ _ Hi) as (? & -> & _).
  eauto.
Qed.

(** On a graph that has both endpoints and their adjacency entries,
    [add_edge] returns and the edge is in both indexes. *)
Lemma add_edge_returns edge g :
  wf g →
  is_Some (Graph._nodes g !! Edge.source edge) →
  is_Some (Graph._nodes g !! Edge.target edge) →
  (Graph.add_edge edge g).2 = Returns edge
  ∧ has_edge (Graph.add_edge edge g).1 edge
  ∧ has_in_edge (Graph.add_edge edge g).1 edge.
Proof.
  intros Hwf Hs Ht. unfold Graph.add_edge.
  destruct (Hwf _ Hs) as [Hos _]. destruct (Hwf _ Ht) as [_ Hit].
  destruct Hs as [? ->], Ht as [? ->].
  destruct (add_at_is_Some _ edge _ Hos) as [out Hout]. rewrite Hout. simpl.
  destruct (add_at_is_Some _ edge _ Hit) as [inc Hinc]. rewrite Hinc. simpl.
  split; [done |]. split.
  - by apply add_at_elem in Hout.
  - by apply add_at_elem in Hinc.
Qed.

(** An edge stored after [add_edge] is the edge added or was stored before. *)
Lemma add_edge_edges edge g e :
  has_edge (Graph.add_edge edge g).1 e → e = edge ∨ has_edge g e.
Proof.
  unfold Graph.add_edge, has_edge.
  destruct (Graph._nodes g !! Edge.source edge); [| by right].
  destruct (Graph._nodes g !! Edge.target edge); [| by right].
  destruct (Graph.add_at _ _ (Graph._out_edges g)) as [out|] eqn:Hout;
    [| by right]. simpl.
  assert (∀ xs, out !! Edge.source e = Some xs → e ∈ xs →
                e = edge ∨ ∃ xs0, Graph._out_edges g !! Edge.source e = Some xs0
                                  ∧ e ∈ xs0) as Hinv.
  { intros xs Hxs He.
    destruct (add_at_inv _ _ _ _ _ _ _ Hout Hxs He) as [[_ ->] | ?]; auto. }
  destruct (Graph.add_at _ _ (Graph._in_edges g)); simpl;
    intros (xs & Hxs & He); eauto.
Qed.

End graph_calls.

(** ** Calls that settle *)

Section settling.
Import GraphFacts.

Lemma settles_ret {A} (a : A) : settles (ret a).
Proof. intros g. split; [apply le_refl | done]. Qed.

Lemma settles_raise {A} e : settles (raise (A := A) e).
Proof. intros g. split; [apply le_refl | done]. Qed.

Lemma settles_bind {A B} (m : M Graph.t A) (f : A → M Graph.t B) :
  settles m → (∀ a, settles (f a)) → settles (bind m f).
Proof.
  intros Hm Hf g. unfold bind. destruct (Hm g) as [Hle Hm'].
  destruct (m g) as [g1 [a | e]] eqn:Hmg; simpl in *.
  - destruct (Hf a g1) as [Hle' Hf'].
    destruct (f a g1) as [g2 [b | e]] eqn:Hfg; simpl in *.
    + split; [by eapply le_trans |]. intros g' Hg'.
      rewrite (Hm' g'); [| by eapply le_trans]. by apply Hf'.
    + split; [by eapply le_trans |]. by rewrite (Hm' g2 Hle').
  - split; [done |]. by rewrite Hm'.
Qed.

Lemma settles_for {X} (xs : list X) (body : X → M Graph.t unit) :
  (∀ x, settles (body x)) → settles (for_ xs body).
Proof.
  intros Hbody. induction xs as [| x xs IH]; simpl.
  - apply settles_ret.
  - apply settles_bind; auto.
Qed.

Lemma settles_for_match pats line body :
  (∀ m, settles (body m)) → settles (HeuristicExtractor.for_match pats line body).
Proof.
  intros Hbody. induction pats as [| pat pats IH]; simpl.
  - apply settles_ret.
  - destruct (Re.match_ pat line); auto.
Qed.

Lemma settles_ensure_node node_id name kind meta :
  settles (Graph.ensure_node node_id name kind meta).
Proof.
  intros g. split; [apply ensure_node_le |].
  destruct (ensure_node_returns node_id name kind meta g) as (n & -> & Hn).
  intros g' Hg'. apply ensure_node_present. by eapply le_lookup.
Qed.

Lemma settles_add_edge edge : settles (Graph.add_edge edge).
Proof.
  intros g. split; [apply add_edge_le |].
  unfold Graph.add_edge.
  destruct (Graph._nodes g !! Edge.source edge) as [ns|] eqn:Hs; simpl;
    [| by rewrite Hs].
  destruct (Graph._nodes g !! Edge.target edge) as [nt|] eqn:Ht; simpl;
    [| by rewrite Hs, Ht].
  destruct (Graph.add_at _ _ (Graph._out_edges g)) as [out|] eqn:Hout; simpl;
    [| by rewrite Hs, Ht, Hout].
  destruct (add_at_elem _ _ _ _ Hout) as (xs & Hxs & He).
  destruct (Graph.add_at _ _ (Graph._in_edges g)) as [inc|] eqn:Hinc; simpl.
  - intros g' (Hn & Ho & Hi); simpl in *.
    rewrite (lookup_weaken _ _ _ _ Hs Hn), (lookup_weaken _ _ _ _ Ht Hn).
    destruct (Ho _ _ Hxs) as (xs' & Hxs' & Hsub).
    rewrite (add_at_id _ edge _ xs'); [| done | set_solver]. simpl.
    destruct (add_at_elem _ _ _ _ Hinc) as (ys & Hys & He').
    destruct (Hi _ _ Hys) as (ys' & Hys' & Hsub').
    rewrite (add_at_id _ edge _ ys'); [| done | set_solver].
    by destruct g'.
  - rewrite Hs, Ht. rewrite (add_at_id _ edge _ xs); [| done | done]. simpl.
    by rewrite Hinc.
Qed.

Lemma settles_connect source_id target_id kind meta :
  settles (Graph.connect source_id target_id kind meta).
Proof. apply settles_add_edge. Qed.

End settling.

Ltac settle :=
  repeat first
    [ apply settles_bind; [| intros ?]
    | apply settles_for; intros ?
    | apply settles_for_match; intros ?
    | apply settles_ensure_node
    | apply settles_connect
    | apply settles_ret
    | apply settles_raise
    | match goal with
      | |- GraphFacts.settles (match ?x with _ => _ end) => destruct x
      | |- GraphFacts.settles (let _ := _ in _) => cbv zeta
      end ].

Section settling_extract.
Import GraphFacts.

Lemma settles_import_at file_id line m :
  settles (HeuristicExtractor.import_at file_id line m).
Proof. unfold HeuristicExtractor.import_at. settle. Qed.

Lemma settles_definition_at file_path file_id idx line :
  settles (HeuristicExtractor.definition_at file_path file_id idx line).
Proof. unfold HeuristicExtractor.definition_at. settle. Qed.

Lemma settles_declaration_at file_path file_id idx line :
  settles (HeuristicExtractor.declaration_at file_path file_id idx line).
Proof. unfold HeuristicExtractor.declaration_at. settle. Qed.

Lemma settles_call_at file_id idx line m :
  settles (HeuristicExtractor.call_at file_id idx line m).
Proof. unfold HeuristicExtractor.call_at. settle. Qed.

Lemma settles_resource_at file_id idx line res :
  settles (HeuristicExtractor.resource_at file_id idx line res).
Proof. unfold HeuristicExtractor.resource_at. settle. Qed.

Lemma settles_extract file_path text :
  settles (HeuristicExtractor.extract file_path text).
Proof.
  unfold HeuristicExtractor.extract.
  repeat first
    [ apply settles_import_at | apply settles_definition_at
    | apply settles_declaration_at | apply settles_call_at
    | apply settles_resource_at | progress settle ].
Qed.

End settling_extract.

(** ** Reasoning along a sequence of calls *)

Section call_sequences.
Import GraphFacts.

Lemma settles_grows {A} (m : M Graph.t A) : settles m → grows m.
Proof. intros Hm g. apply Hm. Qed.

Lemma bind_returns_inv {A B} (m : M Graph.t A) (f : A → M Graph.t B) g g' b :
  bind m f g = (g', Returns b) →
  ∃ a g1, m g = (g1, Returns a) ∧ f a g1 = (g', Returns b).
Proof.
  unfold bind. destruct (m g) as [g1 [a | e]]; [| done]. eauto.
Qed.

(** When a loop returns, each of its turns was taken and returned, between
    the graph before the loop and the graph after it. *)
Lemma for_returns_inv {X} (xs : list X) (body : X → M Graph.t unit) g g' x :
  (∀ y, grows (body y)) →
  for_ xs body g = (g', Returns tt) → x ∈ xs →
  ∃ ga gb, le g ga ∧ body x ga = (gb, Returns tt) ∧ le gb g'.
Proof.
  intros Hgrows. revert g. induction xs as [| y ys IH]; intros g Hrun Hx.
  - by apply elem_of_nil in Hx.
  - simpl in Hrun. apply bind_returns_inv in Hrun as ([] & g1 & Hy & Hrest).
    assert (le g g1) as Hg1. { specialize (Hgrows y g). by rewrite Hy in Hgrows. }
    apply elem_of_cons in Hx as [-> | Hx].
    + exists g, g1. split; [apply le_refl |]. split; [done |].
      assert (grows (for_ ys body)) as Hfor.
      { clear -Hgrows. intros g0. revert g0.
        induction ys as [| z zs IHz]; intros g0; simpl; [apply le_refl |].
        unfold bind. specialize (Hgrows z g0).
        destruct (body z g0) as [g2 [[] | e]]; simpl in *; [| done].
        eapply le_trans; [done | apply IHz]. }
      specialize (Hfor g1). by rewrite Hrest in Hfor.
    + destruct (IH g1 Hrest Hx) as (ga & gb & Hga & Hbody & Hgb).
      exists ga, gb. split; [by eapply le_trans | done].
Qed.

Lemma for_match_first pats line body :
  HeuristicExtractor.for_match pats line body
  = match HeuristicExtractor.first_match pats line with
    | Some m => body m
    | None => ret tt
    end.
Proof.
  induction pats as [| pat pats IH]; simpl; [done |].
  by destruct (Re.match_ pat line).
Qed.

Lemma preserves_ret {A} I (a : A) : preserves I (ret a).
Proof. by intros g. Qed.

Lemma preserves_raise {A} I e : preserves I (raise (A := A) e).
Proof. by intros g. Qed.

Lemma preserves_bind {A B} I (m : M Graph.t A) (f : A → M Graph.t B) :
  preserves I m → (∀ a, preserves I (f a)) → preserves I (bind m f).
Proof.
  intros Hm Hf g Hg. unfold bind. specialize (Hm g Hg).
  destruct (m g) as [g1 [a | e]]; simpl in *; [| done]. by apply Hf.
Qed.

Lemma preserves_for {X} I (xs : list X) (body : X → M Graph.t unit) :
  (∀ x, x ∈ xs → preserves I (body x)) → preserves I (for_ xs body).
Proof.
  induction xs as [| x xs IH]; intros Hbody; simpl.
  - apply preserves_ret.
  - apply preserves_bind.
    + apply Hbody. by left.
    + intros _. apply IH. intros y Hy. apply Hbody. by right.
Qed.

Lemma preserves_for_match I pats line body :
  (∀ m, preserves I (body m)) →
  preserves I (HeuristicExtractor.for_match pats line body).
Proof.
  intros Hbody. rewrite for_match_first.
  destruct (HeuristicExtractor.first_match pats line); [done | apply preserves_ret].
Qed.

Lemma guarded_ret {A} allowed known (a : A) : guarded allowed known (ret a).
Proof. intros g Hwf _. by split. Qed.

Lemma guarded_raise {A} (allowed : exn → Prop) known e :
  allowed e → guarded allowed known (raise (A := A) e).
Proof. intros He g Hwf _. split; [done |]. by intros e' [= <-]. Qed.

Lemma guarded_bind {A B} allowed known (m : M Graph.t A) (f : A → M Graph.t B) :
  guarded allowed known m → grows m → (∀ a, guarded allowed known (f a)) →
  guarded allowed known (bind m f).
Proof.
  intros Hm Hgrows Hf g Hwf Hknown. unfold bind.
  destruct (Hm g Hwf Hknown) as [Hwf1 Hno]. specialize (Hgrows g).
  destruct (m g) as [g1 [a | e]]; simpl in *.
  - apply Hf; [done |]. intros k [n Hk]%Hknown. exists n. by eapply le_lookup.
  - split; [done |]. intros e' [= <-]. by apply Hno.
Qed.

(** After [ensure_node], the node is one more that is known to be there. *)
Lemma guarded_ensure_bind {B} allowed known node_id name kind meta
    (f : Node.t → M Graph.t B) :
  (∀ n, guarded allowed (node_id :: known) (f n)) →
  guarded allowed known (bind (Graph.ensure_node node_id name kind meta) f).
Proof.
  intros Hf g Hwf Hknown. unfold bind.
  destruct (ensure_node_returns node_id name kind meta g) as (n & Hret & Hn).
  pose proof (ensure_node_wf node_id name kind meta g Hwf) as Hwf1.
  pose proof (ensure_node_le node_id name kind meta g) as Hle.
  destruct (Graph.ensure_node node_id name kind meta g) as [g1 r]; simpl in *.
  subst r. apply Hf; [done |].
  intros k [-> | Hk]%elem_of_cons; [eauto |].
  destruct (Hknown k Hk) as [n' Hn']. exists n'. by eapply le_lookup.
Qed.

Lemma guarded_ensure_node allowed known node_id name kind meta :
  guarded allowed known (Graph.ensure_node node_id name kind meta).
Proof.
  intros g Hwf _. split; [by apply ensure_node_wf |].
  destruct (ensure_node_returns node_id name kind meta g) as (n & -> & _). done.
Qed.

(** With both endpoints known to be there, [connect] returns. *)
Lemma guarded_connect allowed known source_id target_id kind meta :
  source_id ∈ known → target_id ∈ known →
  guarded allowed known (Graph.connect source_id target_id kind meta).
Proof.
  intros Hs Ht g Hwf Hknown. unfold Graph.connect.
  split; [by apply add_edge_wf |].
  destruct (add_edge_returns (Edge.from_meta source_id target_id kind meta) g)
    as (-> & _); auto. done.
Qed.

Lemma guarded_for {X} allowed known (xs : list X) (body : X → M Graph.t unit) :
  (∀ x, x ∈ xs → guarded allowed known (body x)) → (∀ x, grows (body x)) →
  guarded allowed known (for_ xs body).
Proof.
  intros Hbody Hgrows. induction xs as [| x xs IH]; simpl.
  - apply guarded_ret.
  - apply guarded_bind; [apply Hbody; by left | done |].
    intros _. apply IH. intros y Hy. apply Hbody. by right.
Qed.

Lemma guarded_for_match allowed known pats line body :
  (∀ m, HeuristicExtractor.first_match pats line = Some m →
        guarded allowed known (body m)) →
  guarded allowed known (HeuristicExtractor.for_match pats line body).
Proof.
  intros Hbody. rewrite for_match_first.
  destruct (HeuristicExtractor.first_match pats line); [by apply Hbody |].
  apply guarded_ret.
Qed.

End call_sequences.

(** ** What the extractor can raise *)

Ltac guard_calls :=
  repeat first
    [ apply guarded_ensure_bind; intros ?
    | apply guarded_connect;
        solve [repeat first [apply list_elem_of_here | apply list_elem_of_further]]
    | apply guarded_ret
    | apply guarded_for_match; intros ? _
    | apply guarded_bind; [| apply settles_grows; settle | intros ?]
    | match goal with
      | |- GraphFacts.guarded _ _ (match ?x with _ => _ end) => destruct x
      | |- GraphFacts.guarded _ _ (let _ := _ in _) => cbv zeta
      end ].

Section extract_guarded.
Import GraphFacts.
Variable allowed : exn → Prop.

(** The one [raise] of the extractor: the subscript [[0]] of an empty
    [target_raw.split()]. *)
Lemma guarded_import_at file_id line m :
  (Py.split (Py.strip_chars ";{}()" (Py.strip (Re.group1 line m))) = [] →
   allowed (IndexError "list index out of range")) →
  guarded allowed [file_id] (HeuristicExtractor.import_at file_id line m).
Proof.
  intros Hempty. unfold HeuristicExtractor.import_at. cbv zeta.
  destruct (Py.split _); [by apply guarded_raise, Hempty |]. guard_calls.
Qed.

Lemma guarded_definition_at file_path file_id idx line :
  guarded allowed [file_id]
    (HeuristicExtractor.definition_at file_path file_id idx line).
Proof. unfold HeuristicExtractor.definition_at. guard_calls. Qed.

Lemma guarded_declaration_at file_path file_id idx line :
  guarded allowed [file_id]
    (HeuristicExtractor.declaration_at file_path file_id idx line).
Proof. unfold HeuristicExtractor.declaration_at. guard_calls. Qed.

Lemma guarded_call_at file_id idx line m :
  guarded allowed [file_id] (HeuristicExtractor.call_at file_id idx line m).
Proof. unfold HeuristicExtractor.call_at. guard_calls. Qed.

Lemma guarded_resource_at file_id idx line res :
  guarded allowed [file_id] (HeuristicExtractor.resource_at file_id idx line res).
Proof. unfold HeuristicExtractor.resource_at. guard_calls. Qed.

Lemma guarded_extract file_path text :
  (∀ line m,
     line ∈ Py.splitlines text →
     HeuristicExtractor.first_match HeuristicExtractor.IMPORT_PATTERNS line
     = Some m →
     Py.split (Py.strip_chars ";{}()" (Py.strip (Re.group1 line m))) = [] →
     allowed (IndexError "list index out of range")) →
  guarded allowed [] (HeuristicExtractor.extract file_path text).
Proof.
  intros Himport. unfold HeuristicExtractor.extract.
  apply guarded_ensure_bind; intros _. cbv zeta.
  apply guarded_bind; [| apply settles_grows; settle; apply settles_import_at
                       | intros _].
  { apply guarded_for.
    - intros line Hline. apply guarded_for_match. intros m Hm.
      apply guarded_import_at. eauto.
    - intros line. apply settles_grows, settles_for_match.
      intros m. apply settles_import_at. }
  apply guarded_bind; [| apply settles_grows, settles_for; intros ?;
                         apply settles_definition_at | intros _].
  { apply guarded_for; [intros il _; apply guarded_definition_at |].
    intros il. apply settles_grows, settles_definition_at. }
  apply guarded_bind; [| apply settles_grows, settles_for; intros ?;
                         apply settles_declaration_at | intros _].
  { apply guarded_for; [intros il _; apply guarded_declaration_at |].
    intros il. apply settles_grows, settles_declaration_at. }
  assert (∀ il : nat * string,
            settles
              (for_ (Re.finditer HeuristicExtractor.CALL_PATTERN il.2)
                 (HeuristicExtractor.call_at
                    (Graph.node_id_for_file file_path) il.1 il.2) ;;;
               for_ (Re.finditer HeuristicExtractor.RESOURCE_PATTERN il.2)
                 (HeuristicExtractor.resource_at
                    (Graph.node_id_for_file file_path) il.1 il.2))) as Hsettles.
  { intros il. apply settles_bind; [| intros _]; apply settles_for; intros ?;
      [apply settles_call_at | apply settles_resource_at]. }
  apply guarded_for; [| intros il; apply settles_grows, Hsettles].
  intros il _. apply guarded_bind; [| | intros _].
  - apply guarded_for; [intros m _; apply guarded_call_at |].
    intros m. apply settles_grows, settles_call_at.
  - apply settles_grows, settles_for. intros m. apply settles_call_at.
  - apply guarded_for; [intros m _; apply guarded_resource_at |].
    intros m. apply settles_grows, settles_resource_at.
Qed.

End extract_guarded.

Section extract_outcomes.
Import GraphFacts.

Lemma wf_new : wf Graph.new.
Proof. intros k [n Hn]. simpl in Hn. by rewrite lookup_empty in Hn. Qed.

Lemma extract_wf file_path text g :
  wf g → wf (HeuristicExtractor.extract file_path text g).1.
Proof.
  intros Hwf.
  apply (guarded_extract (fun _ => True) file_path text (fun _ _ _ _ _ => I) g Hwf).
  intros k Hk. by apply elem_of_nil in Hk.
Qed.

(** On a graph built through the methods of [Graph], the empty one included,
    the only exception that [extract] raises is the [IndexError] of the import
    loop. *)
Lemma extract_raises_only_IndexError file_path text g e :
  wf g → (HeuristicExtractor.extract file_path text g).2 = Raises e →
  e = IndexError "list index out of range".
Proof.
  intros Hwf.
  apply (guarded_extract (fun e => e = IndexError "list index out of range")
           file_path text (fun _ _ _ _ _ => eq_refl) g Hwf).
  intros k Hk. by apply elem_of_nil in Hk.
Qed.

(** Every connect of [extract] has both its endpoints ensured before it: on
    such a graph [extract] raises no [KeyError], so never the structural error
    of [add_edge]. *)
Lemma extract_never_KeyError file_path text g arg :
  wf g → (HeuristicExtractor.extract file_path text g).2 ≠ Raises (KeyError arg).
Proof.
  intros Hwf Hraise. by apply extract_raises_only_IndexError in Hraise.
Qed.

(** [extract] returns when no import line is left without a target. *)
Lemma extract_returns file_path text g :
  wf g →
  (∀ line m,
     line ∈ Py.splitlines text →
     HeuristicExtractor.first_match HeuristicExtractor.IMPORT_PATTERNS line
     = Some m →
     Py.split (Py.strip_chars ";{}()" (Py.strip (Re.group1 line m))) ≠ []) →
  (HeuristicExtractor.extract file_path text g).2 = Returns tt.
Proof.
  intros Hwf Himport.
  destruct (guarded_extract (fun _ => False) file_path text) with (g := g)
    as [_ Hno]; [by eauto | done | |].
  { intros k Hk. by apply elem_of_nil in Hk. }
  destruct (HeuristicExtractor.extract file_path text g).2 as [[] | e]; [done |].
  by destruct (Hno e).
Qed.

End extract_outcomes.

(** ** Where the nodes and the edges of an extraction come from *)

Ltac keep_with ensure_tac connect_tac :=
  repeat first
    [ apply preserves_ret
    | apply preserves_raise
    | ensure_tac
    | connect_tac
    | apply preserves_for_match; intros ?
    | apply preserves_bind; [| intros ?]
    | match goal with
      | |- GraphFacts.preserves _ (match ?x with _ => _ end) => destruct x
      | |- GraphFacts.preserves _ (let _ := _ in _) => cbv zeta
      end ].

Section extraction_invariants.
Import GraphFacts.

Lemma str_inj n n' : Py.str n = Py.str n' → n = n'.
Proof.
  unfold Py.str. intros H.
  assert (∀ k, Nat.to_uint k ≠ Decimal.Nil) as Hnn.
  { intros k Hk. pose proof (DecimalNat.Unsigned.of_to k) as Hof.
    rewrite Hk in Hof. simpl in Hof. subst k. discriminate Hk. }
  apply DecimalNat.Unsigned.to_uint_inj.
  apply (f_equal NilZero.uint_of_string) in H.
  rewrite !NilZero.usu in H by apply Hnn. congruence.
Qed.

Lemma enumerate_lookup {X} (xs : list X) start i x :
  (i, x) ∈ enumerate start xs → start ≤ i ∧ xs !! (i - start) = Some x.
Proof.
  revert start. induction xs as [| y ys IH]; intros start Hin; simpl in Hin.
  - by apply elem_of_nil in Hin.
  - apply elem_of_cons in Hin as [[= -> ->] | Hin].
    + split; [lia |]. by rewrite Nat.sub_diag.
    + apply IH in Hin as [Hle Hl]. split; [lia |].
      replace (i - start) with (S (i - S start)) by lia. done.
Qed.

Lemma enumerate_functional {X} (xs : list X) start i x x' :
  (i, x) ∈ enumerate start xs → (i, x') ∈ enumerate start xs → x = x'.
Proof.
  intros [_ H]%enumerate_lookup [_ H']%enumerate_lookup. congruence.
Qed.

Lemma verbs_disjoint v :
  v ∈ HeuristicExtractor.WRITE_VERBS → v ∈ HeuristicExtractor.READ_VERBS → False.
Proof.
  unfold HeuristicExtractor.WRITE_VERBS, HeuristicExtractor.READ_VERBS.
  rewrite !elem_of_union, !elem_of_singleton.
  intros Hw Hr. destruct_or!; by simplify_eq.
Qed.

Lemma add_edge_returns_inv edge g g' x :
  Graph.add_edge edge g = (g', Returns x) → has_edge g' edge.
Proof.
  unfold Graph.add_edge, has_edge.
  destruct (Graph._nodes g !! Edge.source edge); [| done].
  destruct (Graph._nodes g !! Edge.target edge); [| done].
  destruct (Graph.add_at _ _ (Graph._out_edges g)) as [out|] eqn:Hout; [| done].
  simpl. destruct (Graph.add_at _ _ (Graph._in_edges g)); [| done].
  intros [= <- _]. simpl. by eapply add_at_elem.
Qed.

(** *** WRITES and READS edges *)

Lemma verb_edges_ensure_node file_path text node_id name kind meta :
  preserves (verb_edges_ok file_path text)
    (Graph.ensure_node node_id name kind meta).
Proof.
  intros g HK e He Hkind. apply HK; [by eapply ensure_node_edges | done].
Qed.

Lemma verb_edges_connect_other file_path text source_id target_id kind meta :
  kind ≠ WRITES → kind ≠ READS →
  preserves (verb_edges_ok file_path text)
    (Graph.connect source_id target_id kind meta).
Proof.
  intros Hw Hr g HK e He Hkind.
  apply add_edge_edges in He as [-> | He]; [| by apply HK].
  simpl in Hkind. destruct Hkind; congruence.
Qed.

Lemma verb_edges_connect_verb file_path text idx line res kind :
  (idx, line) ∈ enumerate 1 (Py.splitlines text) →
  res ∈ Re.finditer HeuristicExtractor.RESOURCE_PATTERN line →
  HeuristicExtractor.verb_of line ∈ verbs_of kind →
  preserves (verb_edges_ok file_path text)
    (Graph.connect (Graph.node_id_for_file file_path)
       ("resource:" +:+ Re.group1 line res) kind (Some [("line", Py.str idx)])).
Proof.
  intros Hin Hres Hverb g HK e He Hkind.
  apply add_edge_edges in He as [-> | He]; [| by apply HK].
  exists idx, line, res. done.
Qed.

Ltac keep_verb_edges :=
  keep_with ltac:(apply verb_edges_ensure_node)
            ltac:(apply verb_edges_connect_other; discriminate).

Lemma verb_edges_import_at file_path text file_id line m :
  preserves (verb_edges_ok file_path text)
    (HeuristicExtractor.import_at file_id line m).
Proof. unfold HeuristicExtractor.import_at. keep_verb_edges. Qed.

Lemma verb_edges_definition_at file_path text file_id idx line :
  preserves (verb_edges_ok file_path text)
    (HeuristicExtractor.definition_at file_path file_id idx line).
Proof. unfold HeuristicExtractor.definition_at. keep_verb_edges. Qed.

Lemma verb_edges_declaration_at file_path text file_id idx line :
  preserves (verb_edges_ok file_path text)
    (HeuristicExtractor.declaration_at file_path file_id idx line).
Proof. unfold HeuristicExtractor.declaration_at. keep_verb_edges. Qed.

Lemma verb_edges_call_at file_path text file_id idx line m :
  preserves (verb_edges_ok file_path text)
    (HeuristicExtractor.call_at file_id idx line m).
Proof. unfold HeuristicExtractor.call_at. keep_verb_edges. Qed.

Lemma verb_edges_resource_at file_path text idx line res :
  (idx, line) ∈ enumerate 1 (Py.splitlines text) →
  res ∈ Re.finditer HeuristicExtractor.RESOURCE_PATTERN line →
  preserves (verb_edges_ok file_path text)
    (HeuristicExtractor.resource_at (Graph.node_id_for_file file_path)
       idx line res).
Proof.
  intros Hin Hres. unfold HeuristicExtractor.resource_at.
  apply preserves_bind; [apply verb_edges_ensure_node | intros _]. cbv zeta.
  destruct (decide (_ ∈ HeuristicExtractor.WRITE_VERBS)) as [Hw | _].
  { apply preserves_bind; [| intros _; apply preserves_ret].
    by apply verb_edges_connect_verb. }
  destruct (decide (_ ∈ HeuristicExtractor.READ_VERBS)) as [Hr | _].
  { apply preserves_bind; [| intros _; apply preserves_ret].
    by apply verb_edges_connect_verb. }
  apply preserves_ret.
Qed.

Lemma verb_edges_extract file_path text :
  preserves (verb_edges_ok file_path text)
    (HeuristicExtractor.extract file_path text).
Proof.
  unfold HeuristicExtractor.extract.
  apply preserves_bind; [apply verb_edges_ensure_node | intros _]. cbv zeta.
  apply preserves_bind; [| intros _].
  { apply preserves_for; intros line _.
    apply preserves_for_match; intros m. apply verb_edges_import_at. }
  apply preserves_bind; [| intros _].
  { apply preserves_for; intros il _. apply verb_edges_definition_at. }
  apply preserves_bind; [| intros _].
  { apply preserves_for; intros il _. apply verb_edges_declaration_at. }
  apply preserves_for; intros [idx line] Hin. simpl.
  apply preserves_bind; [| intros _].
  { apply preserves_for; intros m _. apply verb_edges_call_at. }
  apply preserves_for; intros res Hres. by apply verb_edges_resource_at.
Qed.

Lemma verb_edges_new file_path text : verb_edges_ok file_path text Graph.new.
Proof. intros e (xs & Hxs & _). simpl in Hxs. by rewrite lookup_empty in Hxs. Qed.

(** *** Resource nodes *)

Lemma resource_nodes_connect source_id target_id kind meta :
  preserves resource_nodes_ok (Graph.connect source_id target_id kind meta).
Proof.
  intros g HJ r n. unfold Graph.connect. rewrite add_edge_nodes. apply HJ.
Qed.

Lemma resource_nodes_ensure_other node_id name kind meta :
  (∀ r, node_id ≠ "resource:" +:+ r) →
  preserves resource_nodes_ok (Graph.ensure_node node_id name kind meta).
Proof.
  intros Hne g HJ r n. rewrite ensure_node_other; [apply HJ | by apply not_eq_sym].
Qed.

Lemma resource_nodes_ensure_resource r :
  preserves resource_nodes_ok
    (Graph.ensure_node ("resource:" +:+ r) r RESOURCE None).
Proof.
  intros g HJ r' n.
  destruct (decide ("resource:" +:+ r' = "resource:" +:+ r)) as [Heq | Hne].
  - rewrite Heq. apply (inj (String.app _)) in Heq as ->.
    destruct (Graph._nodes g !! ("resource:" +:+ r)) as [n0|] eqn:Hk.
    + rewrite (ensure_node_present _ _ _ _ _ _ Hk). simpl. rewrite Hk.
      intros [= <-]. by apply HJ.
    + rewrite (ensure_node_absent _ _ _ _ _ Hk). simpl.
      rewrite lookup_insert_eq. by intros [= <-].
  - rewrite ensure_node_other; [apply HJ | done].
Qed.

Ltac keep_resource_nodes :=
  keep_with
    ltac:(apply resource_nodes_ensure_other;
          let r := fresh in let H := fresh in
          intros r H; unfold Graph.node_id_for_symbol, Graph.node_id_for_file in H;
          discriminate H)
    ltac:(apply resource_nodes_connect).

Lemma resource_nodes_import_at file_path line m :
  preserves resource_nodes_ok
    (HeuristicExtractor.import_at (Graph.node_id_for_file file_path) line m).
Proof. unfold HeuristicExtractor.import_at. keep_resource_nodes. Qed.

Lemma resource_nodes_definition_at file_path idx line :
  preserves resource_nodes_ok
    (HeuristicExtractor.definition_at file_path
       (Graph.node_id_for_file file_path) idx line).
Proof. unfold HeuristicExtractor.definition_at. keep_resource_nodes. Qed.

Lemma resource_nodes_declaration_at file_path idx line :
  preserves resource_nodes_ok
    (HeuristicExtractor.declaration_at file_path
       (Graph.node_id_for_file file_path) idx line).
Proof. unfold HeuristicExtractor.declaration_at. keep_resource_nodes. Qed.

Lemma resource_nodes_call_at file_path idx line m :
  preserves resource_nodes_ok
    (HeuristicExtractor.call_at (Graph.node_id_for_file file_path) idx line m).
Proof. unfold HeuristicExtractor.call_at. keep_resource_nodes. Qed.

Lemma resource_nodes_resource_at file_path idx line res :
  preserves resource_nodes_ok
    (HeuristicExtractor.resource_at (Graph.node_id_for_file file_path)
       idx line res).
Proof.
  unfold HeuristicExtractor.resource_at.
  apply preserves_bind; [apply resource_nodes_ensure_resource | intros _].
  keep_resource_nodes.
Qed.

Lemma resource_nodes_extract file_path text :
  preserves resource_nodes_ok (HeuristicExtractor.extract file_path text).
Proof.
  unfold HeuristicExtractor.extract.
  apply preserves_bind; [| intros _].
  { apply resource_nodes_ensure_other. intros r H. discriminate H. }
  cbv zeta.
  apply preserves_bind; [| intros _].
  { apply preserves_for; intros line _.
    apply preserves_for_match; intros m. apply resource_nodes_import_at. }
  apply preserves_bind; [| intros _].
  { apply preserves_for; intros il _. apply resource_nodes_definition_at. }
  apply preserves_bind; [| intros _].
  { apply preserves_for; intros il _. apply resource_nodes_declaration_at. }
  apply preserves_for; intros il _.
  apply preserves_bind; [| intros _].
  { apply preserves_for; intros m _. apply resource_nodes_call_at. }
  apply preserves_for; intros res _. apply resource_nodes_resource_at.
Qed.

Lemma resource_nodes_new : resource_nodes_ok Graph.new.
Proof. intros r n Hn. simpl in Hn. by rewrite lookup_empty in Hn. Qed.

(** *** What a resource of a line leaves when the extraction returns *)

Lemma resource_at_returns_inv file_id idx line res g g' :
  HeuristicExtractor.resource_at file_id idx line res g = (g', Returns tt) →
  is_Some (Graph._nodes g' !! ("resource:" +:+ Re.group1 line res))
  ∧ ∀ kind, HeuristicExtractor.verb_of line ∈ verbs_of kind →
      has_edge g' (Edge.mk file_id ("resource:" +:+ Re.group1 line res) kind
                     [("line", Py.str idx)]).
Proof.
  unfold HeuristicExtractor.resource_at. intros Hrun.
  apply bind_returns_inv in Hrun as (n & g1 & Hensure & Hrest). cbv zeta in Hrest.
  assert (is_Some (Graph._nodes g1 !! ("resource:" +:+ Re.group1 line res))) as Hn1.
  { destruct (ensure_node_returns ("resource:" +:+ Re.group1 line res)
                (Re.group1 line res) RESOURCE None g) as (n' & _ & Hn').
    rewrite Hensure in Hn'. eauto. }
  destruct (decide (_ ∈ HeuristicExtractor.WRITE_VERBS)) as [Hw | Hw].
  - apply bind_returns_inv in Hrest as (e & g2 & Hadd & [= <-]).
    split.
    + pose proof (add_edge_nodes
                    (Edge.from_meta file_id ("resource:" +:+ Re.group1 line res)
                       WRITES (Some [("line", Py.str idx)])) g1) as Hnodes.
      unfold Graph.connect in Hadd. rewrite Hadd in Hnodes. simpl in Hnodes.
      by rewrite Hnodes.
    + intros kind Hkind. destruct kind; simpl in Hkind;
        try (by apply elem_of_empty in Hkind).
      * by destruct (verbs_disjoint _ Hw Hkind).
      * by apply add_edge_returns_inv in Hadd.
  - destruct (decide (_ ∈ HeuristicExtractor.READ_VERBS)) as [Hr | Hr].
    + apply bind_returns_inv in Hrest as (e & g2 & Hadd & [= <-]).
      split.
      * pose proof (add_edge_nodes
                      (Edge.from_meta file_id ("resource:" +:+ Re.group1 line res)
                         READS (Some [("line", Py.str idx)])) g1) as Hnodes.
        unfold Graph.connect in Hadd. rewrite Hadd in Hnodes. simpl in Hnodes.
        by rewrite Hnodes.
      * intros kind Hkind. destruct kind; simpl in Hkind;
          try (by apply elem_of_empty in Hkind); [| done].
        by apply add_edge_returns_inv in Hadd.
    + injection Hrest as <-. split; [done |].
      intros kind Hkind. destruct kind; simpl in Hkind;
        try (by apply elem_of_empty in Hkind); done.
Qed.

Lemma call_at_returns_inv file_id idx line m g g' :
  HeuristicExtractor.call_at file_id idx line m g = (g', Returns tt) →
  is_Some (Graph._nodes g' !! ("symbol:any:" +:+ Re.group1 line m))
  ∧ has_edge g' (Edge.mk file_id ("symbol:any:" +:+ Re.group1 line m) CALLS
                   [("line", Py.str idx)]).
Proof.
  unfold HeuristicExtractor.call_at. intros Hrun.
  apply bind_returns_inv in Hrun as (n & g1 & Hensure & Hrest).
  apply bind_returns_inv in Hrest as (e & g2 & Hadd & [= <-]).
  destruct (ensure_node_returns ("symbol:any:" +:+ Re.group1 line m)
              (Re.group1 line m) FUNCTION None g) as (n' & _ & Hn').
  rewrite Hensure in Hn'. simpl in Hn'.
  pose proof (add_edge_nodes
                (Edge.from_meta file_id ("symbol:any:" +:+ Re.group1 line m)
                   CALLS (Some [("line", Py.str idx)])) g1) as Hnodes.
  unfold Graph.connect in Hadd. rewrite Hadd in Hnodes. simpl in Hnodes.
  split; [rewrite Hnodes; eauto |]. by apply add_edge_returns_inv in Hadd.
Qed.

(** When [extract] returns, the last of its loops took its turn on every
    line: first the calls of the line, then its resources. *)
Lemma extract_last_loop_inv file_path text g g1 idx line :
  HeuristicExtractor.extract file_path text g = (g1, Returns tt) →
  (idx, line) ∈ enumerate 1 (Py.splitlines text) →
  ∃ ga gb gc,
    for_ (Re.finditer HeuristicExtractor.CALL_PATTERN line)
      (HeuristicExtractor.call_at (Graph.node_id_for_file file_path) idx line) ga
    = (gb, Returns tt)
    ∧ for_ (Re.finditer HeuristicExtractor.RESOURCE_PATTERN line)
        (HeuristicExtractor.resource_at (Graph.node_id_for_file file_path)
           idx line) gb
      = (gc, Returns tt)
    ∧ le gb gc ∧ le gc g1.
Proof.
  unfold HeuristicExtractor.extract. intros Hrun Hin.
  apply bind_returns_inv in Hrun as (n & g0 & _ & Hrun). cbv zeta in Hrun.
  apply bind_returns_inv in Hrun as ([] & g2 & _ & Hrun).
  apply bind_returns_inv in Hrun as ([] & g3 & _ & Hrun).
  apply bind_returns_inv in Hrun as ([] & g4 & _ & Hrun).
  eapply for_returns_inv in Hrun as (ga & gc & _ & Hbody & Hgc); [| | exact Hin].
  - simpl in Hbody.
    apply bind_returns_inv in Hbody as ([] & gb & Hcalls & Hres).
    exists ga, gb, gc. split; [done |]. split; [done |]. split; [| done].
    pose proof (settles_grows _
                  (settles_for
                     (Re.finditer HeuristicExtractor.RESOURCE_PATTERN line) _
                     (settles_resource_at (Graph.node_id_for_file file_path)
                        idx line)) gb) as Hle.
    by rewrite Hres in Hle.
  - intros il. apply settles_grows, settles_bind; [| intros _];
      apply settles_for; intros ?;
      [apply settles_call_at | apply settles_resource_at].
Qed.

(** The resources of an extraction that returns, on a fresh graph: each
    resource node is there, and a WRITES or READS edge to it, tagged with its
    line, is there exactly when the verb of that line is in the set of the
    kind. *)
Lemma extract_resource_facts file_path text g1 idx line res :
  HeuristicExtractor.extract file_path text Graph.new = (g1, Returns tt) →
  (idx, line) ∈ enumerate 1 (Py.splitlines text) →
  res ∈ Re.finditer HeuristicExtractor.RESOURCE_PATTERN line →
  Graph._nodes g1 !! ("resource:" +:+ Re.group1 line res)
  = Some (Node.mk ("resource:" +:+ Re.group1 line res) (Re.group1 line res)
            RESOURCE [])
  ∧ ∀ kind, kind = WRITES ∨ kind = READS →
      (has_edge g1 (Edge.mk (Graph.node_id_for_file file_path)
                      ("resource:" +:+ Re.group1 line res) kind
                      [("line", Py.str idx)])
       ↔ HeuristicExtractor.verb_of line ∈ verbs_of kind).
Proof.
  intros Hrun Hin Hres.
  pose proof (resource_nodes_extract file_path text _ resource_nodes_new) as HJ.
  pose proof (verb_edges_extract file_path text _
                (verb_edges_new file_path text)) as HK.
  rewrite Hrun in HJ, HK. simpl in HJ, HK.
  destruct (extract_last_loop_inv _ _ _ _ _ _ Hrun Hin)
    as (ga & gb & gc & _ & Hloop & _ & Hgc).
  eapply for_returns_inv in Hloop as (gd & ge & _ & Hbody & Hge);
    [| intros ?; apply settles_grows, settles_resource_at | exact Hres].
  apply resource_at_returns_inv in Hbody as [[n Hn] Hedges].
  assert (le ge g1) as Hle by (by eapply le_trans).
  split.
  - apply (le_lookup _ _ _ _ Hle) in Hn. by rewrite (HJ _ _ Hn) in Hn.
  - intros kind Hkind. split.
    + intros He. destruct (HK _ He Hkind) as (idx' & line' & res' & Hin' & _ & Heq & Hverb).
      simpl in Heq, Hverb. injection Heq as _ Hidx%str_inj. subst idx'.
      by rewrite (enumerate_functional _ _ _ _ _ Hin Hin').
    + intros Hverb. eapply le_has_edge; [exact Hle | by apply Hedges].
Qed.

(** The calls of an extraction that returns: the callee node is there, and
    the CALLS edge to it, tagged with its line. *)
Lemma extract_call_facts file_path text g g1 idx line m :
  HeuristicExtractor.extract file_path text g = (g1, Returns tt) →
  (idx, line) ∈ enumerate 1 (Py.splitlines text) →
  m ∈ Re.finditer HeuristicExtractor.CALL_PATTERN line →
  is_Some (Graph._nodes g1 !! ("symbol:any:" +:+ Re.group1 line m))
  ∧ has_edge g1 (Edge.mk (Graph.node_id_for_file file_path)
                   ("symbol:any:" +:+ Re.group1 line m) CALLS
                   [("line", Py.str idx)]).
Proof.
  intros Hrun Hin Hm.
  destruct (extract_last_loop_inv _ _ _ _ _ _ Hrun Hin)
    as (ga & gb & gc & Hloop & _ & Hgb & Hgc).
  eapply for_returns_inv in Hloop as (gd & ge & _ & Hbody & Hge);
    [| intros ?; apply settles_grows, settles_call_at | exact Hm].
  apply call_at_returns_inv in Hbody as [[n Hn] Hedge].
  assert (le ge g1) as Hle by (eapply le_trans; [| eapply le_trans]; done).
  split; [exists n; by eapply le_lookup | by eapply le_has_edge].
Qed.

(** The file node of an extraction on a fresh graph, however it ends. *)
Lemma extract_file_node file_path text :
  Graph._nodes (HeuristicExtractor.extract file_path text Graph.new).1
    !! Graph.node_id_for_file file_path
  = Some (Node.mk (Graph.node_id_for_file file_path)
            (os_path.basename file_path) FILE [("path", file_path)]).
Proof.
  pose (first := (Graph.ensure_node (Graph.node_id_for_file file_path)
                    (os_path.basename file_path) FILE
                    (Some [("path", file_path)]) Graph.new).1).
  assert (Graph._nodes first !! Graph.node_id_for_file file_path
          = Some (Node.mk (Graph.node_id_for_file file_path)
                    (os_path.basename file_path) FILE [("path", file_path)]))
    as Hfirst.
  { subst first. rewrite ensure_node_absent by done. simpl.
    by rewrite lookup_insert_eq. }
  assert (HeuristicExtractor.extract file_path text Graph.new
          = HeuristicExtractor.extract file_path text first) as ->.
  { unfold HeuristicExtractor.extract, bind at 1.
    rewrite ensure_node_absent by done.
    symmetry. unfold bind at 1.
    rewrite (ensure_node_present _ _ _ _ first _ Hfirst).
    subst first. by rewrite ensure_node_absent by done. }
  eapply le_lookup; [| exact Hfirst]. apply (settles_extract file_path text).
Qed.

(** *** The kind of the node under one id *)

Lemma kind_at_connect k kind source_id target_id ekind meta :
  preserves (kind_at k kind) (Graph.connect source_id target_id ekind meta).
Proof.
  intros g Hg n. unfold Graph.connect. rewrite add_edge_nodes. apply Hg.
Qed.

Lemma kind_at_ensure_same k kind node_id name meta :
  preserves (kind_at k kind) (Graph.ensure_node node_id name kind meta).
Proof.
  intros g Hg n. destruct (decide (k = node_id)) as [-> | Hne].
  - destruct (Graph._nodes g !! node_id) as [n0|] eqn:Hk.
    + rewrite (ensure_node_present _ _ _ _ _ _ Hk). apply Hg.
    + rewrite (ensure_node_absent _ _ _ _ _ Hk). simpl.
      rewrite lookup_insert_eq. by intros [= <-].
  - rewrite ensure_node_other by done. apply Hg.
Qed.

Lemma kind_at_ensure_other k kind node_id name kind' meta :
  node_id ≠ k →
  preserves (kind_at k kind) (Graph.ensure_node node_id name kind' meta).
Proof.
  intros Hne g Hg n. rewrite ensure_node_other by done. apply Hg.
Qed.

Lemma kind_at_new k kind : kind_at k kind Graph.new.
Proof. intros n Hn. simpl in Hn. by rewrite lookup_empty in Hn. Qed.

(** On the line of the download scenario, whatever the file path, a node
    under [symbol:any:download] is a function node. *)
Lemma download_line_kind_at file_path :
  preserves (kind_at "symbol:any:download" FUNCTION)
    (HeuristicExtractor.extract file_path Scenarios.download_line).
Proof.
  assert (Py.splitlines Scenarios.download_line = [Scenarios.download_line])
    as Hlines by (vm_compute; reflexivity).
  assert (HeuristicExtractor.first_match HeuristicExtractor.IMPORT_PATTERNS
            Scenarios.download_line = None) as Himport
    by (vm_compute; reflexivity).
  assert (HeuristicExtractor.first_match HeuristicExtractor.CLASS_DEF_PATTERNS
            Scenarios.download_line = None) as Hclass
    by (vm_compute; reflexivity).
  assert (HeuristicExtractor.first_match HeuristicExtractor.CONST_PATTERNS
            Scenarios.download_line = None) as Hconst
    by (vm_compute; reflexivity).
  assert (HeuristicExtractor.first_match HeuristicExtractor.VAR_PATTERNS
            Scenarios.download_line = None) as Hvar
    by (vm_compute; reflexivity).
  unfold HeuristicExtractor.extract.
  apply preserves_bind; [| intros _].
  { apply kind_at_ensure_other. discriminate. }
  cbv zeta. rewrite Hlines.
  apply preserves_bind; [| intros _].
  { apply preserves_for. intros line ->%list_elem_of_singleton.
    rewrite for_match_first, Himport. apply preserves_ret. }
  apply preserves_bind; [| intros _].
  { apply preserves_for. intros il ->%list_elem_of_singleton.
    unfold HeuristicExtractor.definition_at. cbn [fst snd]. rewrite Hclass.
    destruct (HeuristicExtractor.first_match
                HeuristicExtractor.FUNCTION_DEF_PATTERNS _);
      [| apply preserves_ret].
    apply preserves_bind; [apply kind_at_ensure_same | intros _].
    apply preserves_bind; [apply kind_at_connect | intros _].
    apply preserves_ret. }
  apply preserves_bind; [| intros _].
  { apply preserves_for. intros il ->%list_elem_of_singleton.
    unfold HeuristicExtractor.declaration_at. cbn [fst snd].
    rewrite !for_match_first, Hconst, Hvar.
    apply preserves_bind; [| intros _]; apply preserves_ret. }
  apply preserves_for. intros il _.
  apply preserves_bind; [| intros _].
  - apply preserves_for. intros m _. unfold HeuristicExtractor.call_at.
    apply preserves_bind; [apply kind_at_ensure_same | intros _].
    apply preserves_bind; [apply kind_at_connect | intros _].
    apply preserves_ret.
  - apply preserves_for. intros res _. unfold HeuristicExtractor.resource_at.
    apply preserves_bind; [| intros _].
    { apply kind_at_ensure_other. discriminate. }
    cbv zeta.
    destruct (decide _);
      [apply preserves_bind; [apply kind_at_connect | intros _; apply preserves_ret] |].
    destruct (decide _);
      [apply preserves_bind; [apply kind_at_connect | intros _; apply preserves_ret] |].
    apply preserves_ret.
Qed.

End extraction_invariants.

(** ** The claims about the graph store and about one extraction *)

Section store_claims.
Import GraphFacts.

(** C1.  Extraction is idempotent.  Whatever the graph, a second
    [HeuristicExtractor.extract] over the same [(file_path, text)] on the
    graph the first one left gives back that very graph (the same nodes, the
    same two adjacency indexes, so the same node set and edge set) and ends as
    the first did; and two extractions, each on a fresh graph, have the same
    [to_dict()] records up to their order. *)
Theorem extract_twice_is_extract_once (file_path text : string) :
  (∀ g : Graph.t,
     let once := HeuristicExtractor.extract file_path text g in
     HeuristicExtractor.extract file_path text once.1 = once)
  ∧ (let first := (HeuristicExtractor.extract file_path text Graph.new).1 in
     let second := (HeuristicExtractor.extract file_path text Graph.new).1 in
     (Graph.to_dict first).1 ≡ₚ (Graph.to_dict second).1
     ∧ (Graph.to_dict first).2 ≡ₚ (Graph.to_dict second).2).
Proof.
  split; [| by split].
  intros g once. subst once.
  destruct (settles_extract file_path text g) as [_ Hagain].
  destruct (HeuristicExtractor.extract file_path text g) as [g1 [[] | e]] eqn:Hrun;
    simpl in *.
  - apply Hagain, le_refl.
  - exact Hagain.
Qed.

(** C2.  [add_edge] with an endpoint that is not a key of the node store
    raises the [KeyError] of the structural check, and the graph after the
    call is the graph before it: node store and both adjacency indexes. *)
Theorem add_edge_missing_endpoint_raises (g : Graph.t) (edge : Edge.t) :
  Graph._nodes g !! Edge.source edge = None
  ∨ Graph._nodes g !! Edge.target edge = None →
  Graph.add_edge edge g = (g, Raises Graph.missing_endpoint).
Proof.
  unfold Graph.add_edge. intros [Hsource | Htarget].
  - by rewrite Hsource.
  - rewrite Htarget. by destruct (Graph._nodes g !! Edge.source edge).
Qed.

Lemma add_edge_missing_endpoint_raises_witness :
  (Graph._nodes (Graph.upsert_node (Node.mk "a" "a" FILE []) Graph.new).1
     !! Edge.source (Edge.mk "a" "b" CALLS []) = None
   ∨ Graph._nodes (Graph.upsert_node (Node.mk "a" "a" FILE []) Graph.new).1
     !! Edge.target (Edge.mk "a" "b" CALLS []) = None)
  ∧ Graph.add_edge (Edge.mk "a" "b" CALLS [])
      (Graph.upsert_node (Node.mk "a" "a" FILE []) Graph.new).1
    = ((Graph.upsert_node (Node.mk "a" "a" FILE []) Graph.new).1,
       Raises Graph.missing_endpoint).
Proof.
  split; [right; reflexivity |].
  apply add_edge_missing_endpoint_raises. right. reflexivity.
Defined.

(** C3.  First writer wins.  On a graph that has no node under [node_id],
    [ensure_node] stores and returns the node built from its arguments; a
    second [ensure_node] under the same id, whatever its other arguments,
    returns that stored node and leaves the graph as it was. *)
Theorem ensure_node_first_writer_wins (g : Graph.t) (node_id : string)
    (name1 : string) (kind1 : NodeKind) (meta1 : option Dict)
    (name2 : string) (kind2 : NodeKind) (meta2 : option Dict) :
  Graph._nodes g !! node_id = None →
  let first := Graph.ensure_node node_id name1 kind1 meta1 g in
  let second := Graph.ensure_node node_id name2 kind2 meta2 first.1 in
  first.2 = Returns (Node.from_meta node_id name1 kind1 meta1)
  ∧ Graph._nodes first.1 !! node_id
    = Some (Node.from_meta node_id name1 kind1 meta1)
  ∧ second = (first.1, Returns (Node.from_meta node_id name1 kind1 meta1)).
Proof.
  intros Hk first second. subst first second.
  rewrite (ensure_node_absent _ name1 kind1 meta1 _ Hk). simpl.
  assert (Graph._nodes
            (Graph.upsert_node (Node.from_meta node_id name1 kind1 meta1) g).1
          !! node_id = Some (Node.from_meta node_id name1 kind1 meta1)) as Hin.
  { simpl. by rewrite lookup_insert_eq. }
  split; [done |]. split; [exact Hin |].
  by apply ensure_node_present.
Qed.

Lemma ensure_node_first_writer_wins_witness :
  Graph._nodes Graph.new !! "file:a.py" = None
  ∧ (let first :=
       Graph.ensure_node "file:a.py" "a.py" FILE (Some [("path", "a.py")])
         Graph.new in
     let second :=
       Graph.ensure_node "file:a.py" "other" MODULE (Some [("k", "v")]) first.1 in
     first.2 = Returns (Node.from_meta "file:a.py" "a.py" FILE (Some [("path", "a.py")]))
     ∧ Graph._nodes first.1 !! "file:a.py"
       = Some (Node.from_meta "file:a.py" "a.py" FILE (Some [("path", "a.py")]))
     ∧ second
       = (first.1,
          Returns (Node.from_meta "file:a.py" "a.py" FILE (Some [("path", "a.py")])))).
Proof.
  split; [reflexivity |].
  apply (ensure_node_first_writer_wins Graph.new "file:a.py"). reflexivity.
Defined.

(** C6.  In the file [a.py], the one line [class Dog extends Animal] gives
    the class node [symbol:a.py:Dog], the type node [type:Animal] and the
    EXTENDS edge, tagged with line 1, from the first to the second, in both
    adjacency indexes. *)
Theorem class_extends_scenario :
  let run := HeuristicExtractor.extract "a.py" "class Dog extends Animal" Graph.new in
  let edge := Edge.mk "symbol:a.py:Dog" "type:Animal" EXTENDS [("line", "1")] in
  run.2 = Returns tt
  ∧ Graph._nodes run.1 !! "symbol:a.py:Dog"
    = Some (Node.mk "symbol:a.py:Dog" "Dog" CLASS [("file", "a.py"); ("line", "1")])
  ∧ Graph._nodes run.1 !! "type:Animal"
    = Some (Node.mk "type:Animal" "Animal" TYPE [])
  ∧ Graph._out_edges run.1 !! "symbol:a.py:Dog" = Some {[ edge ]}
  ∧ Graph._in_edges run.1 !! "type:Animal" = Some {[ edge ]}
  ∧ has_edge run.1 edge.
Proof.
  intros run edge.
  assert (Graph._out_edges run.1 !! "symbol:a.py:Dog" = Some {[ edge ]}) as Hout
    by compute_done.
  split; [compute_done |].
  split; [compute_done |].
  split; [compute_done |].
  split; [exact Hout |].
  split; [compute_done |].
  exists {[ edge ]}. split; [exact Hout | by apply elem_of_singleton].
Qed.

(** C7.  Whatever the file path, the one line [download(Q https://x/y Q)]
    (with [Q] the double quote) gives, on a fresh graph: the file node; the
    resource node [resource:https://x/y]; the READS edge, tagged with line 1,
    from the file node to it; a function node under [symbol:any:download]; and
    the CALLS edge, tagged with line 1, from the file node to that node. *)
Theorem download_scenario (file_path : string) :
  let run := HeuristicExtractor.extract file_path Scenarios.download_line Graph.new in
  let file_id := Graph.node_id_for_file file_path in
  run.2 = Returns tt
  ∧ (∃ n, Graph._nodes run.1 !! file_id = Some n ∧ Node.kind n = FILE)
  ∧ Graph._nodes run.1 !! "resource:https://x/y"
    = Some (Node.mk "resource:https://x/y" "https://x/y" RESOURCE [])
  ∧ has_edge run.1
      (Edge.mk file_id "resource:https://x/y" READS [("line", "1")])
  ∧ (∃ n, Graph._nodes run.1 !! "symbol:any:download" = Some n
          ∧ Node.kind n = FUNCTION)
  ∧ has_edge run.1
      (Edge.mk file_id "symbol:any:download" CALLS [("line", "1")]).
Proof.
  intros run file_id.
  assert (Py.splitlines Scenarios.download_line = [Scenarios.download_line])
    as Hlines by (vm_compute; reflexivity).
  assert (HeuristicExtractor.first_match HeuristicExtractor.IMPORT_PATTERNS
            Scenarios.download_line = None) as Himport
    by (vm_compute; reflexivity).
  assert ((1, Scenarios.download_line)
          ∈ enumerate 1 (Py.splitlines Scenarios.download_line)) as Hin.
  { rewrite Hlines. apply list_elem_of_here. }
  assert (run.2 = Returns tt) as Hret.
  { apply extract_returns; [apply wf_new |].
    intros line m Hline Hm. rewrite Hlines in Hline.
    apply list_elem_of_singleton in Hline as ->. congruence. }
  assert (HeuristicExtractor.extract file_path Scenarios.download_line Graph.new
          = (run.1, Returns tt)) as Hrun.
  { rewrite <- Hret. subst run. by destruct (HeuristicExtractor.extract _ _ _). }
  split; [exact Hret |]. split.
  { eexists. split; [apply extract_file_node | done]. }
  destruct (extract_resource_facts file_path Scenarios.download_line run.1 1
              Scenarios.download_line (Re.mk_rmatch 10 21 (Some (10, 21)))
              Hrun Hin) as [Hnode Hedges]; [compute_done |].
  split; [exact Hnode |]. split.
  { apply (Hedges READS); [by right | compute_done]. }
  destruct (extract_call_facts file_path Scenarios.download_line Graph.new run.1
              1 Scenarios.download_line (Re.mk_rmatch 0 9 (Some (0, 8)))
              Hrun Hin) as [[n Hn] Hcall]; [compute_done |].
  split; [| exact Hcall].
  exists n. split; [exact Hn |].
  assert (kind_at "symbol:any:download" FUNCTION run.1) as Hkind; [| by apply Hkind].
  apply (download_line_kind_at file_path), kind_at_new.
Qed.

(** C8, as the code has it.  The verb of a line is the first word (the first
    run of characters that are not whitespace), lower-cased, of the text before
    the first opening parenthesis of the line stripped of the whitespace
    around it, and the empty string if there is no such word.  When the
    extraction of a text on a fresh graph returns, then for every resource
    found in a line: the resource node is in the graph; the WRITES edge from
    the file node to it, tagged with the number of the line, is in the graph
    if and only if the verb of the line is in the write set; and likewise for
    the READS edge and the read set.  So a line whose verb is in neither set
    gives the resource node and neither edge. *)
Theorem resource_edge_iff_first_word_is_verb (file_path text : string)
    (g1 : Graph.t) (idx : nat) (line : string) (res : Re.rmatch) :
  HeuristicExtractor.extract file_path text Graph.new = (g1, Returns tt) →
  (idx, line) ∈ enumerate 1 (Py.splitlines text) →
  res ∈ Re.finditer HeuristicExtractor.RESOURCE_PATTERN line →
  Graph._nodes g1 !! ("resource:" +:+ Re.group1 line res)
  = Some (Node.mk ("resource:" +:+ Re.group1 line res) (Re.group1 line res)
            RESOURCE [])
  ∧ (has_edge g1 (Edge.mk (Graph.node_id_for_file file_path)
                    ("resource:" +:+ Re.group1 line res) WRITES
                    [("line", Py.str idx)])
     ↔ HeuristicExtractor.verb_of line ∈ HeuristicExtractor.WRITE_VERBS)
  ∧ (has_edge g1 (Edge.mk (Graph.node_id_for_file file_path)
                    ("resource:" +:+ Re.group1 line res) READS
                    [("line", Py.str idx)])
     ↔ HeuristicExtractor.verb_of line ∈ HeuristicExtractor.READ_VERBS).
Proof.
  intros Hrun Hin Hres.
  destruct (extract_resource_facts _ _ _ _ _ _ Hrun Hin Hres) as [Hnode Hedges].
  split; [exact Hnode |]. split.
  - apply (Hedges WRITES). by left.
  - apply (Hedges READS). by right.
Qed.

Lemma resource_edge_iff_first_word_is_verb_witness :
  let text := "save to http://x/y" in
  let g1 := (HeuristicExtractor.extract "a.py" text Graph.new).1 in
  let res := Re.mk_rmatch 8 18 (Some (8, 18)) in
  HeuristicExtractor.extract "a.py" text Graph.new = (g1, Returns tt)
  ∧ (1, text) ∈ enumerate 1 (Py.splitlines text)
  ∧ res ∈ Re.finditer HeuristicExtractor.RESOURCE_PATTERN text
  ∧ Graph._nodes g1 !! ("resource:" +:+ Re.group1 text res)
    = Some (Node.mk ("resource:" +:+ Re.group1 text res) (Re.group1 text res)
              RESOURCE [])
  ∧ (has_edge g1 (Edge.mk (Graph.node_id_for_file "a.py")
                    ("resource:" +:+ Re.group1 text res) WRITES
                    [("line", Py.str 1)])
     ↔ HeuristicExtractor.verb_of text ∈ HeuristicExtractor.WRITE_VERBS)
  ∧ (has_edge g1 (Edge.mk (Graph.node_id_for_file "a.py")
                    ("resource:" +:+ Re.group1 text res) READS
                    [("line", Py.str 1)])
     ↔ HeuristicExtractor.verb_of text ∈ HeuristicExtractor.READ_VERBS).
Proof.
  intros text g1 res.
  assert (HeuristicExtractor.extract "a.py" text Graph.new = (g1, Returns tt))
    as Hrun.
  { assert ((HeuristicExtractor.extract "a.py" text Graph.new).2 = Returns tt)
      as Hret by compute_done.
    rewrite <- Hret. subst g1. by destruct (HeuristicExtractor.extract _ _ _). }
  assert ((1, text) ∈ enumerate 1 (Py.splitlines text)) as Hin by compute_done.
  assert (res ∈ Re.finditer HeuristicExtractor.RESOURCE_PATTERN text) as Hres
    by compute_done.
  split; [exact Hrun |]. split; [exact Hin |]. split; [exact Hres |].
  exact (resource_edge_iff_first_word_is_verb "a.py" text g1 1 text res
           Hrun Hin Hres).
Defined.

(** C8 as stated fails.  In the line [open file(x) http://a/b] the text before
    the first opening parenthesis, lower-cased, is [open file], which is in
    neither set; the code takes the first word of it, [open], and adds the
    READS edge. *)
Lemma leading_token_is_not_the_verb :
  let line := "open file(x) http://a/b" in
  let run := HeuristicExtractor.extract "a.py" line Graph.new in
  let res := Re.mk_rmatch 13 23 (Some (13, 23)) in
  let edge := Edge.mk "file:a.py" "resource:http://a/b" READS [("line", "1")] in
  run.2 = Returns tt
  ∧ Py.splitlines line = [line]
  ∧ res ∈ Re.finditer HeuristicExtractor.RESOURCE_PATTERN line
  ∧ Re.group1 line res = "http://a/b"
  ∧ Scenarios.leading_token_as_specified line = "open file"
  ∧ HeuristicExtractor.verb_of line = "open"
  ∧ ¬ (has_edge run.1 edge
       ↔ Scenarios.leading_token_as_specified line
         ∈ HeuristicExtractor.READ_VERBS).
Proof.
  intros line run res edge.
  split; [compute_done |]. split; [vm_compute; reflexivity |].
  split; [compute_done |]. split; [vm_compute; reflexivity |].
  split; [vm_compute; reflexivity |]. split; [vm_compute; reflexivity |].
  assert (has_edge run.1 edge) as Hedge by compute_done.
  assert (Scenarios.leading_token_as_specified line
          ∉ HeuristicExtractor.READ_VERBS) as Hnot by compute_done.
  intros [Hiff _]. exact (Hnot (Hiff Hedge)).
Qed.

(** C10 fails on the code.  On the line [import (], which opens an import
    block in Go, the import pattern matches with the group [ (]; stripped of
    whitespace and of the characters [;{}()] nothing is left, [split()] is
    empty and its subscript [[0]] raises [IndexError]: [extract] raises, after
    it has created the file node. *)
Theorem extract_raises_on_import_without_target :
  let run := HeuristicExtractor.extract "main.go" "import (" Graph.new in
  HeuristicExtractor.first_match HeuristicExtractor.IMPORT_PATTERNS "import ("
  = Some (Re.mk_rmatch 0 8 (Some (6, 8)))
  ∧ Py.split (Py.strip_chars ";{}()" (Py.strip " (")) = []
  ∧ run.2 = Raises (IndexError "list index out of range")
  ∧ dom (Graph._nodes run.1) = {[ "file:main.go" ]}.
Proof.
  intros run.
  split; [vm_compute; reflexivity |]. split; [vm_compute; reflexivity |].
  split; compute_done.
Qed.

End store_claims.

(** ** The claims about the scanner *)

Section scanner_claims.
Import GraphFacts ScanFacts.
Variable fs : FileSystem.

(** *** What the calls of an extractor raise *)

Lemma raises_only_ret {A} allowed (a : A) : raises_only allowed (ret a).
Proof. by intros g e. Qed.

Lemma raises_only_raise {A} (allowed : exn → Prop) e :
  allowed e → raises_only allowed (raise (A := A) e).
Proof. intros He g e'. unfold raise. simpl. by intros [= <-]. Qed.

Lemma raises_only_bind {A B} allowed (m : M Graph.t A) (f : A → M Graph.t B) :
  raises_only allowed m → (∀ a, raises_only allowed (f a)) →
  raises_only allowed (bind m f).
Proof.
  intros Hm Hf g e. unfold bind. specialize (Hm g).
  destruct (m g) as [g1 [a | e1]]; simpl in *; [apply Hf |].
  intros [= <-]. by apply Hm.
Qed.

Lemma raises_only_for {X} allowed (xs : list X) (body : X → M Graph.t unit) :
  (∀ x, x ∈ xs → raises_only allowed (body x)) →
  raises_only allowed (for_ xs body).
Proof.
  induction xs as [| x xs IH]; intros Hbody; simpl.
  - apply raises_only_ret.
  - apply raises_only_bind.
    + apply Hbody. by left.
    + intros _. apply IH. intros y Hy. apply Hbody. by right.
Qed.

Lemma raises_only_for_match allowed pats line body :
  (∀ m, raises_only allowed (body m)) →
  raises_only allowed (HeuristicExtractor.for_match pats line body).
Proof.
  intros Hbody. rewrite for_match_first.
  destruct (HeuristicExtractor.first_match pats line);
    [done | apply raises_only_ret].
Qed.

Lemma raises_only_ensure_node allowed node_id name kind meta :
  raises_only allowed (Graph.ensure_node node_id name kind meta).
Proof.
  intros g e. destruct (ensure_node_returns node_id name kind meta g)
    as (n & -> & _). done.
Qed.

Lemma raises_only_add_edge edge :
  raises_only (fun e => is_Exception e = true) (Graph.add_edge edge).
Proof.
  intros g e. unfold Graph.add_edge.
  destruct (Graph._nodes g !! Edge.source edge);
    [| simpl; by intros [= <-]].
  destruct (Graph._nodes g !! Edge.target edge);
    [| simpl; by intros [= <-]].
  destruct (Graph.add_at _ _ (Graph._out_edges g)); [| simpl; by intros [= <-]].
  simpl. destruct (Graph.add_at _ _ (Graph._in_edges g));
    simpl; [done | by intros [= <-]].
Qed.

Lemma raises_only_extract file_path text :
  raises_only (fun e => is_Exception e = true)
    (HeuristicExtractor.extract file_path text).
Proof.
  unfold HeuristicExtractor.extract, HeuristicExtractor.import_at,
    HeuristicExtractor.definition_at, HeuristicExtractor.declaration_at,
    HeuristicExtractor.call_at, HeuristicExtractor.resource_at, Graph.connect.
  repeat first
    [ apply raises_only_ret
    | apply raises_only_raise; reflexivity
    | apply raises_only_ensure_node
    | apply raises_only_add_edge
    | apply raises_only_for_match; intros ?
    | apply raises_only_for; intros ? _
    | apply raises_only_bind; [| intros ?]
    | match goal with
      | |- raises_only _ (match ?x with _ => _ end) => destruct x
      | |- raises_only _ (let _ := _ in _) => cbv zeta
      end ].
Qed.

Lemma heuristic_raises_Exceptions : raises_Exceptions HeuristicExtractor.new.
Proof. intros file_path text. split; [done | apply raises_only_extract]. Qed.


(** *** The loops of [scan] *)

Lemma try_except_ret_raises {St A} (m : M St A) (a : A) s e :
  (try_except m (ret a) s).2 = Raises e → is_Exception e = false.
Proof.
  unfold try_except, ret. destruct (m s) as [s' [x | e']]; simpl; [done |].
  destruct (is_Exception e') eqn:He'; simpl; [done |]. by intros [= <-].
Qed.

Lemma for_raises {St X} (P : exn → Prop) (xs : list X) (body : X → M St unit)
    s e :
  (∀ x s e, (body x s).2 = Raises e → P e) →
  (for_ xs body s).2 = Raises e → P e.
Proof.
  intros Hbody. revert s. induction xs as [| x xs IH]; intros s; simpl; [done |].
  unfold bind. destruct (body x s) as [s1 [[] | e1]] eqn:Hx; simpl.
  - apply IH.
  - intros [= <-]. apply (Hbody x s). by rewrite Hx.
Qed.

Lemma scan_text_attempts extractors exts ign file_path text g :
  (∀ extractor, extractor ∈ extractors → raises_Exceptions extractor) →
  Scanner.scan_text (Scanner.mk extractors exts ign) file_path text g
  = (fold_left (fun g extractor => attempt extractor file_path text g)
       extractors g,
     Returns tt).
Proof.
  intros Hall. unfold Scanner.scan_text. simpl. revert g.
  induction extractors as [| extractor rest IH]; intros g; simpl; [done |].
  destruct (Hall extractor (list_elem_of_here _ _) file_path text)
    as [Hsup Hext].
  assert (∀ x, x ∈ rest → raises_Exceptions x) as Hrest.
  { intros x Hx. apply Hall. by apply list_elem_of_further. }
  unfold bind at 1, try_except, bind, attempt.
  destruct (Extractor.supports extractor file_path text) as [[] | e]; simpl.
  - specialize (Hext g).
    destruct (Extractor.extract extractor file_path text g) as [g' [[] | e]];
      simpl in *; [by apply IH |].
    rewrite (Hext e eq_refl). by apply IH.
  - by apply IH.
  - rewrite (Hsup e eq_refl). by apply IH.
Qed.

Lemma scan_file_attempts self file_path g :
  (∀ extractor, extractor ∈ Scanner.extractors self →
                raises_Exceptions extractor) →
  Scanner.scan_file fs self file_path g
  = (attempt_file fs self g file_path, Returns tt).
Proof.
  intros Hall. unfold Scanner.scan_file, attempt_file, bind, try_except.
  pose proof (read_text_raises fs file_path) as Hread.
  destruct (read_text fs file_path) as [text | e]; simpl.
  - destruct self as [extractors exts ign]. by apply scan_text_attempts.
  - by rewrite Hread.
Qed.

Lemma scan_files_attempts self files g :
  (∀ extractor, extractor ∈ Scanner.extractors self →
                raises_Exceptions extractor) →
  for_ files (Scanner.scan_file fs self) g
  = (fold_left (attempt_file fs self) files g, Returns tt).
Proof.
  intros Hall. revert g.
  induction files as [| file_path rest IH]; intros g; simpl; [done |].
  unfold bind. rewrite scan_file_attempts by done. apply IH.
Qed.

Lemma scan_file_raises self file_path g e :
  (Scanner.scan_file fs self file_path g).2 = Raises e →
  is_Exception e = false.
Proof.
  unfold Scanner.scan_file, bind at 1.
  destruct (try_except _ (ret None) g) as [g1 [[text |] | e1]] eqn:Hread; simpl.
  - unfold Scanner.scan_text. intros Hloop.
    eapply (for_raises (fun e => is_Exception e = false)); [| exact Hloop].
    intros extractor s e'. apply try_except_ret_raises.
  - done.
  - intros [= <-]. eapply try_except_ret_raises. by rewrite Hread.
Qed.

Lemma scan_raises self paths e :
  Scanner.scan fs self paths = Raises e → is_Exception e = false.
Proof.
  unfold Scanner.scan.
  destruct (for_ _ (Scanner.scan_file fs self) Graph.new) as [g [[] | e1]]
    eqn:Hloop; [done |].
  intros [= <-]. eapply (for_raises (fun e => is_Exception e = false)).
  - intros x s e'. apply scan_file_raises.
  - by rewrite Hloop.
Qed.


(** C5, as the code has it.  [scan] does not raise the structural error of
    [add_edge] to its caller: when [extract] raises it on a file, the clause
    [except Exception] catches it, the loop over the extractors goes on with
    the next extractor from the graph that the failed call left, and
    whatever the other extractors and the paths, [scan] does not end with
    that error. *)
Theorem scan_swallows_structural_error (extractor : Extractor.t)
    (others : list Extractor.t) (exts : option (gset string))
    (ign : gset string) (file_path text : string) (g g' : Graph.t)
    (paths : list string) :
  Extractor.supports extractor file_path text = Returns true →
  Extractor.extract extractor file_path text g
  = (g', Raises Graph.missing_endpoint) →
  let self := Scanner.mk (extractor :: others) exts ign in
  Scanner.scan_text self file_path text g
  = Scanner.scan_text (Scanner.mk others exts ign) file_path text g'
  ∧ Scanner.scan fs self paths ≠ Raises Graph.missing_endpoint.
Proof.
  intros Hsup Hext self. split.
  - subst self. unfold Scanner.scan_text. simpl.
    unfold bind at 1, try_except at 1, bind at 1. by rewrite Hsup, Hext.
  - intros Hscan. by apply scan_raises in Hscan.
Qed.

(** The allowlist admits an extension, whatever its case, through an entry
    that is in lower case. *)
Lemma should_include_file_lower_case_entry (self : Scanner.t) (path : string)
    (exts : gset string) (entry : string) :
  Scanner.extensions self = Some exts →
  entry ∈ exts → Py.lower entry = entry →
  Py.startswith "." (os_path.basename path) = false →
  existsb (fun part => bool_decide (part ∈ Scanner.ignores self))
    (let parts := Py.split_on "/" path in parts.1 :: parts.2) = false →
  Py.lower (os_path.splitext (os_path.basename path)).2 = Py.lower entry →
  Scanner.should_include_file fs self path = true.
Proof.
  intros Hexts Hentry Hlower Hdot Hign Hext. unfold Scanner.should_include_file.
  cbv zeta in *. rewrite Hdot, Hign, Hexts, Hext, Hlower.
  by apply bool_decide_eq_true_2.
Qed.

(** C9 fails on the code.  [should_include_file] lower-cases the extension
    of the path and looks it up among the allowlist entries as they were
    given: an entry with an upper-case letter admits no file at all, neither
    [main.ext] nor [MAIN.EXT] under the allowlist [{.EXT}], while the
    allowlist [{.ext}] admits [MAIN.EXT]. *)
Theorem upper_case_allowlist_entry_admits_nothing :
  Scanner.should_include_file fs (Scanner.init None (Some [".EXT"]) None)
    "main.ext" = false
  ∧ Scanner.should_include_file fs (Scanner.init None (Some [".EXT"]) None)
      "MAIN.EXT" = false
  ∧ Scanner.should_include_file fs (Scanner.init None (Some [".ext"]) None)
      "MAIN.EXT" = true.
Proof. split; [| split]; vm_compute; reflexivity. Qed.

End scanner_claims.



Lemma scan_swallows_structural_error_witness :
  Extractor.supports ScanFacts.dangling_extractor "a.py" "x = 1" = Returns true
  ∧ Extractor.extract ScanFacts.dangling_extractor "a.py" "x = 1" Graph.new
    = (Graph.new, Raises Graph.missing_endpoint)
  ∧ (let self := Scanner.mk [ScanFacts.dangling_extractor; HeuristicExtractor.new]
                   None Scanner.DEFAULT_IGNORES in
     Scanner.scan_text self "a.py" "x = 1" Graph.new
     = Scanner.scan_text (Scanner.mk [HeuristicExtractor.new] None
                            Scanner.DEFAULT_IGNORES) "a.py" "x = 1" Graph.new
     ∧ Scanner.scan ScanFacts.one_file self ["a.py"]
       ≠ Raises Graph.missing_endpoint).
Proof.
  split; [reflexivity |]. split; [reflexivity |].
  apply (scan_swallows_structural_error ScanFacts.one_file
           ScanFacts.dangling_extractor [HeuristicExtractor.new] None
           Scanner.DEFAULT_IGNORES "a.py" "x = 1" Graph.new Graph.new ["a.py"]);
    reflexivity.
Defined.

(** C5 as stated fails: the extractor below raises the structural error on
    the one file of the scan, and [scan] returns the empty graph instead of
    raising. *)
Lemma scan_does_not_raise_structural_error :
  let self := Scanner.init (Some [ScanFacts.dangling_extractor]) None None in
  Scanner.walk_paths ScanFacts.one_file self ["a.py"] = ["a.py"]
  ∧ read_text ScanFacts.one_file "a.py" = Returns "x = 1"
  ∧ (Extractor.extract ScanFacts.dangling_extractor "a.py" "x = 1" Graph.new).2
    = Raises Graph.missing_endpoint
  ∧ Scanner.scan ScanFacts.one_file self ["a.py"] = Returns Graph.new
  ∧ Scanner.scan ScanFacts.one_file self ["a.py"] ≠ Raises Graph.missing_endpoint.
Proof.
  intros self.
  assert (Scanner.scan ScanFacts.one_file self ["a.py"] = Returns Graph.new)
    as Hscan by (unfold Scanner.scan; compute_done).
  split; [compute_done |].
  split; [reflexivity |].
  split; [compute_done |].
  split; [exact Hscan |].
  rewrite Hscan. discriminate.
Qed.

Section add_edge_missing_cases.
Lemma add_edge_missing_source edge g :
  Graph._nodes g !! Edge.source edge = None → (Graph.add_edge edge g).1 = g.
Proof. intros H. unfold Graph.add_edge. by rewrite H. Qed.

Lemma add_edge_missing_target edge g :
  Graph._nodes g !! Edge.target edge = None → (Graph.add_edge edge g).1 = g.
Proof.
  intros H. unfold Graph.add_edge. rewrite H.
  by destruct (Graph._nodes g !! Edge.source edge).
Qed.
End add_edge_missing_cases.

(** ** The invariant of the graphs built through the methods *)

Section built_graphs.
Import GraphFacts GraphInvariants.

Lemma setdefault_lookup_inv k (d : gmap string (gset Edge.t)) k' xs e :
  Graph.setdefault k ∅ d !! k' = Some xs → e ∈ xs → d !! k' = Some xs.
Proof.
  unfold Graph.setdefault. destruct (d !! k) eqn:Hk; [done |].
  destruct (decide (k = k')) as [<- | Hne].
  - rewrite lookup_insert_eq. intros [= <-] He. by apply elem_of_empty in He.
  - by rewrite lookup_insert_ne.
Qed.

Lemma setdefault_is_Some_iff k (v : gset Edge.t) d k' :
  is_Some (Graph.setdefault k v d !! k') ↔ k' = k ∨ is_Some (d !! k').
Proof.
  unfold Graph.setdefault. destruct (d !! k) eqn:Hk.
  - split; [by right |]. intros [-> | H]; [by rewrite Hk | done].
  - destruct (decide (k = k')) as [<- | Hne].
    + rewrite lookup_insert_eq. split; [by left | eauto].
    + rewrite lookup_insert_ne by done. split; [by right |].
      by intros [-> | H].
Qed.

Lemma consistent_new : consistent Graph.new.
Proof.
  unfold consistent. simpl.
  repeat split; intros *; rewrite ?lookup_empty; try done;
    by intros [? ?].
Qed.

Lemma consistent_wf g : consistent g → wf g.
Proof. intros (Ho & Hi & _) k Hk. split; [by apply Ho | by apply Hi]. Qed.

Lemma consistent_upsert_node node g :
  consistent g → consistent (Graph.upsert_node node g).1.
Proof.
  intros (Ho & Hi & Hid & Hout & Hinc).
  assert (le_in : index_le (Graph._in_edges g)
                    (Graph.setdefault (Node.id node) ∅ (Graph._in_edges g)))
    by apply setdefault_le.
  assert (le_out : index_le (Graph._out_edges g)
                     (Graph.setdefault (Node.id node) ∅ (Graph._out_edges g)))
    by apply setdefault_le.
  assert (∀ k, is_Some (Graph._nodes g !! k) →
               is_Some (<[Node.id node := node]> (Graph._nodes g) !! k)) as Hkeep.
  { intros k Hk. destruct (decide (Node.id node = k)) as [<- | Hne].
    - rewrite lookup_insert_eq. eauto.
    - by rewrite lookup_insert_ne. }
  unfold consistent. simpl. split; [| split; [| split; [| split]]].
  - intros k. rewrite setdefault_is_Some_iff, <- Ho.
    destruct (decide (Node.id node = k)) as [<- | Hne].
    + rewrite lookup_insert_eq. split; [by left | eauto].
    + rewrite lookup_insert_ne by done. split; [by right |].
      by intros [-> | H].
  - intros k. rewrite setdefault_is_Some_iff, <- Hi.
    destruct (decide (Node.id node = k)) as [<- | Hne].
    + rewrite lookup_insert_eq. split; [by left | eauto].
    + rewrite lookup_insert_ne by done. split; [by right |].
      by intros [-> | H].
  - intros k n. destruct (decide (Node.id node = k)) as [<- | Hne].
    + rewrite lookup_insert_eq. by intros [= <-].
    + rewrite lookup_insert_ne by done. apply Hid.
  - intros k xs e Hk He.
    apply (setdefault_lookup_inv _ _ _ _ _ Hk) in He as Hk0.
    destruct (Hout _ _ _ Hk0 He) as (Hs & Ht & (ys & Hys & Hey)).
    split; [done |]. split; [by apply Hkeep |].
    destruct (le_in _ _ Hys) as (ys' & Hys' & Hsub).
    exists ys'. split; [done | by apply Hsub].
  - intros k xs e Hk He.
    apply (setdefault_lookup_inv _ _ _ _ _ Hk) in He as Hk0.
    destruct (Hinc _ _ _ Hk0 He) as (Ht & Hs & (ys & Hys & Hey)).
    split; [done |]. split; [by apply Hkeep |].
    destruct (le_out _ _ Hys) as (ys' & Hys' & Hsub).
    exists ys'. split; [done | by apply Hsub].
Qed.

Lemma consistent_ensure_node node_id name kind meta g :
  consistent g → consistent (Graph.ensure_node node_id name kind meta g).1.
Proof.
  intros Hg. unfold Graph.ensure_node.
  destruct (Graph._nodes g !! node_id); [done |].
  by apply consistent_upsert_node.
Qed.

(** On a consistent graph that has both endpoints, [add_edge] goes through:
    the graph after it is the graph before with the edge put in the outgoing
    set of its source and in the incoming set of its target. *)
Lemma add_edge_present edge g :
  consistent g →
  is_Some (Graph._nodes g !! Edge.source edge) →
  is_Some (Graph._nodes g !! Edge.target edge) →
  ∃ xs ys,
    Graph._out_edges g !! Edge.source edge = Some xs
    ∧ Graph._in_edges g !! Edge.target edge = Some ys
    ∧ Graph.add_edge edge g
      = (Graph.mk (Graph._nodes g)
           (<[Edge.source edge := {[edge]} ∪ xs]> (Graph._out_edges g))
           (<[Edge.target edge := {[edge]} ∪ ys]> (Graph._in_edges g)),
         Returns edge).
Proof.
  intros (Ho & Hi & _) Hs Ht.
  destruct (proj1 (Ho _) Hs) as [xs Hxs]. destruct (proj1 (Hi _) Ht) as [ys Hys].
  exists xs, ys. split; [done |]. split; [done |].
  unfold Graph.add_edge, Graph.add_at.
  destruct Hs as [ns ->], Ht as [nt ->]. rewrite Hxs. simpl. by rewrite Hys.
Qed.

Lemma consistent_add_edge edge g :
  consistent g → consistent (Graph.add_edge edge g).1.
Proof.
  intros Hg.
  destruct (Graph._nodes g !! Edge.source edge) as [ns|] eqn:Hs;
    [| by rewrite add_edge_missing_source].
  destruct (Graph._nodes g !! Edge.target edge) as [nt|] eqn:Ht;
    [| by rewrite add_edge_missing_target].
  destruct (add_edge_present edge g Hg) as (xs & ys & Hxs & Hys & ->); [eauto.. |].
  destruct Hg as (Ho & Hi & Hid & Hout & Hinc).
  unfold consistent. simpl. split; [| split; [| split; [| split]]].
  - intros k. rewrite Ho. destruct (decide (Edge.source edge = k)) as [<- | Hne].
    + rewrite lookup_insert_eq, Hxs. split; eauto.
    + by rewrite lookup_insert_ne.
  - intros k. rewrite Hi. destruct (decide (Edge.target edge = k)) as [<- | Hne].
    + rewrite lookup_insert_eq, Hys. split; eauto.
    + by rewrite lookup_insert_ne.
  - done.
  - intros k zs e Hk He.
    assert (e = edge ∧ k = Edge.source edge
            ∨ ∃ zs0, Graph._out_edges g !! k = Some zs0 ∧ e ∈ zs0) as [[-> ->] | (zs0 & Hk0 & He0)].
    { destruct (decide (Edge.source edge = k)) as [<- | Hne].
      - rewrite lookup_insert_eq in Hk. injection Hk as <-.
        apply elem_of_union in He as [->%elem_of_singleton | He]; eauto.
      - rewrite lookup_insert_ne in Hk by done. eauto. }
    + split; [done |]. split; [eauto |].
      exists ({[edge]} ∪ ys). simpl. rewrite lookup_insert_eq. split; [done |].
      by apply elem_of_union_l, elem_of_singleton.
    + destruct (Hout _ _ _ Hk0 He0) as (Hsrc & Htgt & (ws & Hws & Hew)).
      split; [done |]. split; [done |].
      unfold has_in_edge. simpl.
      destruct (decide (Edge.target edge = Edge.target e)) as [Heq | Hne].
      * rewrite <- Heq, lookup_insert_eq. eexists. split; [done |].
        rewrite <- Heq, Hys in Hws. injection Hws as <-. by apply elem_of_union_r.
      * rewrite lookup_insert_ne by done. eauto.
  - intros k zs e Hk He.
    assert (e = edge ∧ k = Edge.target edge
            ∨ ∃ zs0, Graph._in_edges g !! k = Some zs0 ∧ e ∈ zs0) as [[-> ->] | (zs0 & Hk0 & He0)].
    { destruct (decide (Edge.target edge = k)) as [<- | Hne].
      - rewrite lookup_insert_eq in Hk. injection Hk as <-.
        apply elem_of_union in He as [->%elem_of_singleton | He]; eauto.
      - rewrite lookup_insert_ne in Hk by done. eauto. }
    + split; [done |]. split; [eauto |].
      exists ({[edge]} ∪ xs). simpl. rewrite lookup_insert_eq. split; [done |].
      by apply elem_of_union_l, elem_of_singleton.
    + destruct (Hinc _ _ _ Hk0 He0) as (Htgt & Hsrc & (ws & Hws & Hew)).
      split; [done |]. split; [done |].
      unfold has_edge. simpl.
      destruct (decide (Edge.source edge = Edge.source e)) as [Heq | Hne].
      * rewrite <- Heq, lookup_insert_eq. eexists. split; [done |].
        rewrite <- Heq, Hxs in Hws. injection Hws as <-. by apply elem_of_union_r.
      * rewrite lookup_insert_ne by done. eauto.
Qed.

Lemma built_consistent g : built g → consistent g.
Proof.
  induction 1; auto using consistent_new, consistent_upsert_node,
    consistent_ensure_node, consistent_add_edge.
Qed.

End built_graphs.

(** ** What [nodes()], [edges()], [successors] and [predecessors] give *)

Section traversals.
Import GraphFacts GraphInvariants.

Lemma concat_fmap_bind {A B} (f : A → list B) (l : list A) :
  concat (f <$> l) = l ≫= f.
Proof. induction l as [| x l IH]; csimpl; [done | by rewrite IH]. Qed.

Lemma elem_of_edges_index g e :
  e ∈ Graph.edges g
  ↔ ∃ k xs, Graph._out_edges g !! k = Some xs ∧ e ∈ xs.
Proof.
  unfold Graph.edges. rewrite concat_fmap_bind, list_elem_of_bind. split.
  - intros (xs & He & ([k xs'] & -> & Hkx)%list_elem_of_fmap).
    apply elem_of_map_to_list in Hkx. apply elem_of_elements in He. eauto.
  - intros (k & xs & Hk & He). exists xs. split; [by apply elem_of_elements |].
    apply list_elem_of_fmap. exists (k, xs). split; [done |].
    by apply elem_of_map_to_list.
Qed.

Lemma elem_of_edges g e : consistent g → e ∈ Graph.edges g ↔ has_edge g e.
Proof.
  intros (_ & _ & _ & Hout & _). rewrite elem_of_edges_index. split.
  - intros (k & xs & Hk & He). destruct (Hout _ _ _ Hk He) as (<- & _). by exists xs.
  - intros (xs & Hk & He). eauto.
Qed.

Lemma NoDup_edges g : consistent g → NoDup (Graph.edges g).
Proof.
  intros (_ & _ & _ & Hout & _). unfold Graph.edges.
  rewrite concat_fmap_bind, list_fmap_bind.
  apply NoDup_bind.
  - intros [k1 xs1] [k2 xs2] e H1%elem_of_map_to_list H2%elem_of_map_to_list
      He1 He2. simpl in He1, He2.
    apply elem_of_elements in He1, He2.
    destruct (Hout _ _ _ H1 He1) as (Hs1 & _).
    destruct (Hout _ _ _ H2 He2) as (Hs2 & _).
    assert (k1 = k2) as -> by congruence. congruence.
  - intros [k xs] _. apply NoDup_elements.
  - apply NoDup_map_to_list.
Qed.

Lemma elem_of_nodes g n :
  consistent g → n ∈ Graph.nodes g ↔ Graph._nodes g !! Node.id n = Some n.
Proof.
  intros (_ & _ & Hid & _). unfold Graph.nodes. rewrite list_elem_of_fmap. split.
  - intros ([k n'] & -> & Hkn%elem_of_map_to_list). simpl.
    by rewrite (Hid _ _ Hkn).
  - intros Hn. exists (Node.id n, n). split; [done | by apply elem_of_map_to_list].
Qed.

Lemma nodes_ids g :
  consistent g → Node.id <$> Graph.nodes g = (map_to_list (Graph._nodes g)).*1.
Proof.
  intros (_ & _ & Hid & _). unfold Graph.nodes. rewrite <- list_fmap_compose.
  apply list_fmap_ext. intros i [k n] Hkn. simpl.
  apply list_elem_of_lookup_2, elem_of_map_to_list in Hkn. by apply Hid.
Qed.

Lemma successors_spec g a kind n :
  n ∈ Graph.successors a kind g
  ↔ ∃ xs e, Graph._out_edges g !! a = Some xs ∧ e ∈ xs
            ∧ Graph.kind_matches kind e = true
            ∧ Graph._nodes g !! Edge.target e = Some n.
Proof.
  unfold Graph.successors. rewrite list_elem_of_bind. split.
  - intros (e & Hn & He%elem_of_elements).
    destruct (Graph._out_edges g !! a) as [xs|] eqn:Hk; simpl in He;
      [| by apply elem_of_empty in He].
    destruct (Graph.kind_matches kind e) eqn:Hkind; [| by apply elem_of_nil in Hn].
    destruct (Graph._nodes g !! Edge.target e) as [n'|] eqn:Ht;
      [| by apply elem_of_nil in Hn].
    apply list_elem_of_singleton in Hn as ->. eauto 10.
  - intros (xs & e & Hk & He & Hkind & Ht). exists e.
    rewrite Hkind, Ht, Hk. simpl. split; [by apply list_elem_of_singleton |].
    by apply elem_of_elements.
Qed.

Lemma predecessors_spec g b kind n :
  n ∈ Graph.predecessors b kind g
  ↔ ∃ xs e, Graph._in_edges g !! b = Some xs ∧ e ∈ xs
            ∧ Graph.kind_matches kind e = true
            ∧ Graph._nodes g !! Edge.source e = Some n.
Proof.
  unfold Graph.predecessors. rewrite list_elem_of_bind. split.
  - intros (e & Hn & He%elem_of_elements).
    destruct (Graph._in_edges g !! b) as [xs|] eqn:Hk; simpl in He;
      [| by apply elem_of_empty in He].
    destruct (Graph.kind_matches kind e) eqn:Hkind; [| by apply elem_of_nil in Hn].
    destruct (Graph._nodes g !! Edge.source e) as [n'|] eqn:Ht;
      [| by apply elem_of_nil in Hn].
    apply list_elem_of_singleton in Hn as ->. eauto 10.
  - intros (xs & e & Hk & He & Hkind & Ht). exists e.
    rewrite Hkind, Ht, Hk. simpl. split; [by apply list_elem_of_singleton |].
    by apply elem_of_elements.
Qed.

Lemma bind_length_one {A B} (f : A → list B) (l : list A) :
  (∀ x, x ∈ l → length (f x) = 1) → length (l ≫= f) = length l.
Proof.
  induction l as [| x l IH]; intros Hf; csimpl; [done |].
  rewrite length_app, Hf by apply list_elem_of_here.
  rewrite IH; [done |]. intros y Hy. apply Hf. by apply list_elem_of_further.
Qed.

End traversals.

(** ** The order of the metadata *)

Section meta_order.

Lemma string_compare_refl s : (s ?= s)%string = Eq.
Proof.
  pose proof (String.compare_antisym s s) as H.
  by destruct (s ?= s)%string.
Qed.

Lemma item_le_spec a b :
  item_le a b
  ↔ (a.1 ≠ b.1 ∧ String.le a.1 b.1) ∨ (a.1 = b.1 ∧ String.le a.2 b.2).
Proof.
  unfold item_le, item_leb, String.le, String.leb.
  destruct (String.compare a.1 b.1) eqn:Hc.
  - apply String.compare_eq_iff in Hc. rewrite Hc.
    split.
    + intros H. right. split; [done |]. by rewrite Is_true_true.
    + intros [[Hne _] | [_ H]]; [done |]. by apply Is_true_true.
  - assert (a.1 ≠ b.1) as Hne.
    { intros Heq. rewrite Heq, string_compare_refl in Hc. done. }
    split; [intros _; by left | done].
  - split; [done |]. intros [[_ H] | [Heq _]]; [done |].
    by rewrite Heq, string_compare_refl in Hc.
Qed.

#[local] Instance item_le_trans : Transitive item_le.
Proof.
  intros a b c. rewrite !item_le_spec.
  intros [[Hne1 H1] | [He1 H1]] [[Hne2 H2] | [He2 H2]].
  - left. split; [| by etrans]. intros Heq. rewrite <- Heq in H2.
    apply Hne1. by apply (anti_symm String.le).
  - left. rewrite <- He2. done.
  - left. rewrite He1. done.
  - right. split; [congruence | by etrans].
Qed.

#[local] Instance item_le_antisym : AntiSymm (=) item_le.
Proof.
  intros [a1 a2] [b1 b2]. rewrite !item_le_spec. simpl.
  intros [[Hne1 H1] | [He1 H1]] [[Hne2 H2] | [He2 H2]]; try congruence.
  - destruct Hne1. by apply (anti_symm String.le).
  - f_equal; [done |]. by apply (anti_symm String.le).
Qed.

#[local] Instance item_le_total : Total item_le.
Proof.
  intros a b. rewrite !item_le_spec.
  destruct (decide (a.1 = b.1)) as [Heq | Hne].
  - destruct (total String.le a.2 b.2); [left | right]; right; done.
  - destruct (total String.le a.1 b.1); [left | right]; left; split; done.
Qed.

Lemma insert_sorted_perm x l : insert_sorted x l ≡ₚ x :: l.
Proof.
  induction l as [| y l IH]; simpl; [done |].
  destruct (item_leb x y); [done |]. rewrite IH. apply Permutation_swap.
Qed.

Lemma sorted_perm l : sorted l ≡ₚ l.
Proof.
  induction l as [| x l IH]; simpl; [done |].
  by rewrite insert_sorted_perm, IH.
Qed.

Lemma insert_sorted_Sorted x l :
  Sorted item_le l → Sorted item_le (insert_sorted x l).
Proof.
  induction 1 as [| y l Hl IH Hhd]; simpl.
  - by repeat constructor.
  - destruct (item_leb x y) eqn:Hxy.
    + constructor; [by constructor |]. by constructor.
    + constructor; [done |].
      assert (item_le y x) as Hyx.
      { destruct (total item_le x y) as [H | H]; [| done].
        unfold item_le in H. congruence. }
      destruct l as [| z l]; simpl.
      * by constructor.
      * destruct (item_leb x z); constructor; [done |].
        by inversion Hhd.
Qed.

Lemma sorted_Sorted l : Sorted item_le (sorted l).
Proof.
  induction l as [| x l IH]; simpl; [constructor |].
  by apply insert_sorted_Sorted.
Qed.

Lemma sorted_permutation l1 l2 : l1 ≡ₚ l2 → sorted l1 = sorted l2.
Proof.
  intros Hperm. apply (Sorted_unique item_le); auto using sorted_Sorted.
  by rewrite !sorted_perm.
Qed.

Lemma dict_set_fresh k v d : k ∉ d.*1 → dict_set k v d = d ++ [(k, v)].
Proof.
  induction d as [| [k' v'] d IH]; simpl; [done |].
  intros Hk. apply not_elem_of_cons in Hk as [Hne Hk].
  destruct (decide (k' = k)); [congruence |]. by rewrite IH.
Qed.

Lemma dict_of_NoDup_go l acc :
  NoDup (acc ++ l).*1 →
  fold_left (fun d kv => dict_set kv.1 kv.2 d) l acc = acc ++ l.
Proof.
  revert acc. induction l as [| [k v] l IH]; intros acc Hnd; simpl.
  - by rewrite app_nil_r.
  - rewrite dict_set_fresh.
    + rewrite IH; rewrite <- (assoc_L (++)); done.
    + rewrite fmap_app in Hnd. simpl in Hnd.
      apply NoDup_app in Hnd as (_ & Hdisj & _).
      intros Hin. apply (Hdisj k Hin). apply list_elem_of_here.
Qed.

(** [dict(items)] of items with distinct keys holds these items, in order. *)
Lemma dict_of_NoDup l : NoDup l.*1 → dict_of l = l.
Proof. intros Hnd. unfold dict_of. by rewrite dict_of_NoDup_go. Qed.

End meta_order.

(** ** The extractor goes through [ensure_node] and [connect] only *)

Section extract_through_methods.
Import GraphFacts GraphInvariants.

(** A property of the graph that every [ensure_node] and every [connect]
    keeps is kept by [extract]. *)
Lemma extract_preserves (I : Graph.t → Prop) file_path text :
  (∀ node_id name kind meta,
     preserves I (Graph.ensure_node node_id name kind meta)) →
  (∀ source_id target_id kind meta,
     preserves I (Graph.connect source_id target_id kind meta)) →
  preserves I (HeuristicExtractor.extract file_path text).
Proof.
  intros Hensure Hconnect.
  unfold HeuristicExtractor.extract, HeuristicExtractor.import_at,
    HeuristicExtractor.definition_at, HeuristicExtractor.declaration_at,
    HeuristicExtractor.call_at, HeuristicExtractor.resource_at.
  repeat first
    [ apply preserves_ret
    | apply preserves_raise
    | apply Hensure
    | apply Hconnect
    | apply preserves_for_match; intros ?
    | apply preserves_for; intros ? _
    | apply preserves_bind; [| intros ?]
    | match goal with
      | |- preserves _ (match ?x with _ => _ end) => destruct x
      | |- preserves _ (let _ := _ in _) => cbv zeta
      end ].
Qed.

Lemma built_extract file_path text g :
  built g → built (HeuristicExtractor.extract file_path text g).1.
Proof.
  apply (extract_preserves built).
  - intros node_id name kind meta g0 Hg0. by constructor.
  - intros source_id target_id kind meta g0 Hg0. unfold Graph.connect.
    by constructor.
Qed.

End extract_through_methods.

Section extraction_shapes.
Import GraphFacts GraphInvariants ExtractionFacts.

(** *** When [extract] returns *)

Lemma extract_import_without_target file_path text g line :
  line ∈ Py.splitlines text → import_without_target line →
  (HeuristicExtractor.extract file_path text g).2 ≠ Returns tt.
Proof.
  intros Hline (m & Hm & Hempty) Hret.
  destruct (HeuristicExtractor.extract file_path text g) as [g1 r] eqn:Hrun.
  simpl in Hret. subst r. unfold HeuristicExtractor.extract in Hrun.
  apply bind_returns_inv in Hrun as (n & g0 & _ & Hrun). cbv zeta in Hrun.
  apply bind_returns_inv in Hrun as ([] & g2 & Himports & _).
  eapply for_returns_inv in Himports as (ga & gb & _ & Hbody & _);
    [| | exact Hline].
  - rewrite for_match_first, Hm in Hbody.
    unfold HeuristicExtractor.import_at in Hbody. cbv zeta in Hbody.
    by rewrite Hempty in Hbody.
  - intros y. apply settles_grows, settles_for_match. intros m'.
    apply settles_import_at.
Qed.

Lemma extract_outcome file_path text g :
  wf g →
  ((HeuristicExtractor.extract file_path text g).2 = Returns tt
   ↔ ∀ line, line ∈ Py.splitlines text → ¬ import_without_target line)
  ∧ ((HeuristicExtractor.extract file_path text g).2 ≠ Returns tt →
     (HeuristicExtractor.extract file_path text g).2
     = Raises (IndexError "list index out of range")).
Proof.
  intros Hwf. split; [split |].
  - intros Hret line Hline Hbad.
    by apply (extract_import_without_target file_path text g line).
  - intros Hgood. apply extract_returns; [done |].
    intros line m Hline Hm Hempty. apply (Hgood line Hline). by exists m.
  - intros Hnot.
    destruct (HeuristicExtractor.extract file_path text g).2 as [[] | e] eqn:Hr;
      [done |].
    f_equal. by apply (extract_raises_only_IndexError file_path text g).
Qed.

(** *** The shapes of the nodes *)

Lemma nodes_all_ensure_node P node_id name kind meta :
  P node_id (Node.from_meta node_id name kind meta) →
  preserves (nodes_all P) (Graph.ensure_node node_id name kind meta).
Proof.
  intros Hnew g Hg k n. destruct (decide (k = node_id)) as [-> | Hne].
  - destruct (Graph._nodes g !! node_id) as [n0|] eqn:Hk.
    + rewrite (ensure_node_present _ _ _ _ _ _ Hk). apply Hg.
    + rewrite (ensure_node_absent _ _ _ _ _ Hk). simpl.
      rewrite lookup_insert_eq. by intros [= <-].
  - rewrite ensure_node_other by done. apply Hg.
Qed.

Lemma nodes_all_connect P source_id target_id kind meta :
  preserves (nodes_all P) (Graph.connect source_id target_id kind meta).
Proof.
  intros g Hg k n. unfold Graph.connect. rewrite add_edge_nodes. apply Hg.
Qed.

Lemma edges_all_ensure_node P node_id name kind meta :
  preserves (edges_all P) (Graph.ensure_node node_id name kind meta).
Proof. intros g Hg e He. apply Hg. by eapply ensure_node_edges. Qed.

Lemma edges_all_connect (P : Edge.t → Prop) source_id target_id kind meta :
  P (Edge.from_meta source_id target_id kind meta) →
  preserves (edges_all P) (Graph.connect source_id target_id kind meta).
Proof.
  intros Hnew g Hg e He. apply add_edge_edges in He as [-> | He]; auto.
Qed.

Lemma node_shapes_extract file_path text :
  preserves (nodes_all (node_shape file_path))
    (HeuristicExtractor.extract file_path text).
Proof.
  unfold HeuristicExtractor.extract, HeuristicExtractor.import_at,
    HeuristicExtractor.definition_at, HeuristicExtractor.declaration_at,
    HeuristicExtractor.call_at, HeuristicExtractor.resource_at.
  repeat first
    [ apply preserves_ret
    | apply preserves_raise
    | apply nodes_all_connect
    | apply nodes_all_ensure_node; split; [reflexivity |]
    | apply preserves_for_match; intros ?
    | apply preserves_for; intros ? _
    | apply preserves_bind; [| intros ?]
    | match goal with
      | |- preserves _ (match ?x with _ => _ end) => destruct x
      | |- preserves _ (let _ := _ in _) => cbv zeta
      end ].
  all: unfold Node.from_meta; simpl.
  - by left.
  - right; left. eauto.
  - do 5 right. eexists _, _. split; [done |]. split; [done |].
    split; [| done]. repeat constructor.
  - right; right; left. eauto.
  - do 5 right. eexists _, _. split; [done |]. split; [done |].
    split; [| done]. repeat constructor.
  - do 5 right. eexists _, _. split; [done |]. split; [done |].
    split; [| done]. repeat constructor.
  - do 5 right. eexists _, _. split; [done |]. split; [done |].
    split; [| done]. repeat constructor.
  - do 3 right; left. eauto.
  - do 4 right; left. eauto.
Qed.

Lemma edge_shapes_extract file_path text :
  preserves (edges_all (edge_shape file_path))
    (HeuristicExtractor.extract file_path text).
Proof.
  unfold HeuristicExtractor.extract, HeuristicExtractor.import_at,
    HeuristicExtractor.definition_at, HeuristicExtractor.declaration_at,
    HeuristicExtractor.call_at, HeuristicExtractor.resource_at.
  repeat first
    [ apply preserves_ret
    | apply preserves_raise
    | apply edges_all_ensure_node
    | apply edges_all_connect; unfold edge_shape; simpl; solve [eauto]
    | apply preserves_for_match; intros ?
    | apply preserves_for; intros ? _
    | apply preserves_bind; [| intros ?]
    | match goal with
      | |- preserves _ (match ?x with _ => _ end) => destruct x
      | |- preserves _ (let _ := _ in _) => cbv zeta
      end ].
Qed.

End extraction_shapes.

(** ** What the scanner walks and what a scan leaves *)

Section scanner_facts.
Import GraphFacts GraphInvariants ExtractionFacts ScanFacts.
Variable fs : FileSystem.

Lemma elem_of_walk_paths self paths p :
  p ∈ Scanner.walk_paths fs self paths
  ↔ Scanner.should_include_file fs self p = true
    ∧ ((p ∈ paths ∧ isfile fs p = true)
       ∨ ∃ root_path entry filename,
           root_path ∈ paths ∧ isfile fs root_path = false
           ∧ entry ∈ walk fs (fun d => negb (bool_decide (d ∈ Scanner.ignores self))
                                      && negb (Py.startswith "." d)) root_path
           ∧ filename ∈ entry.2
           ∧ p = os_path.join entry.1 filename).
Proof.
  unfold Scanner.walk_paths. rewrite list_elem_of_bind. split.
  - intros (root_path & Hp & Hroot).
    destruct (isfile fs root_path) eqn:Hfile.
    + destruct (Scanner.should_include_file fs self root_path) eqn:Hinc;
        [| by apply elem_of_nil in Hp].
      apply list_elem_of_singleton in Hp as ->. split; [done |]. by left.
    + apply list_elem_of_bind in Hp as (entry & Hp & Hentry).
      apply list_elem_of_bind in Hp as (filename & Hp & Hname).
      destruct (Scanner.should_include_file fs self _) eqn:Hinc;
        [| by apply elem_of_nil in Hp].
      apply list_elem_of_singleton in Hp as ->. split; [done |].
      right. eauto 10.
  - intros (Hinc & [[Hp Hfile] | (root_path & entry & filename & Hroot & Hfile
                                  & Hentry & Hname & ->)]).
    + exists p. split; [| done]. rewrite Hfile, Hinc. apply list_elem_of_here.
    + exists root_path. split; [| done]. rewrite Hfile.
      apply list_elem_of_bind. exists entry. split; [| done].
      apply list_elem_of_bind. exists filename. split; [| done].
      rewrite Hinc. apply list_elem_of_here.
Qed.

Lemma should_include_file_true self path :
  Scanner.should_include_file fs self path = true →
  Py.startswith "." (os_path.basename path) = false
  ∧ (∀ part, part ∈ (Py.split_on "/" path).1 :: (Py.split_on "/" path).2 →
             part ∉ Scanner.ignores self).
Proof.
  unfold Scanner.should_include_file. cbv zeta.
  destruct (Py.startswith "." (os_path.basename path)); [done |].
  destruct (existsb _ _) eqn:Hex; [done |]. intros _. split; [done |].
  intros part Hpart Hin.
  assert (existsb (fun part => bool_decide (part ∈ Scanner.ignores self))
            ((Py.split_on "/" path).1 :: (Py.split_on "/" path).2) = true) as Htrue.
  { apply existsb_exists. exists part. split; [by apply list_elem_of_In |].
    by apply bool_decide_eq_true_2. }
  congruence.
Qed.

(** *** A scan whose files cannot be read *)

Lemma scan_file_unreadable self p g e :
  read_text fs p = Raises e → Scanner.scan_file fs self p g = (g, Returns tt).
Proof.
  intros He. unfold Scanner.scan_file, bind, try_except.
  pose proof (read_text_raises fs p) as Hread. rewrite He in Hread.
  rewrite He. simpl. by rewrite Hread.
Qed.

Lemma scan_files_unreadable self files g :
  (∀ p, p ∈ files → ∃ e, read_text fs p = Raises e) →
  for_ files (Scanner.scan_file fs self) g = (g, Returns tt).
Proof.
  induction files as [| p files IH]; intros Hall; simpl; [done |].
  destruct (Hall p) as [e He]; [apply list_elem_of_here |].
  unfold bind. rewrite (scan_file_unreadable self p g e He). apply IH.
  intros q Hq. apply Hall. by apply list_elem_of_further.
Qed.

(** *** A scan with the heuristic extractor alone *)

Lemma file_shapes_extract (processed : string → Prop) file_path text :
  processed file_path →
  preserves (nodes_all (file_shape processed))
    (HeuristicExtractor.extract file_path text).
Proof.
  intros Hprocessed.
  unfold HeuristicExtractor.extract, HeuristicExtractor.import_at,
    HeuristicExtractor.definition_at, HeuristicExtractor.declaration_at,
    HeuristicExtractor.call_at, HeuristicExtractor.resource_at.
  repeat first
    [ apply preserves_ret
    | apply preserves_raise
    | apply nodes_all_connect
    | apply nodes_all_ensure_node;
        let p := fresh in let H := fresh in
        intros p H;
        unfold Graph.node_id_for_file, Graph.node_id_for_symbol in H;
        first [ discriminate H
              | apply (inj (String.app _)) in H as <-; by split ]
    | apply preserves_for_match; intros ?
    | apply preserves_for; intros ? _
    | apply preserves_bind; [| intros ?]
    | match goal with
      | |- preserves _ (match ?x with _ => _ end) => destruct x
      | |- preserves _ (let _ := _ in _) => cbv zeta
      end ].
Qed.

Lemma extract_has_file_node file_path text g :
  is_Some (Graph._nodes (HeuristicExtractor.extract file_path text g).1
             !! Graph.node_id_for_file file_path).
Proof.
  destruct (ensure_node_returns (Graph.node_id_for_file file_path)
              (os_path.basename file_path) FILE (Some [("path", file_path)]) g)
    as (n & Hret & Hn).
  set (first := (Graph.ensure_node (Graph.node_id_for_file file_path)
                   (os_path.basename file_path) FILE
                   (Some [("path", file_path)]) g).1) in *.
  assert (HeuristicExtractor.extract file_path text g
          = HeuristicExtractor.extract file_path text first) as ->.
  { unfold HeuristicExtractor.extract, bind at 1.
    destruct (Graph.ensure_node (Graph.node_id_for_file file_path)
                (os_path.basename file_path) FILE
                (Some [("path", file_path)]) g) as [g0 r] eqn:Hfirst.
    simpl in Hret, first. subst r first.
    symmetry. unfold bind at 1.
    by rewrite (ensure_node_present _ _ _ _ g0 _ Hn). }
  exists n. eapply le_lookup; [| exact Hn].
  apply (settles_extract file_path text).
Qed.

Lemma attempt_file_heuristic self g p :
  Scanner.extractors self = [HeuristicExtractor.new] →
  attempt_file fs self g p
  = match read_text fs p with
    | Returns text => (HeuristicExtractor.extract p text g).1
    | Raises _ => g
    end.
Proof. intros Hext. unfold attempt_file. rewrite Hext. by destruct (read_text fs p). Qed.

Lemma attempt_file_heuristic_le self g p :
  Scanner.extractors self = [HeuristicExtractor.new] →
  le g (attempt_file fs self g p).
Proof.
  intros Hext. rewrite attempt_file_heuristic by done.
  destruct (read_text fs p); [apply (settles_extract p) | apply le_refl].
Qed.

Lemma fold_attempt_file_le self files g :
  Scanner.extractors self = [HeuristicExtractor.new] →
  le g (fold_left (attempt_file fs self) files g).
Proof.
  intros Hext. revert g. induction files as [| p files IH]; intros g; simpl;
    [apply le_refl |].
  eapply le_trans; [by apply attempt_file_heuristic_le | apply IH].
Qed.

Lemma fold_attempt_file_heuristic self (processed : string → Prop) files g :
  Scanner.extractors self = [HeuristicExtractor.new] →
  (∀ p text, p ∈ files → read_text fs p = Returns text → processed p) →
  built g → nodes_all (file_shape processed) g →
  let g' := fold_left (attempt_file fs self) files g in
  built g'
  ∧ nodes_all (file_shape processed) g'
  ∧ ∀ p text, p ∈ files → read_text fs p = Returns text →
      is_Some (Graph._nodes g' !! Graph.node_id_for_file p).
Proof.
  intros Hext. revert g. induction files as [| q files IH];
    intros g Hprocessed Hbuilt Hshape; simpl.
  - split; [done |]. split; [done |]. intros p text Hp. by apply elem_of_nil in Hp.
  - assert (built (attempt_file fs self g q)
            ∧ nodes_all (file_shape processed) (attempt_file fs self g q)
            ∧ ∀ text, read_text fs q = Returns text →
                is_Some (Graph._nodes (attempt_file fs self g q)
                           !! Graph.node_id_for_file q)) as (Hb & Hs & Hq).
    { rewrite attempt_file_heuristic by done.
      destruct (read_text fs q) as [text | e] eqn:Hread.
      - split; [by apply built_extract |]. split.
        + apply file_shapes_extract; [| done].
          eapply Hprocessed; [apply list_elem_of_here | done].
        + intros _ _. apply extract_has_file_node.
      - split; [done |]. split; [done |]. by intros text. }
    destruct (IH (attempt_file fs self g q)) as (Hb' & Hs' & Hfiles); [| done..|].
    { intros p text Hp. apply Hprocessed. by apply list_elem_of_further. }
    split; [done |]. split; [done |].
    intros p text [-> | Hp]%elem_of_cons Hread; [| by eapply Hfiles].
    destruct (Hq text Hread) as [n Hn]. exists n.
    eapply le_lookup; [by apply fold_attempt_file_le | done].
Qed.

End scanner_facts.

(** ** [subgraph] *)

Section subgraph_facts.
Import GraphFacts GraphInvariants.

Lemma upsert_node_has_edge node g e :
  has_edge (Graph.upsert_node node g).1 e ↔ has_edge g e.
Proof.
  unfold has_edge. simpl. split.
  - intros (xs & Hk & He). exists xs. split; [| done].
    by eapply setdefault_lookup_inv.
  - intros (xs & Hk & He).
    destruct (setdefault_le (Node.id node) (Graph._out_edges g) _ _ Hk)
      as (xs' & Hk' & Hsub).
    exists xs'. split; [done | set_solver].
Qed.

Lemma upsert_node_has_in_edge node g e :
  has_in_edge (Graph.upsert_node node g).1 e ↔ has_in_edge g e.
Proof.
  unfold has_in_edge. simpl. split.
  - intros (xs & Hk & He). exists xs. split; [| done].
    by eapply setdefault_lookup_inv.
  - intros (xs & Hk & He).
    destruct (setdefault_le (Node.id node) (Graph._in_edges g) _ _ Hk)
      as (xs' & Hk' & Hsub).
    exists xs'. split; [done | set_solver].
Qed.

(** One turn of the first loop. *)
Lemma subgraph_node_spec self x sub :
  consistent self → built sub →
  (Graph.subgraph_node self x sub).2 = Returns tt
  ∧ built (Graph.subgraph_node self x sub).1
  ∧ (∀ e, has_edge (Graph.subgraph_node self x sub).1 e ↔ has_edge sub e)
  ∧ (∀ k, Graph._nodes (Graph.subgraph_node self x sub).1 !! k
          = if decide (k = x ∧ is_Some (Graph._nodes self !! k))
            then Graph._nodes self !! k else Graph._nodes sub !! k).
Proof.
  intros Hself Hsub. unfold Graph.subgraph_node.
  destruct (Graph._nodes self !! x) as [node|] eqn:Hx.
  - unfold bind, ret, Graph.upsert_node. cbn [fst snd].
    split; [done |]. split; [by apply (built_upsert_node sub node) |]. split.
    { intros e. apply (upsert_node_has_edge node sub e). }
    intros k. assert (Node.id node = x) as Hid by (by apply Hself in Hx).
    cbn [Graph._nodes].
    destruct (decide (k = x ∧ _)) as [[-> _] | Hnot].
    + by rewrite Hid, lookup_insert_eq.
    + rewrite lookup_insert_ne; [done |]. rewrite Hid. intros <-.
      apply Hnot. split; [done | eauto].
  - unfold ret. cbn [fst snd].
    split; [done |]. split; [done |]. split; [done |]. intros k.
    rewrite decide_False; [done |]. intros [-> Hs]. rewrite Hx in Hs.
    by destruct Hs.
Qed.

(** The first loop: on a consistent [self], the new graph gets the nodes of
    [self] whose ids are among [ids], and no edge. *)
Lemma subgraph_nodes_loop self (ids : list string) sub :
  consistent self → built sub →
  (for_ ids (Graph.subgraph_node self) sub).2 = Returns tt
  ∧ built (for_ ids (Graph.subgraph_node self) sub).1
  ∧ (∀ e, has_edge (for_ ids (Graph.subgraph_node self) sub).1 e
          ↔ has_edge sub e)
  ∧ (∀ k, Graph._nodes (for_ ids (Graph.subgraph_node self) sub).1 !! k
          = if decide (k ∈ ids ∧ is_Some (Graph._nodes self !! k))
            then Graph._nodes self !! k else Graph._nodes sub !! k).
Proof.
  intros Hself. revert sub. induction ids as [| x ids IH]; intros sub Hsub.
  - unfold for_, ret. cbn [fst snd].
    split; [done |]. split; [done |]. split; [done |]. intros k.
    rewrite decide_False; [done |]. intros [Hk _]. by apply elem_of_nil in Hk.
  - destruct (subgraph_node_spec self x sub Hself Hsub)
      as (Hret1 & Hbuilt1 & Hedges1 & Hnodes1).
    assert (for_ (x :: ids) (Graph.subgraph_node self) sub
            = for_ ids (Graph.subgraph_node self)
                (Graph.subgraph_node self x sub).1) as ->.
    { simpl. unfold bind. destruct (Graph.subgraph_node self x sub) as [s1 r1].
      simpl in Hret1. by subst r1. }
    destruct (IH _ Hbuilt1) as (Hret & Hbuilt & Hedges & Hnodes).
    split; [done |]. split; [done |]. split.
    { intros e. by rewrite Hedges. }
    intros k. rewrite Hnodes, Hnodes1.
    destruct (decide (k ∈ ids ∧ _)) as [[Hk Hs] | Hnot].
    + rewrite decide_True; [done |]. split; [by apply list_elem_of_further | done].
    + destruct (decide (k = x ∧ _)) as [[-> Hs] | Hnot'].
      * rewrite decide_True; [done |]. split; [apply list_elem_of_here | done].
      * rewrite decide_False; [done |].
        intros [[-> | Hk]%elem_of_cons Hs]; [by apply Hnot' | by apply Hnot].
Qed.

(** The second loop: on a graph that has the endpoints of the edges it is to
    take, every [add_edge] returns. *)
Lemma subgraph_edges_loop (ids : gset string) (edges : list Edge.t) sub :
  built sub →
  (∀ e, e ∈ edges → Edge.source e ∈ ids → Edge.target e ∈ ids →
        is_Some (Graph._nodes sub !! Edge.source e)
        ∧ is_Some (Graph._nodes sub !! Edge.target e)) →
  (for_ edges (Graph.subgraph_edge ids) sub).2 = Returns tt
  ∧ built (for_ edges (Graph.subgraph_edge ids) sub).1
  ∧ Graph._nodes (for_ edges (Graph.subgraph_edge ids) sub).1 = Graph._nodes sub
  ∧ (∀ e, has_edge (for_ edges (Graph.subgraph_edge ids) sub).1 e
          ↔ has_edge sub e
            ∨ (e ∈ edges ∧ Edge.source e ∈ ids ∧ Edge.target e ∈ ids)).
Proof.
  revert sub. induction edges as [| x edges IH]; intros sub Hsub Hends.
  - simpl. split; [done |]. split; [done |]. split; [done |].
    intros e. split; [by left |].
    intros [He | [He _]]; [done | by apply elem_of_nil in He].
  - assert (∃ sub1,
              for_ (x :: edges) (Graph.subgraph_edge ids) sub
              = for_ edges (Graph.subgraph_edge ids) sub1
              ∧ built sub1 ∧ Graph._nodes sub1 = Graph._nodes sub
              ∧ ∀ e, has_edge sub1 e
                     ↔ has_edge sub e
                       ∨ (e = x ∧ Edge.source e ∈ ids ∧ Edge.target e ∈ ids))
      as (sub1 & -> & Hbuilt1 & Hnodes1 & Hedges1).
    { simpl. unfold bind at 1, Graph.subgraph_edge at 1.
      destruct (bool_decide (Edge.source x ∈ ids)
                && bool_decide (Edge.target x ∈ ids)) eqn:Hin.
      - apply andb_true_iff in Hin
          as [Hs%bool_decide_eq_true_1 Ht%bool_decide_eq_true_1].
        destruct (Hends x) as [Hsn Htn]; [apply list_elem_of_here | done.. |].
        destruct (add_edge_present x sub (built_consistent _ Hsub) Hsn Htn)
          as (xs & ys & Hxs & Hys & Hadd).
        pose proof (built_add_edge sub x Hsub) as Hb.
        pose proof (add_edge_edges x sub) as Hinv.
        pose proof (add_edge_returns_inv x sub _ _ Hadd) as Hnew.
        pose proof (add_edge_le x sub) as Hle.
        pose proof (add_edge_nodes x sub) as Hn.
        unfold bind at 1. destruct (Graph.add_edge x sub) as [sub1 r].
        injection Hadd as Hsub1 ->. simpl in *.
        exists sub1. split; [done |]. split; [done |]. split; [done |].
        intros e. split.
        + intros [-> | He]%Hinv; [right | left]; done.
        + intros [He | (-> & _)]; [by eapply le_has_edge | by rewrite Hsub1].
      - simpl. exists sub. split; [done |]. split; [done |]. split; [done |].
        intros e. split; [by left |]. intros [He | (-> & Hs & Ht)]; [done |].
        apply andb_false_iff in Hin as [Hf | Hf];
          apply bool_decide_eq_false_1 in Hf; done. }
    destruct (IH sub1 Hbuilt1) as (Hret & Hbuilt & Hnodes & Hedges).
    { intros e He. rewrite Hnodes1. apply Hends. by apply list_elem_of_further. }
    split; [done |]. split; [done |]. split; [congruence |].
    intros e. rewrite Hedges, Hedges1, elem_of_cons. split.
    + intros [[He | (-> & Hs & Ht)] | (He & Hs & Ht)]; eauto.
    + intros [He | ([-> | He] & Hs & Ht)]; eauto.
Qed.

Lemma subgraph_spec (ids : gset string) self :
  consistent self →
  ∃ sub,
    Graph.subgraph ids self = Returns sub
    ∧ built sub
    ∧ (∀ k, Graph._nodes sub !! k
            = if decide (k ∈ ids) then Graph._nodes self !! k else None)
    ∧ (∀ e, has_edge sub e
            ↔ has_edge self e ∧ Edge.source e ∈ ids ∧ Edge.target e ∈ ids).
Proof.
  intros Hself. unfold Graph.subgraph. cbv zeta. unfold bind.
  destruct (subgraph_nodes_loop self (elements ids) Graph.new Hself built_new)
    as (Hret1 & Hbuilt1 & Hedges1 & Hnodes1).
  destruct (for_ (elements ids) _ Graph.new) as [sub1 r1]. simpl in *. subst r1.
  assert (∀ k, Graph._nodes sub1 !! k
               = if decide (k ∈ ids) then Graph._nodes self !! k else None)
    as Hnodes.
  { intros k. rewrite Hnodes1, lookup_empty.
    destruct (decide (k ∈ ids)) as [Hk | Hk].
    - destruct (decide (k ∈ elements ids ∧ is_Some (Graph._nodes self !! k)))
        as [_ | Hnot]; [done |].
      destruct (Graph._nodes self !! k) eqn:Hs; [| done].
      destruct Hnot. split; [by apply elem_of_elements | eauto].
    - rewrite decide_False; [done |].
      intros [Hin%elem_of_elements _]. done. }
  destruct (subgraph_edges_loop ids (Graph.edges self) sub1 Hbuilt1)
    as (Hret2 & Hbuilt2 & Hnodes2 & Hedges2).
  { intros e He%(elem_of_edges _ _ Hself) Hs Ht.
    pose proof Hself as (Ho & _ & _ & Hout & _).
    destruct He as (xs & Hk & He). destruct (Hout _ _ _ Hk He) as (_ & Htn & _).
    rewrite !Hnodes, !decide_True by done. split; [| done].
    apply Ho. eauto. }
  destruct (for_ (Graph.edges self) _ sub1) as [sub2 r2]. simpl in *. subst r2.
  exists sub2. split; [done |]. split; [done |]. split.
  - intros k. by rewrite Hnodes2.
  - intros e. rewrite Hedges2, (elem_of_edges _ _ Hself). split.
    + intros [He | ?]; [| done]. apply Hedges1 in He.
      destruct He as (xs & Hk & _). simpl in Hk. by rewrite lookup_empty in Hk.
    + intros ?. by right.
Qed.

End subgraph_facts.

(** ** The escaping of the DOT exporter *)

Section dot_escape.

Lemma escape_head s : String.get 0 (dot_exporter.escape s) ≠ Some "034"%char.
Proof.
  destruct s as [| c s]; simpl; [done |].
  destruct (Ascii.eqb c "034") eqn:Hc; simpl; [done |].
  intros [= ->]. by rewrite Ascii.eqb_refl in Hc.
Qed.

Lemma escape_quotes s i :
  String.get i (dot_exporter.escape s) = Some "034"%char →
  ∃ j, i = S j ∧ String.get j (dot_exporter.escape s) = Some "092"%char.
Proof.
  revert i. induction s as [| c s IH]; intros i; simpl; [by destruct i |].
  destruct (Ascii.eqb c "034") eqn:Hc.
  - destruct i as [| [| i]]; simpl; [done | eauto |].
    intros (j & -> & Hj)%IH. exists (S (S j)). by split.
  - destruct i as [| i]; simpl.
    + intros [= ->]. by rewrite Ascii.eqb_refl in Hc.
    + intros (j & -> & Hj)%IH. exists (S j). by split.
Qed.

Lemma escape_inj s1 s2 :
  dot_exporter.escape s1 = dot_exporter.escape s2 → s1 = s2.
Proof.
  revert s2. induction s1 as [| c1 s1 IH]; intros [| c2 s2]; simpl.
  - done.
  - by destruct (Ascii.eqb c2 "034").
  - by destruct (Ascii.eqb c1 "034").
  - destruct (Ascii.eqb c1 "034") eqn:H1, (Ascii.eqb c2 "034") eqn:H2.
    + apply Ascii.eqb_eq in H1, H2. intros [= Heq]. f_equal; [congruence | auto].
    + intros [= <- Heq]. exfalso. apply (escape_head s2). by rewrite <- Heq.
    + intros [= -> Heq]. exfalso. apply (escape_head s1). by rewrite Heq.
    + intros [= -> Heq]. f_equal. auto.
Qed.

End dot_escape.

(** ** Further properties of the graph store *)

Section store_properties.
Import GraphFacts GraphInvariants.

Lemma small_graph_built : built Fixtures.small_graph.
Proof.
  unfold Fixtures.small_graph, Graph.connect.
  apply built_add_edge, built_ensure_node, built_ensure_node, built_new.
Defined.

(** X1.  Every graph built from [Graph()] through [upsert_node],
    [ensure_node] and [add_edge] is consistent: the node store and the two
    adjacency indexes have the same keys, a node is stored under its own id,
    and an edge stored in one index has both its endpoints in the node store
    and is stored in the other index too. *)
Theorem built_graph_is_consistent (g : Graph.t) : built g → consistent g.
Proof. apply built_consistent. Qed.

Lemma built_graph_is_consistent_witness :
  built Fixtures.small_graph ∧ consistent Fixtures.small_graph.
Proof.
  split; [exact small_graph_built |].
  exact (built_graph_is_consistent Fixtures.small_graph small_graph_built).
Defined.

(** X2.  On a graph built through the methods that has both endpoints,
    [add_edge] returns the edge, leaves the node store as it is, and the edges
    stored afterwards are the edge and those stored before; the edge is in the
    incoming index too. *)
Theorem add_edge_on_built_graph (g : Graph.t) (edge : Edge.t) :
  built g →
  is_Some (Graph._nodes g !! Edge.source edge) →
  is_Some (Graph._nodes g !! Edge.target edge) →
  (Graph.add_edge edge g).2 = Returns edge
  ∧ Graph._nodes (Graph.add_edge edge g).1 = Graph._nodes g
  ∧ (∀ e, has_edge (Graph.add_edge edge g).1 e ↔ e = edge ∨ has_edge g e)
  ∧ has_in_edge (Graph.add_edge edge g).1 edge.
Proof.
  intros Hg%built_consistent Hs Ht.
  destruct (add_edge_returns edge g (consistent_wf g Hg) Hs Ht)
    as (Hret & Hout & Hinc).
  split; [done |]. split; [apply add_edge_nodes |]. split; [| done].
  intros e. split; [apply add_edge_edges |].
  intros [-> | He]; [done |]. eapply le_has_edge; [apply add_edge_le | done].
Qed.

Lemma add_edge_on_built_graph_witness :
  built Fixtures.small_graph
  ∧ is_Some (Graph._nodes Fixtures.small_graph
               !! Edge.source (Edge.mk "b" "a" REFERENCES []))
  ∧ is_Some (Graph._nodes Fixtures.small_graph
               !! Edge.target (Edge.mk "b" "a" REFERENCES []))
  ∧ (Graph.add_edge (Edge.mk "b" "a" REFERENCES []) Fixtures.small_graph).2
    = Returns (Edge.mk "b" "a" REFERENCES []).
Proof.
  assert (is_Some (Graph._nodes Fixtures.small_graph !! "b")) as Hb
    by (eexists; vm_compute; reflexivity).
  assert (is_Some (Graph._nodes Fixtures.small_graph !! "a")) as Ha
    by (eexists; vm_compute; reflexivity).
  split; [exact small_graph_built |]. split; [exact Hb |]. split; [exact Ha |].
  exact (proj1 (add_edge_on_built_graph Fixtures.small_graph
                  (Edge.mk "b" "a" REFERENCES []) small_graph_built Hb Ha)).
Defined.

(** X3.  Adding an edge a second time changes nothing: [add_edge] on the
    graph that a first [add_edge] of the same edge left gives that graph and
    the same outcome, whatever the graph and whether the first call returned
    or raised. *)
Theorem add_edge_twice_is_once (g : Graph.t) (edge : Edge.t) :
  Graph.add_edge edge (Graph.add_edge edge g).1 = Graph.add_edge edge g.
Proof.
  destruct (settles_add_edge edge g) as [_ Hagain].
  destruct (Graph.add_edge edge g) as [g1 [e | x]] eqn:Hrun; simpl in *.
  - apply Hagain, le_refl.
  - exact Hagain.
Qed.

(** X4.  [upsert_node] stores the node under its id, whatever was stored
    there, changes no other node and keeps every edge of both indexes, those
    of a node it replaces included. *)
Theorem upsert_node_replaces_node_keeps_edges (g : Graph.t) (node : Node.t) :
  (Graph.upsert_node node g).2 = Returns node
  ∧ Graph._nodes (Graph.upsert_node node g).1 !! Node.id node = Some node
  ∧ (∀ k, k ≠ Node.id node →
          Graph._nodes (Graph.upsert_node node g).1 !! k = Graph._nodes g !! k)
  ∧ (∀ e, has_edge (Graph.upsert_node node g).1 e ↔ has_edge g e)
  ∧ (∀ e, has_in_edge (Graph.upsert_node node g).1 e ↔ has_in_edge g e).
Proof.
  split; [done |]. split; [simpl; by rewrite lookup_insert_eq |]. split.
  { intros k Hk. simpl. by rewrite lookup_insert_ne. }
  split; [apply upsert_node_has_edge | apply upsert_node_has_in_edge].
Qed.

(** X5.  On a graph built through the methods, [nodes()] gives every stored
    node once (the ids of the nodes it gives are distinct) and [edges()] every
    stored edge once. *)
Theorem nodes_and_edges_enumerate_the_store (g : Graph.t) :
  built g →
  (∀ n, n ∈ Graph.nodes g ↔ Graph._nodes g !! Node.id n = Some n)
  ∧ NoDup (Node.id <$> Graph.nodes g)
  ∧ (∀ e, e ∈ Graph.edges g ↔ has_edge g e)
  ∧ NoDup (Graph.edges g).
Proof.
  intros Hg%built_consistent.
  split; [intros n; by apply elem_of_nodes |]. split.
  { rewrite nodes_ids by done. apply NoDup_fst_map_to_list. }
  split; [intros e; by apply elem_of_edges | by apply NoDup_edges].
Qed.

Lemma nodes_and_edges_enumerate_the_store_witness :
  built Fixtures.small_graph
  ∧ NoDup (Node.id <$> Graph.nodes Fixtures.small_graph)
  ∧ NoDup (Graph.edges Fixtures.small_graph).
Proof.
  split; [exact small_graph_built |].
  destruct (nodes_and_edges_enumerate_the_store Fixtures.small_graph
              small_graph_built) as (_ & Hids & _ & Hedges).
  split; [exact Hids | exact Hedges].
Defined.

(** X6.  On a graph built through the methods, [successors] and
    [predecessors] are two views of the same edges: for stored nodes [na]
    under [a] and [nb] under [b], [nb] is among the successors of [a], for a
    kind or for all kinds, exactly when [na] is among the predecessors of
    [b]. *)
Theorem successors_predecessors_dual (g : Graph.t) (a b : string)
    (na nb : Node.t) (kind : option EdgeKind) :
  built g →
  Graph._nodes g !! a = Some na → Graph._nodes g !! b = Some nb →
  nb ∈ Graph.successors a kind g ↔ na ∈ Graph.predecessors b kind g.
Proof.
  intros (Ho & Hi & Hid & Hout & Hinc)%built_consistent Ha Hb.
  rewrite successors_spec, predecessors_spec. split.
  - intros (xs & e & Hk & He & Hkind & Ht).
    destruct (Hout _ _ _ Hk He) as (Hs & _ & (ys & Hys & Hey)).
    assert (Edge.target e = b) as Htb.
    { rewrite <- (Hid _ _ Ht). by apply Hid. }
    exists ys, e. rewrite <- Htb. split; [done |]. split; [done |].
    split; [done |]. by rewrite Hs.
  - intros (ys & e & Hk & He & Hkind & Hs).
    destruct (Hinc _ _ _ Hk He) as (Ht & _ & (xs & Hxs & Hex)).
    assert (Edge.source e = a) as Hsa.
    { rewrite <- (Hid _ _ Hs). by apply Hid. }
    exists xs, e. rewrite <- Hsa. split; [done |]. split; [done |].
    split; [done |]. by rewrite Ht.
Qed.

Lemma successors_predecessors_dual_witness :
  built Fixtures.small_graph
  ∧ Graph._nodes Fixtures.small_graph !! "a" = Some (Node.mk "a" "a" FILE [])
  ∧ Graph._nodes Fixtures.small_graph !! "b" = Some (Node.mk "b" "b" TYPE [])
  ∧ (Node.mk "b" "b" TYPE [] ∈ Graph.successors "a" (Some CALLS) Fixtures.small_graph
     ↔ Node.mk "a" "a" FILE [] ∈ Graph.predecessors "b" (Some CALLS) Fixtures.small_graph).
Proof.
  assert (Graph._nodes Fixtures.small_graph !! "a" = Some (Node.mk "a" "a" FILE []))
    as Ha by (vm_compute; reflexivity).
  assert (Graph._nodes Fixtures.small_graph !! "b" = Some (Node.mk "b" "b" TYPE []))
    as Hb by (vm_compute; reflexivity).
  split; [exact small_graph_built |]. split; [exact Ha |]. split; [exact Hb |].
  exact (successors_predecessors_dual Fixtures.small_graph "a" "b" _ _
           (Some CALLS) small_graph_built Ha Hb).
Defined.

(** X7.  On a graph built through the methods, the test [if n:] of
    [successors] and [predecessors] never skips an edge: without a kind, each
    yields as many nodes as the node has outgoing, respectively incoming,
    edges. *)
Theorem successors_skip_no_edge (g : Graph.t) (a : string) :
  built g →
  length (Graph.successors a None g)
  = size (default ∅ (Graph._out_edges g !! a))
  ∧ length (Graph.predecessors a None g)
    = size (default ∅ (Graph._in_edges g !! a)).
Proof.
  intros (Ho & Hi & Hid & Hout & Hinc)%built_consistent.
  unfold Graph.successors, Graph.predecessors, size, set_size. simpl. split.
  - apply bind_length_one. intros e He%elem_of_elements.
    destruct (Graph._out_edges g !! a) as [xs|] eqn:Hk; simpl in He;
      [| by apply elem_of_empty in He].
    destruct (Hout _ _ _ Hk He) as (_ & [n ->] & _). done.
  - apply bind_length_one. intros e He%elem_of_elements.
    destruct (Graph._in_edges g !! a) as [xs|] eqn:Hk; simpl in He;
      [| by apply elem_of_empty in He].
    destruct (Hinc _ _ _ Hk He) as (_ & [n ->] & _). done.
Qed.

Lemma successors_skip_no_edge_witness :
  built Fixtures.small_graph
  ∧ length (Graph.successors "a" None Fixtures.small_graph)
    = size (default ∅ (Graph._out_edges Fixtures.small_graph !! "a")).
Proof.
  split; [exact small_graph_built |].
  exact (proj1 (successors_skip_no_edge Fixtures.small_graph "a"
                  small_graph_built)).
Defined.

(** X8.  The metadata is normalised: two dicts that hold the same items in
    a different insertion order give the same [Node] and the same [Edge]. *)
Theorem from_meta_ignores_insertion_order (m1 m2 : Dict)
    (node_id name : string) (nkind : NodeKind)
    (source target : string) (ekind : EdgeKind) :
  m1 ≡ₚ m2 →
  Node.from_meta node_id name nkind (Some m1)
  = Node.from_meta node_id name nkind (Some m2)
  ∧ Edge.from_meta source target ekind (Some m1)
    = Edge.from_meta source target ekind (Some m2).
Proof.
  intros Hperm. unfold Node.from_meta, Edge.from_meta. simpl.
  by rewrite (sorted_permutation m1 m2 Hperm).
Qed.

Lemma from_meta_ignores_insertion_order_witness :
  [("line", "3"); ("file", "a.py")] ≡ₚ [("file", "a.py"); ("line", "3")]
  ∧ Node.from_meta "symbol:a.py:f" "f" FUNCTION
      (Some [("line", "3"); ("file", "a.py")])
    = Node.from_meta "symbol:a.py:f" "f" FUNCTION
        (Some [("file", "a.py"); ("line", "3")]).
Proof.
  assert ([("line", "3"); ("file", "a.py")] ≡ₚ [("file", "a.py"); ("line", "3")])
    as Hperm by apply Permutation_swap.
  split; [exact Hperm |].
  exact (proj1 (from_meta_ignores_insertion_order _ _ "symbol:a.py:f" "f"
                  FUNCTION "a" "b" CALLS Hperm)).
Defined.

(** X9.  Round trip of the metadata: for a dict (items with distinct keys),
    [meta_dict()] of the node or edge that [from_meta] builds holds the items
    of the dict and no other, sorted by key. *)
Theorem meta_dict_round_trip (d : Dict) (node_id name : string)
    (nkind : NodeKind) (source target : string) (ekind : EdgeKind) :
  NoDup d.*1 →
  Node.meta_dict (Node.from_meta node_id name nkind (Some d)) ≡ₚ d
  ∧ Edge.meta_dict (Edge.from_meta source target ekind (Some d)) ≡ₚ d
  ∧ Sorted item_le (Node.meta_dict (Node.from_meta node_id name nkind (Some d))).
Proof.
  intros Hnd. unfold Node.meta_dict, Edge.meta_dict, Node.from_meta,
    Edge.from_meta. simpl.
  rewrite dict_of_NoDup.
  - split; [apply sorted_perm |]. split; [apply sorted_perm | apply sorted_Sorted].
  - by rewrite sorted_perm.
Qed.

Lemma meta_dict_round_trip_witness :
  NoDup [("line", "3"); ("file", "a.py")].*1
  ∧ Node.meta_dict (Node.from_meta "symbol:a.py:f" "f" FUNCTION
                      (Some [("line", "3"); ("file", "a.py")]))
    ≡ₚ [("line", "3"); ("file", "a.py")].
Proof.
  assert (NoDup [("line", "3"); ("file", "a.py")].*1) as Hnd by compute_done.
  split; [exact Hnd |].
  exact (proj1 (meta_dict_round_trip _ "symbol:a.py:f" "f" FUNCTION "a" "b" CALLS Hnd)).
Defined.

(** X10.  On a graph built through the methods, [subgraph] returns (its
    [add_edge] never raises), and the graph it returns, itself consistent,
    holds the nodes whose ids are in [node_ids] and the edges whose two
    endpoints are in [node_ids]. *)
Theorem subgraph_of_built_graph (node_ids : gset string) (self : Graph.t) :
  built self →
  ∃ sub,
    Graph.subgraph node_ids self = Returns sub
    ∧ consistent sub
    ∧ (∀ k, Graph._nodes sub !! k
            = if decide (k ∈ node_ids) then Graph._nodes self !! k else None)
    ∧ (∀ e, has_edge sub e
            ↔ has_edge self e ∧ Edge.source e ∈ node_ids
              ∧ Edge.target e ∈ node_ids).
Proof.
  intros Hself%built_consistent.
  destruct (subgraph_spec node_ids self Hself)
    as (sub & Hret & Hbuilt & Hnodes & Hedges).
  exists sub. split; [done |]. split; [by apply built_consistent | done].
Qed.

Lemma subgraph_of_built_graph_witness :
  built Fixtures.small_graph
  ∧ ∃ sub, Graph.subgraph {[ "a" ]} Fixtures.small_graph = Returns sub
           ∧ consistent sub.
Proof.
  split; [exact small_graph_built |].
  destruct (subgraph_of_built_graph {[ "a" ]} Fixtures.small_graph
              small_graph_built) as (sub & Hret & Hsub & _).
  exists sub. split; [exact Hret | exact Hsub].
Defined.

End store_properties.

(** ** Further properties of the extraction *)

Section extraction_properties.
Import GraphFacts GraphInvariants ExtractionFacts.

Lemma extract_after_file_node file_path text g :
  le (Graph.ensure_node (Graph.node_id_for_file file_path)
        (os_path.basename file_path) FILE (Some [("path", file_path)]) g).1
     (HeuristicExtractor.extract file_path text g).1.
Proof.
  destruct (ensure_node_returns (Graph.node_id_for_file file_path)
              (os_path.basename file_path) FILE (Some [("path", file_path)]) g)
    as (n & Hret & Hn).
  set (first := (Graph.ensure_node (Graph.node_id_for_file file_path)
                   (os_path.basename file_path) FILE
                   (Some [("path", file_path)]) g).1) in *.
  assert (HeuristicExtractor.extract file_path text g
          = HeuristicExtractor.extract file_path text first) as ->.
  { unfold HeuristicExtractor.extract, bind at 1.
    destruct (Graph.ensure_node (Graph.node_id_for_file file_path)
                (os_path.basename file_path) FILE
                (Some [("path", file_path)]) g) as [g0 r] eqn:Hfirst.
    simpl in Hret, first. subst r first.
    symmetry. unfold bind at 1.
    by rewrite (ensure_node_present _ _ _ _ g0 _ Hn). }
  apply (settles_extract file_path text).
Qed.

(** X11.  [extract] keeps a graph built through the methods consistent and
    only adds to it, on every path and text, also when it raises: what it
    stored before the line that raised stays, with both adjacency indexes in
    step. *)
Theorem extract_keeps_graph_consistent (file_path text : string) (g : Graph.t) :
  built g →
  built (HeuristicExtractor.extract file_path text g).1
  ∧ consistent (HeuristicExtractor.extract file_path text g).1
  ∧ le g (HeuristicExtractor.extract file_path text g).1.
Proof.
  intros Hg. pose proof (built_extract file_path text g Hg) as Hbuilt.
  split; [done |]. split; [by apply built_consistent |].
  apply (settles_extract file_path text).
Qed.

Lemma extract_keeps_graph_consistent_witness :
  built Fixtures.small_graph
  ∧ consistent
      (HeuristicExtractor.extract "a.py" "import" Fixtures.small_graph).1.
Proof.
  split; [exact small_graph_built |].
  exact (proj1 (proj2 (extract_keeps_graph_consistent "a.py" "import"
                         Fixtures.small_graph small_graph_built))).
Defined.

(** X12.  On a graph in which every node has its adjacency entries,
    [extract] returns exactly when no line of the text is an import line
    whose target is empty once stripped; on any other text it raises
    [IndexError], and nothing else. *)
Theorem extract_returns_iff_every_import_has_target (file_path text : string)
    (g : Graph.t) :
  wf g →
  ((HeuristicExtractor.extract file_path text g).2 = Returns tt
   ↔ ∀ line, line ∈ Py.splitlines text → ¬ import_without_target line)
  ∧ ((HeuristicExtractor.extract file_path text g).2 ≠ Returns tt →
     (HeuristicExtractor.extract file_path text g).2
     = Raises (IndexError "list index out of range")).
Proof. apply extract_outcome. Qed.

Lemma extract_returns_iff_every_import_has_target_witness :
  wf Graph.new
  ∧ ((HeuristicExtractor.extract "a.py" "x = 1" Graph.new).2 = Returns tt
     ↔ ∀ line, line ∈ Py.splitlines "x = 1" → ¬ import_without_target line).
Proof.
  split; [exact wf_new |].
  exact (proj1 (extract_returns_iff_every_import_has_target "a.py" "x = 1"
                  Graph.new wf_new)).
Defined.

(** X13.  After [extract], returned or raised, the graph holds a node under
    the id of the file: the node that was there before the call, if there was
    one, and else the FILE node named after the base name of the path, with
    the path as its metadata. *)
Theorem extract_leaves_file_node (file_path text : string) (g : Graph.t) :
  Graph._nodes (HeuristicExtractor.extract file_path text g).1
    !! Graph.node_id_for_file file_path
  = Some (default (file_node file_path)
            (Graph._nodes g !! Graph.node_id_for_file file_path)).
Proof.
  eapply le_lookup; [apply (extract_after_file_node file_path text g) |].
  destruct (Graph._nodes g !! Graph.node_id_for_file file_path) as [n|] eqn:Hn.
  - by rewrite (ensure_node_present _ _ _ _ g n Hn).
  - rewrite (ensure_node_absent _ _ _ _ g Hn). simpl.
    by rewrite lookup_insert_eq.
Qed.

Lemma node_shape_fixed_by_id file_path k n :
  node_shape file_path k n → node_fixed_by_id file_path k n.
Proof.
  intros [Hid Hshape].
  unfold node_fixed_by_id, file_node, Graph.node_id_for_file,
    Graph.node_id_for_symbol in *.
  destruct Hshape as [Hn | [(target & Hk & Hn) | [(base & Hk & Hn)
    | [(callee & Hk & Hn) | [(resource & Hk & Hn)
    | (symbol & idx & Hk & _)]]]]];
    [rewrite Hn in Hid; simpl in Hid; symmetry in Hid; rename Hid into Hk
    | clear Hid..];
    (split; [| split; [| split]]); intros x Hx; rewrite Hk in Hx;
    first [ discriminate Hx
          | apply (inj (String.app _)) in Hx; by subst ].
Qed.

(** X14.  Every node that [extract] stores in a fresh graph has one of six
    shapes: the file node, a MODULE under [import:<target>], a TYPE under
    [type:<base>], a FUNCTION under [symbol:any:<callee>], a RESOURCE under
    [resource:<name>], or under [symbol:<path>:<name>] a CLASS, FUNCTION,
    CONSTANT or VARIABLE of that name with the file and the line as its
    metadata.  Under an id of the forms [file:], [import:], [type:] and
    [resource:] the id fixes the node.  Under [symbol:] it does not: the two
    forms overlap, and for the path [any] the text [class Foo(x)] stores a
    CLASS with the file and the line under [symbol:any:Foo], the id that the
    CALLS edge of the same line points to. *)
Theorem extract_node_shapes (file_path text : string) :
  nodes_all (fun k n => node_shape file_path k n
                        ∧ node_fixed_by_id file_path k n)
    (HeuristicExtractor.extract file_path text Graph.new).1
  ∧ Graph._nodes (HeuristicExtractor.extract "any" "class Foo(x)" Graph.new).1
      !! "symbol:any:Foo"
    = Some (Node.mk "symbol:any:Foo" "Foo" CLASS
              [("file", "any"); ("line", "1")])
  ∧ has_edge (HeuristicExtractor.extract "any" "class Foo(x)" Graph.new).1
      (Edge.mk "file:any" "symbol:any:Foo" CALLS [("line", "1")]).
Proof.
  split; [| split; compute_done].
  intros k n Hk.
  assert (node_shape file_path k n) as Hshape.
  { revert k n Hk. apply node_shapes_extract. intros k n Hk. simpl in Hk.
    by rewrite lookup_empty in Hk. }
  split; [done | by apply node_shape_fixed_by_id].
Qed.

(** X15.  The edges that [extract] stores in a fresh graph are IMPORTS,
    CONTAINS, CALLS, WRITES and READS edges from the file node to a node of
    the matching form, and EXTENDS edges from a symbol of the file to a type;
    it stores no IMPLEMENTS and no REFERENCES edge. *)
Theorem extract_edge_shapes (file_path text : string) :
  edges_all (edge_shape file_path)
    (HeuristicExtractor.extract file_path text Graph.new).1.
Proof.
  apply edge_shapes_extract. intros e (xs & Hxs & _). simpl in Hxs.
  by rewrite lookup_empty in Hxs.
Qed.

End extraction_properties.

(** ** Further properties of the scanner *)

Section scanner_properties.
Import GraphFacts GraphInvariants ExtractionFacts ScanFacts.

(** X16.  [walk_paths] yields only files that [should_include_file] admits:
    never a file whose name starts with a dot, never a path with an ignored
    segment; and each path it yields is a given path that is a file, or the
    join of a directory and a file name that the walk of a given path
    gave. *)
Theorem walk_paths_yields_included_files (fs : FileSystem) (self : Scanner.t)
    (paths : list string) (p : string) :
  p ∈ Scanner.walk_paths fs self paths →
  Scanner.should_include_file fs self p = true
  ∧ Py.startswith "." (os_path.basename p) = false
  ∧ (∀ part, part ∈ (Py.split_on "/" p).1 :: (Py.split_on "/" p).2 →
             part ∉ Scanner.ignores self)
  ∧ ((p ∈ paths ∧ isfile fs p = true)
     ∨ ∃ root_path entry filename,
         root_path ∈ paths ∧ isfile fs root_path = false
         ∧ entry ∈ walk fs (fun d => negb (bool_decide (d ∈ Scanner.ignores self))
                                    && negb (Py.startswith "." d)) root_path
         ∧ filename ∈ entry.2
         ∧ p = os_path.join entry.1 filename).
Proof.
  intros [Hinc Horigin]%elem_of_walk_paths.
  destruct (should_include_file_true fs self p Hinc) as [Hdot Hparts].
  done.
Qed.

Lemma walk_paths_yields_included_files_witness :
  "a.py" ∈ Scanner.walk_paths one_file (Scanner.init None None None) ["a.py"]
  ∧ Scanner.should_include_file one_file (Scanner.init None None None) "a.py"
    = true.
Proof.
  assert ("a.py" ∈ Scanner.walk_paths one_file (Scanner.init None None None)
                     ["a.py"]) as Hin by compute_done.
  split; [exact Hin |].
  exact (proj1 (walk_paths_yields_included_files one_file
                  (Scanner.init None None None) ["a.py"] "a.py" Hin)).
Defined.

(** X17.  A file that cannot be read is skipped: when none of the files
    that the walk yields can be read, [scan] returns the empty graph,
    whatever the extractors. *)
Theorem scan_of_unreadable_files_is_empty (fs : FileSystem) (self : Scanner.t)
    (paths : list string) :
  (∀ p, p ∈ Scanner.walk_paths fs self paths → ∃ e, read_text fs p = Raises e) →
  Scanner.scan fs self paths = Returns Graph.new.
Proof.
  intros Hall. unfold Scanner.scan. by rewrite scan_files_unreadable.
Qed.

Lemma scan_of_unreadable_files_is_empty_witness :
  (∀ p, p ∈ Scanner.walk_paths Fixtures.unreadable_file
              (Scanner.init None None None) ["a.py"] →
        ∃ e, read_text Fixtures.unreadable_file p = Raises e)
  ∧ Scanner.scan Fixtures.unreadable_file (Scanner.init None None None) ["a.py"]
    = Returns Graph.new.
Proof.
  assert (∀ p, p ∈ Scanner.walk_paths Fixtures.unreadable_file
                     (Scanner.init None None None) ["a.py"] →
               ∃ e, read_text Fixtures.unreadable_file p = Raises e) as Hall.
  { intros p _. eexists. reflexivity. }
  split; [exact Hall |].
  exact (scan_of_unreadable_files_is_empty Fixtures.unreadable_file
           (Scanner.init None None None) ["a.py"] Hall).
Defined.

(** X18.  A scan with the heuristic extractor alone returns a consistent
    graph in which the file nodes are those of the files that the walk
    yielded and that could be read, and no other: a file whose extraction
    raised has its node too. *)
Theorem default_scan_file_nodes (fs : FileSystem) (self : Scanner.t)
    (paths : list string) :
  Scanner.extractors self = [HeuristicExtractor.new] →
  ∃ graph,
    Scanner.scan fs self paths = Returns graph
    ∧ consistent graph
    ∧ ∀ p n, Graph._nodes graph !! Graph.node_id_for_file p = Some n
             ↔ n = file_node p
               ∧ p ∈ Scanner.walk_paths fs self paths
               ∧ ∃ text, read_text fs p = Returns text.
Proof.
  intros Hext. eexists. unfold Scanner.scan. rewrite scan_files_attempts.
  2:{ rewrite Hext. intros extractor ->%list_elem_of_singleton.
      apply heuristic_raises_Exceptions. }
  split; [done |].
  destruct (fold_attempt_file_heuristic fs self
              (fun p => p ∈ Scanner.walk_paths fs self paths
                        ∧ ∃ text, read_text fs p = Returns text)
              (Scanner.walk_paths fs self paths) Graph.new Hext)
    as (Hbuilt & Hshape & Hnodes).
  - intros p text Hp Hread. eauto.
  - apply built_new.
  - intros k n Hk. simpl in Hk. by rewrite lookup_empty in Hk.
  - split; [by apply built_consistent |]. intros p n. split.
    + intros Hn. destruct (Hshape _ _ Hn p eq_refl) as [[Hp Hread] ->]. done.
    + intros (-> & Hp & text & Hread).
      destruct (Hnodes p text Hp Hread) as [n Hn].
      by destruct (Hshape _ _ Hn p eq_refl) as [_ <-].
Qed.

Lemma default_scan_file_nodes_witness :
  Scanner.extractors (Scanner.init None None None) = [HeuristicExtractor.new]
  ∧ ∃ graph,
      Scanner.scan one_file (Scanner.init None None None) ["a.py"]
      = Returns graph
      ∧ consistent graph.
Proof.
  split; [reflexivity |].
  destruct (default_scan_file_nodes one_file (Scanner.init None None None)
              ["a.py"] eq_refl) as (graph & Hscan & Hgraph & _).
  exists graph. split; [exact Hscan | exact Hgraph].
Defined.

End scanner_properties.

(** ** The escaping of the DOT exporter *)

Section escape_properties.

(** X19.  [escape] loses nothing: two strings with the same escaped form
    are the same string. *)
Theorem escape_is_injective (s1 s2 : string) :
  dot_exporter.escape s1 = dot_exporter.escape s2 → s1 = s2.
Proof. apply escape_inj. Qed.

Lemma escape_is_injective_witness :
  dot_exporter.escape (String "034" "a") = dot_exporter.escape (String "034" "a")
  ∧ String "034" "a" = String "034" "a".
Proof.
  split; [reflexivity |].
  exact (escape_is_injective (String "034" "a") (String "034" "a") eq_refl).
Defined.

(** X20.  In the output of [escape] every double quote follows a backslash:
    the output never starts with a double quote, and a double quote at an
    index has a backslash at the index before. *)
Theorem escaped_quote_follows_backslash (s : string) (i : nat) :
  String.get i (dot_exporter.escape s) = Some "034"%char →
  ∃ j, i = S j ∧ String.get j (dot_exporter.escape s) = Some "092"%char.
Proof. apply escape_quotes. Qed.

Lemma escaped_quote_follows_backslash_witness :
  String.get 2 (dot_exporter.escape (String "a" (String "034" "b")))
  = Some "034"%char
  ∧ ∃ j, 2%nat = S j
         ∧ String.get j (dot_exporter.escape (String "a" (String "034" "b")))
           = Some "092"%char.
Proof.
  split; [reflexivity |].
  exact (escaped_quote_follows_backslash (String "a" (String "034" "b")) 2
           eq_refl).
Defined.

End escape_properties.
